(** * DL Co-Pilot sizing module: a shallow embedding and its properties

    The development follows [assets/dl-copilot-sizing.js].  JavaScript
    strings are modelled as Rocq strings over 8-bit characters, read as
    Latin-1 code units; numbers that the module handles are integers and
    are modelled in [Z]; where the source divides (the frame index and the
    body-mass guardrail) the quotient is rounded as a double-precision
    number rounds it.  [null] and [undefined] are [None].

    After the sizing module come the pure helpers and the sizing intake
    of [assets/dl-copilot-core.js], the inference helpers of
    [assets/dl-copilot-products.js], the identifier hash of
    [assets/dl-copilot-journal.js] and the context tags of the styling
    flow, each in a module of its own. *)

From Stdlib Require Import ZArith QArith Bool Ascii String DecimalString Sorted Lia.
From Stdlib Require Import DecimalPos Qround Qpower Lqa.
From stdpp Require Import gmap strings list.

Local Open Scope string_scope.
Local Open Scope Z_scope.

(** ** Characters and strings as the engine sees them *)

Module JsString.

Definition code (c : ascii) : N := N_of_ascii c.

Definition inRange (lo hi : N) (c : ascii) : bool :=
  ((lo <=? code c) && (code c <=? hi))%N.

(** [\d] *)
Definition isDigit (c : ascii) : bool := inRange 48 57 c.

(** The characters [\b] and [\w] call word characters: [A-Za-z0-9_]. *)
Definition isWordChar (c : ascii) : bool :=
  inRange 97 122 c || inRange 65 90 c || isDigit c || (code c =? 95)%N.

(** White space and line terminators below U+0100: what [\s], [trim]
    and the leading-blank skipping of [parseInt] all use. *)
Definition isSpace (c : ascii) : bool :=
  inRange 9 13 c || (code c =? 32)%N || (code c =? 160)%N.

(** [toLowerCase], one character. *)
Definition lowerChar (c : ascii) : ascii :=
  if inRange 65 90 c || (inRange 192 222 c && negb (code c =? 215)%N)
  then ascii_of_N (code c + 32) else c.

(** Upper case of one character, as the case-insensitive comparison of
    regular expressions takes it: the inverse table of [lowerChar].  The
    characters whose upper case is not a single character of this range
    (codes 181, 223 and 255) stay as they are.  On the letters [a-z] it
    is [toUpperCase]. *)
Definition upperChar (c : ascii) : ascii :=
  if inRange 97 122 c || (inRange 224 254 c && negb (code c =? 247)%N)
  then ascii_of_N (code c - 32) else c.

Fixpoint mapChars (f : ascii -> ascii) (s : string) : string :=
  match s with
  | EmptyString => EmptyString
  | String c tl => String (f c) (mapChars f tl)
  end.

Definition toLowerCase : string -> string := mapChars lowerChar.
Definition toUpperCase : string -> string := mapChars upperChar.

Fixpoint filterChars (keep : ascii -> bool) (s : string) : string :=
  match s with
  | EmptyString => EmptyString
  | String c tl =>
      if keep c then String c (filterChars keep tl) else filterChars keep tl
  end.

(** [s.replace(/c/g, '')] for a single literal character [c]. *)
Definition removeAll (c : ascii) : string -> string :=
  filterChars (fun d => negb (Ascii.eqb d c)).

Fixpoint trimStart (s : string) : string :=
  match s with
  | String c tl => if isSpace c then trimStart tl else s
  | EmptyString => EmptyString
  end.

(** Drops trailing blanks: a character is kept when it is not a blank or
    when something is kept after it. *)
Fixpoint trimEnd (s : string) : string :=
  match s with
  | EmptyString => EmptyString
  | String c tl =>
      match trimEnd tl with
      | EmptyString => if isSpace c then EmptyString else String c EmptyString
      | rest => String c rest
      end
  end.

Definition trim (s : string) : string := trimEnd (trimStart s).

(** [h.indexOf(needle) !== -1] *)
Fixpoint includes (needle h : string) : bool :=
  String.prefix needle h
  || match h with
     | EmptyString => false
     | String _ tl => includes needle tl
     end.

(** [h.indexOf(needle) === 0] *)
Definition startsWith (needle h : string) : bool := String.prefix needle h.

(** [parts.join(sep)] *)
Fixpoint join (sep : string) (parts : list string) : string :=
  match parts with
  | [] => ""
  | [p] => p
  | p :: rest => p ++ sep ++ join sep rest
  end.

Definition digitValue (c : ascii) : Z := Z.of_N (code c) - 48.

(** The longest prefix of decimal digits, as a number; [None] when the
    string does not start with a digit. *)
Fixpoint readDigits (acc : option Z) (s : string) : option Z :=
  match s with
  | String c tl =>
      if isDigit c
      then readDigits (Some (10 * default 0 acc + digitValue c)) tl
      else acc
  | EmptyString => acc
  end.

(** Magnitudes from here on round to [Infinity] in a double. *)
Definition overflowThreshold : Z := 2 ^ 1024 - 2 ^ 970.

(** [parseInt(s, 10)]: leading blanks, one optional sign, then digits;
    [PNaN] when there is no digit, [PInfinite] when the magnitude is
    too large for a double.  The digits are read exactly, which is what
    the engine returns up to 2^53; a longer run of digits it rounds to
    the nearest double, which is not modelled. *)
Inductive parsed : Type :=
| PNaN
| PInfinite
| PFinite (n : Z).

Definition parseInt (s : string) : parsed :=
  let s1 := trimStart s in
  let '(neg, s2) :=
    match s1 with
    | String "-" tl => (true, tl)
    | String "+" tl => (false, tl)
    | _ => (false, s1)
    end in
  match readDigits None s2 with
  | None => PNaN
  | Some n =>
      if overflowThreshold <=? n then PInfinite
      else PFinite (if neg then - n else n)
  end.

(** [String(n)] for an integer [n] below 10^21 in magnitude, where
    [String] prints plain decimal digits; from there on it prints an
    exponent, which is not modelled. *)
Definition ofZ (n : Z) : string := NilZero.string_of_int (Z.to_int n).

End JsString.

(** ** The regular expressions of the module

    A backtracking matcher in continuation style, after the pattern
    semantics of the language standard, for the constructs the module's
    patterns use: literal characters, [\d], [\s], [\b], sequence, ordered
    alternation, numbered capture groups and greedy bounded or unbounded
    repetition of a single character. *)

Module Regex.
Import JsString.

Inductive atom : Type :=
| Lit (c : ascii)
| AnyDigit
| AnySpace.

Inductive regex : Type :=
| Atom (a : atom)
| WordBoundary
| Cat (r1 r2 : regex)
| Alt (r1 r2 : regex)
| Group (i : nat) (r : regex)
| Repeat (a : atom) (lo : nat) (hi : option nat).

(** The position of a match in progress: the character just before it,
    the text still ahead, and the groups captured so far. *)
Record state : Type := State {
  before : option ascii;
  ahead : string;
  groups : list (nat * string)
}.

Definition continuation : Type := state -> option state.

(** With the [i] flag both sides are compared in upper case. *)
Definition atomAccepts (ignoreCase : bool) (a : atom) (c : ascii) : bool :=
  match a with
  | Lit d =>
      if ignoreCase then Ascii.eqb (upperChar c) (upperChar d)
      else Ascii.eqb c d
  | AnyDigit => isDigit c
  | AnySpace => isSpace c
  end.

Definition wordBefore (s : state) : bool :=
  match before s with Some c => isWordChar c | None => false end.

Definition wordAhead (s : state) : bool :=
  match ahead s with String c _ => isWordChar c | EmptyString => false end.

(** The text consumed between position [s] and a later position [s']. *)
Definition consumed (s s' : state) : string :=
  substring 0 (String.length (ahead s) - String.length (ahead s')) (ahead s).

Definition setGroup (i : nat) (v : string) (s : state) : state :=
  State (before s) (ahead s) ((i, v) :: groups s).

Fixpoint getGroup (i : nat) (gs : list (nat * string)) : option string :=
  match gs with
  | [] => None
  | (j, v) :: rest => if Nat.eqb i j then Some v else getGroup i rest
  end.

Definition mayTakeMore (hi : option nat) : bool :=
  match hi with Some O => false | _ => true end.

(** Greedy repetition of one character test: take one more character
    when allowed and go on; when that fails, stop here provided the
    lower bound is met. *)
Fixpoint repeatChars (ok : ascii -> bool) (lo : nat) (hi : option nat)
    (prev : option ascii) (text : string) (gs : list (nat * string))
    (k : continuation) : option state :=
  let stopHere :=
    if Nat.eqb lo 0 then k (State prev text gs) else None in
  match text with
  | String c tl =>
      if mayTakeMore hi && ok c then
        match repeatChars ok (Nat.pred lo) (Nat.pred <$> hi) (Some c) tl gs k with
        | Some r => Some r
        | None => stopHere
        end
      else stopHere
  | EmptyString => stopHere
  end.

Fixpoint run (ignoreCase : bool) (r : regex) (s : state) (k : continuation)
    : option state :=
  match r with
  | Atom a =>
      match ahead s with
      | String c tl =>
          if atomAccepts ignoreCase a c
          then k (State (Some c) tl (groups s)) else None
      | EmptyString => None
      end
  | WordBoundary =>
      if xorb (wordBefore s) (wordAhead s) then k s else None
  | Cat r1 r2 => run ignoreCase r1 s (fun s' => run ignoreCase r2 s' k)
  | Alt r1 r2 =>
      match run ignoreCase r1 s k with
      | Some res => Some res
      | None => run ignoreCase r2 s k
      end
  | Group i r1 =>
      run ignoreCase r1 s (fun s' => k (setGroup i (consumed s s') s'))
  | Repeat a lo hi =>
      repeatChars (atomAccepts ignoreCase a) lo hi
                  (before s) (ahead s) (groups s) k
  end.

(** One attempt at a fixed position. *)
Definition matchAt (ignoreCase : bool) (r : regex)
    (prev : option ascii) (text : string) : option state :=
  run ignoreCase r (State prev text []) Some.

(** The leftmost match, trying every start position in turn. *)
Fixpoint searchFrom (ignoreCase : bool) (r : regex)
    (prev : option ascii) (text : string) : option state :=
  match matchAt ignoreCase r prev text with
  | Some res => Some res
  | None =>
      match text with
      | String c tl => searchFrom ignoreCase r (Some c) tl
      | EmptyString => None
      end
  end.

(** [text.match(re)] without the [g] flag: [None] is [null], otherwise
    the captured groups. *)
Definition exec (ignoreCase : bool) (r : regex) (text : string)
    : option (list (nat * string)) :=
  groups <$> searchFrom ignoreCase r None text.

(** [re.test(text)] *)
Definition test (ignoreCase : bool) (r : regex) (text : string) : bool :=
  match searchFrom ignoreCase r None text with
  | Some _ => true
  | None => false
  end.

(** [text.match(re)] with the [g] flag: every match, left to right, each
    search resuming where the previous match ended (one character
    further after an empty match).  [skip] counts the characters of the
    last match still to step over. *)
Fixpoint scanAll (ignoreCase : bool) (r : regex)
    (prev : option ascii) (text : string) (skip : nat) : list string :=
  match skip with
  | S n =>
      match text with
      | String c tl => scanAll ignoreCase r (Some c) tl n
      | EmptyString => []
      end
  | O =>
      match matchAt ignoreCase r prev text with
      | Some res =>
          let found := consumed (State prev text []) res in
          found ::
            match text with
            | String c tl =>
                scanAll ignoreCase r (Some c) tl (Nat.pred (String.length found))
            | EmptyString => []
            end
      | None =>
          match text with
          | String c tl => scanAll ignoreCase r (Some c) tl 0
          | EmptyString => []
          end
      end
  end.

Definition matchAll (ignoreCase : bool) (r : regex) (text : string)
    : list string :=
  scanAll ignoreCase r None text 0.

(** Pattern-writing helpers. *)
Fixpoint word (s : string) : regex :=
  match s with
  | EmptyString => Repeat AnySpace 0 (Some 0%nat)
  | String c EmptyString => Atom (Lit c)
  | String c tl => Cat (Atom (Lit c)) (word tl)
  end.

Fixpoint oneOf (alts : list regex) : regex :=
  match alts with
  | [] => Repeat AnySpace 0 (Some 0%nat)
  | [r] => r
  | r :: rest => Alt r (oneOf rest)
  end.

Fixpoint seq (parts : list regex) : regex :=
  match parts with
  | [] => Repeat AnySpace 0 (Some 0%nat)
  | [r] => r
  | r :: rest => Cat r (seq rest)
  end.

Definition digits (lo hi : nat) : regex := Repeat AnyDigit lo (Some hi).
Definition spaces : regex := Repeat AnySpace 0 None.

End Regex.

(** ** Double-precision arithmetic

    A number is a rational here; an operation gives the exact result
    rounded to the nearest number with a 53-bit significand, the one
    with an even significand when two are equally near.  The range of
    the exponent is not modelled: the quotients and products of the
    module stay between 2^-1022 and 2^1024 in magnitude, where a double
    is such a number. *)

Module Double.
Local Open Scope Q_scope.

(** The integer nearest to [x], the even one of two equally near. *)
Definition nearestEven (x : Q) : Z :=
  let q := Qfloor x in
  match Qcompare (x - inject_Z q) (1 # 2) with
  | Lt => q
  | Gt => (q + 1)%Z
  | Eq => if Z.even q then q else (q + 1)%Z
  end.

(** The exponent [e] of a positive [x]: [2^52 <= x / 2^e < 2^53]. *)
Definition exponent (x : Q) : Z :=
  let e := (Z.log2 (Qnum x) - Z.log2 (Zpos (Qden x)) - 52)%Z in
  if Qle_bool (2 ^ 52) (x / 2 ^ e) then e else (e - 1)%Z.

Definition roundPositive (x : Q) : Q :=
  let e := exponent x in inject_Z (nearestEven (x / 2 ^ e)) * 2 ^ e.

Definition round (x : Q) : Q :=
  match Qcompare x 0 with
  | Eq => 0
  | Gt => roundPositive x
  | Lt => - roundPositive (- x)
  end.

(** [x / y] and [x * y] on numbers. *)
Definition div (x y : Q) : Q := round (x / y).
Definition mul (x y : Q) : Q := round (x * y).

End Double.

(** ** The sizing module *)

Module Sizing.
Import JsString Regex.

(** *** Values that reach the module from its callers *)

(** The primitive values a caller may hand over where text is expected.
    A number is an integer, and prints in plain decimal (as the integers
    below 10^21 in magnitude do). *)
Inductive JsValue : Type :=
| JsNull
| JsUndefined
| JsBool (b : bool)
| JsNumber (n : Z)
| JsText (s : string).

Definition toStr (v : JsValue) : string :=
  match v with
  | JsNull | JsUndefined => ""
  | JsBool true => "true"
  | JsBool false => "false"
  | JsNumber n => ofZ n
  | JsText s => s
  end.

Definition lower (s : string) : string := toLowerCase s.

(** Truthiness of an optional number, of an optional string. *)
Definition truthy (o : option Z) : bool :=
  match o with Some n => negb (n =? 0) | None => false end.

Definition truthyStr (o : option string) : bool :=
  match o with Some s => negb (String.eqb s "") | None => false end.

(** A value that is neither [null] nor [undefined]. *)
Definition given {A : Type} (o : option A) : bool :=
  match o with Some _ => true | None => false end.

(** [o || null] *)
Definition orNull (o : option Z) : option Z := if truthy o then o else None.
Definition orNullStr (o : option string) : option string :=
  if truthyStr o then o else None.

(** [g === name] for a gender that is a string or [null]. *)
Definition genderIs (g : option string) (name : string) : bool :=
  match g with Some s => String.eqb s name | None => false end.

(** The keys a fresh object literal already answers for: the properties
    it inherits. *)
Definition inheritedKeys : gset string :=
  list_to_set
    [ "constructor"; "__proto__"; "hasOwnProperty"; "isPrototypeOf";
      "propertyIsEnumerable"; "toLocaleString"; "toString"; "valueOf";
      "__defineGetter__"; "__defineSetter__";
      "__lookupGetter__"; "__lookupSetter__" ].

Fixpoint uniqLoop {A : Type} (key : A -> string) (seen : gset string)
    (arr : list A) : list A :=
  match arr with
  | [] => []
  | x :: rest =>
      if decide (key x ∈ seen) then uniqLoop key seen rest
      else x :: uniqLoop key ({[ key x ]} ∪ seen) rest
  end.

Definition uniq {A : Type} (key : A -> string) (arr : list A) : list A :=
  uniqLoop key inheritedKeys arr.

Definition clamp (n : option Z) (min max : Z) : option Z :=
  match n with
  | None => None
  | Some v => Some (if v <? min then min else if v >? max then max else v)
  end.

Fixpoint containsAny (haystack : string) (needles : list string) : bool :=
  match needles with
  | [] => false
  | n :: rest =>
      if includes (lower n) (lower haystack) then true
      else containsAny haystack rest
  end.

(** *** Products *)

Record Variant : Type := {
  option1 : option string;
  option2 : option string;
  option3 : option string
}.

Record Product : Type := {
  title : option string;
  handle : option string;
  type : option string;
  vendor : option string;
  tags : option (list string);
  options : option (list string);
  variants : option (list Variant)
}.

Definition pushIf (o : option string) (parts : list string) : list string :=
  if truthyStr o then parts ++ [default "" o] else parts.

Definition pushJoined (o : option (list string)) (parts : list string)
    : list string :=
  match o with
  | Some l => parts ++ [join " " l]
  | None => parts
  end.

Definition getProductText (product : option Product) : string :=
  match product with
  | None => ""
  | Some p =>
      let parts := pushIf (title p) [] in
      let parts := pushIf (handle p) parts in
      let parts := pushIf (type p) parts in
      let parts := pushIf (vendor p) parts in
      let parts := pushJoined (tags p) parts in
      let parts := pushJoined (options p) parts in
      lower (join " " parts)
  end.

Definition getProductOptions (product : option Product) : list string :=
  match product with
  | Some p => default [] (options p)
  | None => []
  end.

Definition getProductVariants (product : option Product) : list Variant :=
  match product with
  | Some p => default [] (variants p)
  | None => []
  end.

(** A name matcher is a plain string or a pattern. *)
Inductive Matcher : Type :=
| ByString (s : string)
| ByPattern (ignoreCase : bool) (r : regex).

Definition matcherHits (optName : string) (m : Matcher) : bool :=
  match m with
  | ByString s => includes (lower s) optName
  | ByPattern ic r => test ic r optName
  end.

Fixpoint optionIndexFrom (i : Z) (opts : list string)
    (nameMatchers : list Matcher) : Z :=
  match opts with
  | [] => -1
  | o :: rest =>
      if existsb (matcherHits (lower o)) nameMatchers then i
      else optionIndexFrom (i + 1) rest nameMatchers
  end.

Definition getOptionIndexByName (product : option Product)
    (nameMatchers : list Matcher) : Z :=
  optionIndexFrom 0 (getProductOptions product) nameMatchers.

(** [v['option' + (optionIndex + 1)]]: a variant carries three option
    slots, any other key is undefined. *)
Definition variantOption (v : Variant) (optionIndex : Z) : option string :=
  match optionIndex + 1 with
  | 1 => option1 v
  | 2 => option2 v
  | 3 => option3 v
  | _ => None
  end.

Fixpoint pushOptionValues (vs : list Variant) (optionIndex : Z) : list string :=
  match vs with
  | [] => []
  | v :: rest =>
      let val := variantOption v optionIndex in
      if truthyStr val then default "" val :: pushOptionValues rest optionIndex
      else pushOptionValues rest optionIndex
  end.

Definition collectOptionValues (product : option Product) (optionIndex : Z)
    : list string :=
  if optionIndex <? 0 then []
  else uniq id (pushOptionValues (getProductVariants product) optionIndex).

Definition parseIntSafe (x : string) : option Z :=
  match parseInt x with
  | PFinite n => Some n
  | PNaN | PInfinite => None
  end.

(** *** Size systems and categories *)

Inductive SizeSystem : Type :=
| EU_NUMERIC
| SHIRT_COLLAR_EU
| ALPHA
| WAIST_INCH.

Definition SizeSystem_eqb (a b : SizeSystem) : bool :=
  match a, b with
  | EU_NUMERIC, EU_NUMERIC | SHIRT_COLLAR_EU, SHIRT_COLLAR_EU
  | ALPHA, ALPHA | WAIST_INCH, WAIST_INCH => true
  | _, _ => false
  end.

Definition ALPHA_ORDER : list string :=
  ["xxs"; "xs"; "s"; "m"; "l"; "xl"; "xxl"; "xxxl"].

(** One [if (v === from) v = to;] of the alias table. *)
Definition alias (from to v : string) : string :=
  if String.eqb v from then to else v.

Definition normalizeAlphaSize (val : string) : option string :=
  let v := trim (removeAll "." (lower val)) in
  if String.eqb v "" then None
  else
    let v := alias "extra small" "xs" v in
    let v := alias "small" "s" v in
    let v := alias "medium" "m" v in
    let v := alias "large" "l" v in
    let v := alias "extra large" "xl" v in
    let v := if String.eqb v "2xl" || String.eqb v "xxl" then "xxl" else v in
    let v := if String.eqb v "3xl" || String.eqb v "xxxl" then "xxxl" else v in
    let v := removeAll "-" v in
    if existsb (String.eqb v) ALPHA_ORDER then Some (toUpperCase v) else None.

Definition alphaToIndex (alpha : string) : option Z :=
  let a := removeAll "-" (lower alpha) in
  if String.eqb a "xxs" then Some 0
  else if String.eqb a "xs" then Some 1
  else if String.eqb a "s" then Some 2
  else if String.eqb a "m" then Some 3
  else if String.eqb a "l" then Some 4
  else if String.eqb a "xl" then Some 5
  else if String.eqb a "xxl" then Some 6
  else if String.eqb a "xxxl" then Some 7
  else None.

Inductive Category : Type :=
| UNKNOWN | TOP | BOTTOM | OUTERWEAR | SHIRT | KNIT | TSHIRT
| TROUSER | COAT | JACKET | DRESS | SKIRT | BLOUSE.

Definition Category_eqb (a b : Category) : bool :=
  match a, b with
  | UNKNOWN, UNKNOWN | TOP, TOP | BOTTOM, BOTTOM | OUTERWEAR, OUTERWEAR
  | SHIRT, SHIRT | KNIT, KNIT | TSHIRT, TSHIRT | TROUSER, TROUSER
  | COAT, COAT | JACKET, JACKET | DRESS, DRESS | SKIRT, SKIRT
  | BLOUSE, BLOUSE => true
  | _, _ => false
  end.

(** *** Gender and category of a product *)

Definition inferGenderFromProduct (product : option Product) : option string :=
  let t := getProductText product in
  if String.eqb t "" then None
  else if containsAny t ["women"; "woman"; "womenswear"; "ladies"; "female"]
  then Some "female"
  else if containsAny t ["men"; "man"; "menswear"; "male"; "gentlemen"]
  then Some "male"
  else
    match product with
    | Some p =>
        if truthyStr (handle p) then
          let h := lower (default "" (handle p)) in
          if startsWith "woman-" h || startsWith "women-" h then Some "female"
          else if startsWith "man-" h || startsWith "men-" h then Some "male"
          else None
        else None
    | None => None
    end.

Definition inferCategoryFromProduct (product : option Product) : Category :=
  let t := getProductText product in
  if String.eqb t "" then UNKNOWN
  else if containsAny t ["overshirt"] then SHIRT
  else if containsAny t ["shirt"] then SHIRT
  else if containsAny t ["t-shirt"; "tee"; "tshirt"] then TSHIRT
  else if containsAny t ["knit"; "sweater"; "jumper"; "cardigan"] then KNIT
  else if containsAny t ["trouser"; "trousers"; "pants"; "pant"; "slack"; "slacks"]
  then TROUSER
  else if containsAny t ["skirt"] then SKIRT
  else if containsAny t ["coat"; "overcoat"] then COAT
  else if containsAny t ["jacket"; "blouson"; "outerwear"] then JACKET
  else if containsAny t ["dress"] then DRESS
  else if containsAny t ["blouse"] then BLOUSE
  else if containsAny t ["top"; "tops"] then TOP
  else if containsAny t ["bottom"; "bottoms"] then BOTTOM
  else UNKNOWN.

(** *** The size schema *)

Record Available : Type := {
  raw : list string;
  numeric : list Z;
  alpha : list string;
  waist : list Z
}.

Record Schema : Type := {
  gender : option string;
  category : Category;
  system : SizeSystem;
  askUsual : bool;
  required : list string;
  notes : list string;
  available : option Available
}.

(** The callers of [createSchema] always pass the six base fields, so
    every default is overridden; [available] is attached later. *)
Definition createSchema (g : option string) (c : Category) (sys : SizeSystem)
    (ask : bool) (req : list string) (nts : list string) : Schema :=
  {| gender := g; category := c; system := sys; askUsual := ask;
     required := req; notes := nts; available := None |}.

(** A category of the enumeration is never falsy, so the fallbacks
    [category || CATEGORIES.TOP] and [category || CATEGORIES.UNKNOWN] of
    the three builders below never apply. *)
Definition schemaForMenswear (c : Category) : Schema :=
  if Category_eqb c SHIRT then
    createSchema (Some "male") SHIRT SHIRT_COLLAR_EU true
      ["height_cm"; "weight_kg"; "shirt_size_eu"]
      ["mens_shirt_requires_collar_size"]
  else if Category_eqb c TROUSER || Category_eqb c BOTTOM then
    createSchema (Some "male") TROUSER EU_NUMERIC true
      ["height_cm"; "weight_kg"; "usual_size_eu"]
      ["mens_trouser_eu_numeric"]
  else
    createSchema (Some "male") c EU_NUMERIC true
      ["height_cm"; "weight_kg"; "usual_size_eu"]
      ["mens_eu_numeric_default"].

Definition schemaForWomenswear (c : Category) : Schema :=
  if Category_eqb c SHIRT || Category_eqb c BLOUSE then
    createSchema (Some "female") c EU_NUMERIC true
      ["height_cm"; "weight_kg"; "usual_size_eu"]
      ["womens_top_eu_numeric"]
  else if Category_eqb c TROUSER || Category_eqb c BOTTOM || Category_eqb c SKIRT
  then
    createSchema (Some "female") c EU_NUMERIC true
      ["height_cm"; "weight_kg"; "usual_size_eu"]
      ["womens_bottom_eu_numeric"]
  else
    createSchema (Some "female") c EU_NUMERIC true
      ["height_cm"; "weight_kg"; "usual_size_eu"]
      ["womens_eu_numeric_default"].

Definition schemaForGeneral (c : Category) (g : option string) : Schema :=
  if genderIs g "male" then schemaForMenswear c
  else if genderIs g "female" then schemaForWomenswear c
  else
    createSchema None c EU_NUMERIC true
      ["height_cm"; "weight_kg"; "usual_size_eu"]
      ["gender_unknown_general_schema"].

(** *** Detecting the system from the variant values *)

(** [/(\bw\d{2}\b|\b\d{2}\s*w\b|\bwaist\s*\d{2}\b)/i] *)
Definition waistTokenPattern : regex :=
  Group 1
    (oneOf
       [ seq [WordBoundary; word "w"; digits 2 2; WordBoundary];
         seq [WordBoundary; digits 2 2; spaces; word "w"; WordBoundary];
         seq [WordBoundary; word "waist"; spaces; digits 2 2; WordBoundary] ]).

Record Signals : Type := {
  hasAlpha : bool;
  hasCollar : bool;
  hasEuNumeric : bool;
  hasWaist : bool
}.

Definition inBand (lo hi : Z) (n : option Z) : bool :=
  match n with
  | Some v => (lo <=? v) && (v <=? hi)
  | None => false
  end.

(** One turn of the loop over the values. *)
Definition observeValue (sg : Signals) (value : string) : Signals :=
  let v := lower value in
  let n := parseIntSafe v in
  {| hasAlpha := hasAlpha sg || given (normalizeAlphaSize v);
     hasCollar := hasCollar sg || inBand 37 46 n;
     hasEuNumeric := hasEuNumeric sg || inBand 34 60 n;
     hasWaist := hasWaist sg || test true waistTokenPattern value |}.

Definition noSignals : Signals :=
  {| hasAlpha := false; hasCollar := false;
     hasEuNumeric := false; hasWaist := false |}.

Definition detectSystemFromVariantValues (values : list string) : SizeSystem :=
  let sg := fold_left observeValue values noSignals in
  if hasWaist sg then WAIST_INCH
  else if hasCollar sg && negb (hasAlpha sg) then SHIRT_COLLAR_EU
  else if hasAlpha sg then ALPHA
  else if hasEuNumeric sg then EU_NUMERIC
  else EU_NUMERIC.

(** *** Availability *)

Definition sizeOptionMatchers : list Matcher :=
  [ ByString "size";
    ByPattern true (word "taglia");
    ByPattern true (word "talla");
    ByPattern true
      (seq [word "gr"; Atom (Lit (ascii_of_N 246)); Atom (Lit (ascii_of_N 223));
            word "e"]);
    ByPattern true (word "taille") ].

(** Stable insertion sort by an integer key: what [sort] does with the
    comparator [key(a) - key(b)]. *)
Fixpoint insertBy {A : Type} (key : A -> Z) (x : A) (l : list A) : list A :=
  match l with
  | [] => [x]
  | y :: rest =>
      if key y <=? key x then y :: insertBy key x rest else x :: l
  end.

Definition sortBy {A : Type} (key : A -> Z) (l : list A) : list A :=
  fold_left (fun acc x => insertBy key x acc) l [].

(** [/\bw(\d{2})\b/] and [/\b(\d{2})\s*w\b/] *)
Definition waistPrefixPattern : regex :=
  seq [WordBoundary; word "w"; Group 1 (digits 2 2); WordBoundary].
Definition waistSuffixPattern : regex :=
  seq [WordBoundary; Group 1 (digits 2 2); spaces; word "w"; WordBoundary].

(** [m && m[i]]: the text of group [i] when the match succeeded and the
    group is not empty. *)
Definition captured (m : option (list (nat * string))) (i : nat)
    : option string :=
  orNullStr (m ≫= getGroup i).

Definition waistOfLabel (v : string) : option Z :=
  match captured (exec false waistPrefixPattern (lower v)) 1 with
  | Some d => parseIntSafe d
  | None =>
      match captured (exec false waistSuffixPattern (lower v)) 1 with
      | Some d => parseIntSafe d
      | None => None
      end
  end.

Definition rankOf (a : string) : Z := default 0 (alphaToIndex a).

Definition extractAvailableSizes (product : option Product) (schema : Schema)
    : Available :=
  match product with
  | None => {| raw := []; numeric := []; alpha := []; waist := [] |}
  | Some _ =>
      let idxSize := getOptionIndexByName product sizeOptionMatchers in
      let sizeValues := collectOptionValues product idxSize in
      {| raw := sizeValues;
         numeric := sortBy id (uniq ofZ (omap (fun v => parseIntSafe (lower v)) sizeValues));
         alpha := sortBy rankOf (uniq id (omap normalizeAlphaSize sizeValues));
         waist := sortBy id (uniq ofZ (omap waistOfLabel sizeValues)) |}
  end.

(** *** The schema of a product *)

(** Assignments to one field of a schema. *)
Definition setSystem (sys : SizeSystem) (s : Schema) : Schema :=
  {| gender := gender s; category := category s; system := sys;
     askUsual := askUsual s; required := required s; notes := notes s;
     available := available s |}.

Definition setRequired (req : list string) (s : Schema) : Schema :=
  {| gender := gender s; category := category s; system := system s;
     askUsual := askUsual s; required := req; notes := notes s;
     available := available s |}.

Definition setAskUsual (ask : bool) (s : Schema) : Schema :=
  {| gender := gender s; category := category s; system := system s;
     askUsual := ask; required := required s; notes := notes s;
     available := available s |}.

Definition pushNote (note : string) (s : Schema) : Schema :=
  {| gender := gender s; category := category s; system := system s;
     askUsual := askUsual s; required := required s;
     notes := notes s ++ [note]; available := available s |}.

Definition setAvailable (a : Available) (s : Schema) : Schema :=
  {| gender := gender s; category := category s; system := system s;
     askUsual := askUsual s; required := required s; notes := notes s;
     available := Some a |}.

Definition isTailoring (v : string) : bool :=
  inBand 44 60 (parseIntSafe (lower v)).

(** The refinement of the base schema by the size values found. *)
Definition refineSchema (schema : Schema) (sizeValues : list string) : Schema :=
  match sizeValues with
  | [] => pushNote "no_product_size_option_detected" schema
  | _ :: _ =>
      let detectedSystem := detectSystemFromVariantValues sizeValues in
      if Category_eqb (category schema) SHIRT
         && SizeSystem_eqb detectedSystem SHIRT_COLLAR_EU then
        pushNote "product_forces_collar_sizing"
          (setAskUsual true
             (setRequired ["height_cm"; "weight_kg"; "shirt_size_eu"]
                (setSystem SHIRT_COLLAR_EU schema)))
      else if SizeSystem_eqb detectedSystem ALPHA then
        pushNote "product_uses_alpha_sizing"
          (setAskUsual true
             (setRequired ["height_cm"; "weight_kg"; "alpha_size"]
                (setSystem ALPHA schema)))
      else if SizeSystem_eqb detectedSystem WAIST_INCH then
        pushNote "product_uses_waist_sizing"
          (setAskUsual true
             (setRequired ["height_cm"; "weight_kg"; "waist_inch"]
                (setSystem WAIST_INCH schema)))
      else
        let schema := setSystem EU_NUMERIC schema in
        if genderIs (gender schema) "male"
           && Category_eqb (category schema) SHIRT then
          if existsb isTailoring sizeValues then schema
          else
            pushNote "mens_shirt_defaulted_to_collar"
              (setRequired ["height_cm"; "weight_kg"; "shirt_size_eu"]
                 (setSystem SHIRT_COLLAR_EU schema))
        else
          pushNote "product_uses_eu_numeric"
            (setRequired ["height_cm"; "weight_kg"; "usual_size_eu"] schema)
  end.

Definition sizeValuesOf (product : option Product) : list string :=
  collectOptionValues product (getOptionIndexByName product sizeOptionMatchers).

Definition detectSizeSchemaFromProduct (product : option Product)
    : option Schema :=
  match product with
  | None => None
  | Some _ =>
      let g := inferGenderFromProduct product in
      let c := inferCategoryFromProduct product in
      let schema := schemaForGeneral c g in
      let schema := refineSchema schema (sizeValuesOf product) in
      Some (setAvailable (extractAvailableSizes product schema) schema)
  end.

(** *** Parsing what the user typed *)

Module Out.
Record t : Type := {
  height_cm : option Z;
  weight_kg : option Z;
  usual_size_eu : option Z;
  shirt_size_eu : option Z;
  alpha_size : option string;
  waist_inch : option Z;
  ambiguous_numbers : list Z
}.

Definition empty : t :=
  {| height_cm := None; weight_kg := None; usual_size_eu := None;
     shirt_size_eu := None; alpha_size := None; waist_inch := None;
     ambiguous_numbers := [] |}.

Definition setHeight (v : option Z) (o : t) : t :=
  {| height_cm := v; weight_kg := weight_kg o;
     usual_size_eu := usual_size_eu o; shirt_size_eu := shirt_size_eu o;
     alpha_size := alpha_size o; waist_inch := waist_inch o;
     ambiguous_numbers := ambiguous_numbers o |}.

Definition setWeight (v : option Z) (o : t) : t :=
  {| height_cm := height_cm o; weight_kg := v;
     usual_size_eu := usual_size_eu o; shirt_size_eu := shirt_size_eu o;
     alpha_size := alpha_size o; waist_inch := waist_inch o;
     ambiguous_numbers := ambiguous_numbers o |}.

Definition setUsual (v : option Z) (o : t) : t :=
  {| height_cm := height_cm o; weight_kg := weight_kg o;
     usual_size_eu := v; shirt_size_eu := shirt_size_eu o;
     alpha_size := alpha_size o; waist_inch := waist_inch o;
     ambiguous_numbers := ambiguous_numbers o |}.

Definition setShirt (v : option Z) (o : t) : t :=
  {| height_cm := height_cm o; weight_kg := weight_kg o;
     usual_size_eu := usual_size_eu o; shirt_size_eu := v;
     alpha_size := alpha_size o; waist_inch := waist_inch o;
     ambiguous_numbers := ambiguous_numbers o |}.

Definition setAlpha (v : option string) (o : t) : t :=
  {| height_cm := height_cm o; weight_kg := weight_kg o;
     usual_size_eu := usual_size_eu o; shirt_size_eu := shirt_size_eu o;
     alpha_size := v; waist_inch := waist_inch o;
     ambiguous_numbers := ambiguous_numbers o |}.

Definition setWaist (v : option Z) (o : t) : t :=
  {| height_cm := height_cm o; weight_kg := weight_kg o;
     usual_size_eu := usual_size_eu o; shirt_size_eu := shirt_size_eu o;
     alpha_size := alpha_size o; waist_inch := v;
     ambiguous_numbers := ambiguous_numbers o |}.

Definition pushAmbiguous (n : Z) (o : t) : t :=
  {| height_cm := height_cm o; weight_kg := weight_kg o;
     usual_size_eu := usual_size_eu o; shirt_size_eu := shirt_size_eu o;
     alpha_size := alpha_size o; waist_inch := waist_inch o;
     ambiguous_numbers := ambiguous_numbers o ++ [n] |}.
End Out.

(** [/\b(xxxs|xxs|xs|s|m|l|xl|xxl|xxxl)\b/i] *)
Definition alphaPattern : regex :=
  seq [ WordBoundary;
        Group 1 (oneOf (map word
          ["xxxs"; "xxs"; "xs"; "s"; "m"; "l"; "xl"; "xxl"; "xxxl"]));
        WordBoundary ].

(** [/(\d{2,3})\s*cm\b/] and [/(\d{2,3})\s*kg\b/] *)
Definition heightPattern : regex :=
  seq [Group 1 (digits 2 3); spaces; word "cm"; WordBoundary].
Definition weightPattern : regex :=
  seq [Group 1 (digits 2 3); spaces; word "kg"; WordBoundary].

(** [/\beu\s*(\d{2})\b/] and [/\bsize\s*(\d{2})\b/] *)
Definition euPattern : regex :=
  seq [WordBoundary; word "eu"; spaces; Group 1 (digits 2 2); WordBoundary].
Definition sizeWordPattern : regex :=
  seq [WordBoundary; word "size"; spaces; Group 1 (digits 2 2); WordBoundary].

(** [/\b(shirt|collar)\s*(\d{2})\b/] *)
Definition shirtPattern : regex :=
  seq [ WordBoundary; Group 1 (oneOf [word "shirt"; word "collar"]);
        spaces; Group 2 (digits 2 2); WordBoundary ].

(** [/\b\d{2,3}\b/g] *)
Definition barePattern : regex :=
  seq [WordBoundary; digits 2 3; WordBoundary].

(** The part of [parseUserInput] before the loop over the bare numbers:
    alpha token, waist token, explicit units, explicit size phrases. *)
Definition parseExplicit (t : string) : Out.t :=
  let out := Out.empty in
  let out :=
    match captured (exec true alphaPattern t) 1 with
    | Some tok =>
        match normalizeAlphaSize tok with
        | Some alphaNorm => Out.setAlpha (Some alphaNorm) out
        | None => out
        end
    | None => out
    end in
  let out :=
    match captured (exec true waistPrefixPattern t) 1 with
    | Some d =>
        match parseIntSafe d with
        | Some wn => Out.setWaist (Some wn) out
        | None => out
        end
    | None =>
        match captured (exec true waistSuffixPattern t) 1 with
        | Some d =>
            match parseIntSafe d with
            | Some wn2 => Out.setWaist (Some wn2) out
            | None => out
            end
        | None => out
        end
    end in
  let out :=
    match captured (exec false heightPattern t) 1 with
    | Some d => Out.setHeight (parseIntSafe d) out
    | None => out
    end in
  let out :=
    match captured (exec false weightPattern t) 1 with
    | Some d => Out.setWeight (parseIntSafe d) out
    | None => out
    end in
  let out :=
    match captured (exec false euPattern t) 1 with
    | Some d => Out.setUsual (parseIntSafe d) out
    | None => out
    end in
  let out :=
    if negb (truthy (Out.usual_size_eu out)) then
      match captured (exec false sizeWordPattern t) 1 with
      | Some d => Out.setUsual (parseIntSafe d) out
      | None => out
      end
    else out in
  match captured (exec false shirtPattern t) 2 with
  | Some d => Out.setShirt (parseIntSafe d) out
  | None => out
  end.

(** The [used] object: how many occurrences of a number are spoken for. *)
Definition usedCount (used : gmap Z nat) (n : Z) : nat :=
  default 0%nat (used !! n).

Definition markUsed (n : Z) (used : gmap Z nat) : gmap Z nat :=
  <[ n := (usedCount used n + 1)%nat ]> used.

Definition markIf (v : option Z) (used : gmap Z nat) : gmap Z nat :=
  match v with
  | Some n => if truthy v then markUsed n used else used
  | None => used
  end.

Definition initialUsed (out : Out.t) : gmap Z nat :=
  markIf (Out.waist_inch out)
    (markIf (Out.shirt_size_eu out)
       (markIf (Out.usual_size_eu out)
          (markIf (Out.weight_kg out)
             (markIf (Out.height_cm out) ∅)))).

Definition systemIs (schema : option Schema) (sys : SizeSystem) : bool :=
  match schema with
  | Some s => SizeSystem_eqb (system s) sys
  | None => false
  end.

Definition within (lo hi n : Z) : bool := (lo <=? n) && (n <=? hi).

(** One turn of the loop over the bare numbers. *)
Definition assignBare (schema : option Schema) (st : Out.t * gmap Z nat)
    (token : string) : Out.t * gmap Z nat :=
  let '(out, used) := st in
  match parseIntSafe token with
  | None => st
  | Some n =>
      if negb (Nat.eqb (usedCount used n) 0) then
        (out, <[ n := Nat.pred (usedCount used n) ]> used)
      else if negb (truthy (Out.height_cm out)) && within 140 210 n then
        (Out.setHeight (Some n) out, used)
      else if systemIs schema SHIRT_COLLAR_EU
              && (negb (truthy (Out.shirt_size_eu out)) && within 37 46 n) then
        (Out.setShirt (Some n) out, used)
      else if systemIs schema WAIST_INCH
              && (negb (truthy (Out.waist_inch out)) && within 24 48 n) then
        (Out.setWaist (Some n) out, used)
      else if systemIs schema EU_NUMERIC
              && (negb (truthy (Out.usual_size_eu out)) && within 34 60 n) then
        (Out.setUsual (Some n) out, used)
      else if negb (truthy (Out.weight_kg out)) && within 40 180 n then
        (Out.setWeight (Some n) out, used)
      else (Out.pushAmbiguous n out, used)
  end.

(** Everything up to, and without, the final reconciliation. *)
Definition parseBeforeReconcile (t : string) (schema : option Schema) : Out.t :=
  let out := parseExplicit t in
  let nums := matchAll false barePattern t in
  fst (fold_left (assignBare schema) nums (out, initialUsed out)).

(** The closing block: a captured EU size inside the collar band becomes
    the shirt size of a collar schema. *)
Definition reconcile (schema : option Schema) (out : Out.t) : Out.t :=
  if systemIs schema SHIRT_COLLAR_EU
     && (negb (truthy (Out.shirt_size_eu out))
         && truthy (Out.usual_size_eu out)
         && inBand 37 46 (Out.usual_size_eu out))
  then Out.setUsual None (Out.setShirt (Out.usual_size_eu out) out)
  else out.

Definition parseUserInput (text : JsValue) (schema : option Schema) : Out.t :=
  let t := lower (toStr text) in
  if String.eqb t "" then Out.empty
  else reconcile schema (parseBeforeReconcile t schema).

(** Any value a caller can hand over as the text, by what [toStr] makes
    of it: [null] and [undefined] give the empty text; of any other
    value [String] either makes a text (every primitive, an array, an
    object with a working [toString]) or throws (an object that cannot
    be converted, such as [Object.create(null)]).  [None] is the
    exception. *)
Inductive Input : Type :=
| Nullish
| Printed (s : string)
| Unprintable.

Definition toStrOf (v : Input) : option string :=
  match v with
  | Nullish => Some ""
  | Printed s => Some s
  | Unprintable => None
  end.

(** [parseUserInput] on any value: the text is used through
    [lower(text)] alone, so the call throws where [toStr] does and is
    the parse of the printed text otherwise. *)
Definition parseUserInputOf (text : Input) (schema : option Schema)
    : option Out.t :=
  (fun s => parseUserInput (JsText s) schema) <$> toStrOf text.

(** *** The recommendation engine *)

Module User.
Record t : Type := {
  height_cm : option Z;
  weight_kg : option Z;
  usual_size_eu : option Z;
  shirt_size_eu : option Z;
  alpha_size : option string;
  waist_inch : option Z
}.

(** [{}] *)
Definition empty : t :=
  {| height_cm := None; weight_kg := None; usual_size_eu := None;
     shirt_size_eu := None; alpha_size := None; waist_inch := None |}.
End User.

Definition lessThan (h : option Z) (bound : Z) : bool :=
  match h with Some v => v <? bound | None => false end.

Definition atMost (h : option Z) (bound : Z) : bool :=
  match h with Some v => v <=? bound | None => false end.

Definition resolveLength (height_cm : option Z) (gender : option string)
    : string :=
  if negb (truthy height_cm) then "standard"
  else if genderIs gender "male" then
    if lessThan height_cm 170 then "short"
    else if atMost height_cm 184 then "standard"
    else "long"
  else if genderIs gender "female" then
    if lessThan height_cm 162 then "short"
    else if atMost height_cm 172 then "standard"
    else "long"
  else
    if lessThan height_cm 166 then "short"
    else if atMost height_cm 180 then "standard"
    else "long".

(** [weight_kg / (height_cm / 100)]: two divisions, each rounded. *)
Definition frameIndex (height_cm weight_kg : Z) : Q :=
  Double.div (inject_Z weight_kg)
    (Double.div (inject_Z height_cm) (inject_Z 100)).

Definition below (x : Q) (bound : Z) : bool :=
  negb (Qle_bool (inject_Z bound) x).

Definition bump (cond : bool) (step : Z) (n : Z) : Z :=
  if cond then n + step else n.

Definition deriveEuSizeFromProportions (height_cm weight_kg : option Z)
    (gender : option string) : option Z :=
  match height_cm, weight_kg with
  | Some h, Some w =>
      if negb (truthy height_cm) || negb (truthy weight_kg) then None
      else
        let fi := frameIndex h w in
        if genderIs gender "male" then
          let baseM :=
            if below fi 43 then 46
            else if below fi 47 then 48
            else if below fi 51 then 50
            else if below fi 55 then 52
            else 54 in
          let baseM := bump (195 <=? h) 2 baseM in
          let baseM := bump (205 <=? h) 2 baseM in
          clamp (Some baseM) 44 60
        else if genderIs gender "female" then
          let baseW :=
            if below fi 34 then 34
            else if below fi 38 then 36
            else if below fi 42 then 38
            else if below fi 46 then 40
            else if below fi 50 then 42
            else if below fi 54 then 44
            else 46 in
          let baseW := bump (175 <=? h) 2 baseW in
          let baseW := bump (182 <=? h) 2 baseW in
          clamp (Some baseW) 32 48
        else
          let neutral :=
            if below fi 38 then 36
            else if below fi 44 then 40
            else if below fi 50 then 44
            else 48 in
          clamp (Some neutral) 34 58
  | _, _ => None
  end.

Definition deriveShirtCollarFromProportions (height_cm weight_kg : option Z)
    : option Z :=
  match height_cm, weight_kg with
  | Some h, Some w =>
      if negb (truthy height_cm) || negb (truthy weight_kg) then None
      else
        let collar :=
          if w <? 65 then 38
          else if w <? 72 then 39
          else if w <? 80 then 40
          else if w <? 88 then 41
          else if w <? 96 then 42
          else 43 in
        let collar := bump (190 <=? h) 1 collar in
        let collar := bump (h <=? 168) (-1) collar in
        clamp (Some collar) 37 46
  | _, _ => None
  end.

Definition deriveAlphaFromProportions (height_cm weight_kg : option Z)
    (gender : option string) : option string :=
  match height_cm, weight_kg with
  | Some h, Some w =>
      if negb (truthy height_cm) || negb (truthy weight_kg) then None
      else
        let fi := frameIndex h w in
        let idx : nat :=
          (if genderIs gender "female" then
             if below fi 30 then 1
             else if below fi 34 then 2
             else if below fi 38 then 3
             else if below fi 42 then 4
             else 5
           else
             if below fi 40 then 2
             else if below fi 46 then 3
             else if below fi 52 then 4
             else if below fi 58 then 5
             else 6)%nat in
        Some (toUpperCase (default "m" (ALPHA_ORDER !! idx)))
  | _, _ => None
  end.

Definition deriveWaistFromProportions (height_cm weight_kg : option Z)
    (gender : option string) : option Z :=
  match height_cm, weight_kg with
  | Some h, Some w =>
      if negb (truthy height_cm) || negb (truthy weight_kg) then None
      else
        let wi :=
          if genderIs gender "female" then
            if w <? 55 then 26
            else if w <? 62 then 27
            else if w <? 70 then 28
            else if w <? 78 then 30
            else if w <? 86 then 32
            else 34
          else
            if w <? 65 then 29
            else if w <? 73 then 30
            else if w <? 82 then 32
            else if w <? 92 then 34
            else if w <? 104 then 36
            else 38 in
        let wi := bump (190 <=? h) 1 wi in
        let wi := bump (h <=? 168) (-1) wi in
        clamp (Some wi) 24 48
  | _, _ => None
  end.

(** *** The availability clamp *)

(** One turn of the loop of [closestNumeric] and [closestAlpha]: [best]
    and [bestDiff] change only on a strictly smaller distance. *)
Definition closer {A : Type} (dist : A -> Z) (acc : A * Z) (x : A) : A * Z :=
  let d := dist x in
  if d <? snd acc then (x, d) else acc.

Definition closestNumeric (target : option Z) (list : list Z) : option Z :=
  match target, list with
  | Some t, first :: rest =>
      let dist x := Z.abs (x - t) in
      Some (fst (fold_left (closer dist) rest (first, dist first)))
  | _, _ => target
  end.

Definition closestAlpha (targetAlpha : option string) (list : list string)
    : option string :=
  match list with
  | first :: rest =>
      if truthyStr targetAlpha then
        match alphaToIndex (default "" targetAlpha) with
        | None => targetAlpha
        | Some t =>
            let dist x := Z.abs (rankOf x - t) in
            Some (fst (fold_left (closer dist) rest (first, dist first)))
        end
      else targetAlpha
  | [] => targetAlpha
  end.

Module Rec.
Record t : Type := {
  system : SizeSystem;
  gender : option string;
  category : Category;
  length : string;
  size_eu : option Z;
  shirt_size_eu : option Z;
  alpha_size : option string;
  waist_inch : option Z;
  used_usual_as_anchor : bool
}.

Definition setSizeEu (v : option Z) (anchor : bool) (r : t) : t :=
  {| system := system r; gender := gender r; category := category r;
     length := length r; size_eu := v; shirt_size_eu := shirt_size_eu r;
     alpha_size := alpha_size r; waist_inch := waist_inch r;
     used_usual_as_anchor := anchor |}.

Definition setShirt (v : option Z) (anchor : bool) (r : t) : t :=
  {| system := system r; gender := gender r; category := category r;
     length := length r; size_eu := size_eu r; shirt_size_eu := v;
     alpha_size := alpha_size r; waist_inch := waist_inch r;
     used_usual_as_anchor := anchor |}.

Definition setAlpha (v : option string) (anchor : bool) (r : t) : t :=
  {| system := system r; gender := gender r; category := category r;
     length := length r; size_eu := size_eu r;
     shirt_size_eu := shirt_size_eu r; alpha_size := v;
     waist_inch := waist_inch r; used_usual_as_anchor := anchor |}.

Definition setWaist (v : option Z) (anchor : bool) (r : t) : t :=
  {| system := system r; gender := gender r; category := category r;
     length := length r; size_eu := size_eu r;
     shirt_size_eu := shirt_size_eu r; alpha_size := alpha_size r;
     waist_inch := v; used_usual_as_anchor := anchor |}.
End Rec.

Definition clampRecommendationToProduct (schema : option Schema)
    (recommendation : Rec.t) : Rec.t :=
  match schema ≫= (fun s => (fun a => (s, a)) <$> available s) with
  | None => recommendation
  | Some (s, avail) =>
      let keep := Rec.used_usual_as_anchor recommendation in
      match system s with
      | EU_NUMERIC =>
          if given (Rec.size_eu recommendation)
             && negb (Nat.eqb (List.length (numeric avail)) 0)
          then Rec.setSizeEu
                 (closestNumeric (Rec.size_eu recommendation) (numeric avail))
                 keep recommendation
          else recommendation
      | SHIRT_COLLAR_EU =>
          if given (Rec.shirt_size_eu recommendation)
             && negb (Nat.eqb (List.length (numeric avail)) 0)
          then Rec.setShirt
                 (closestNumeric (Rec.shirt_size_eu recommendation) (numeric avail))
                 keep recommendation
          else recommendation
      | ALPHA =>
          if truthyStr (Rec.alpha_size recommendation)
             && negb (Nat.eqb (List.length (alpha avail)) 0)
          then Rec.setAlpha
                 (closestAlpha (Rec.alpha_size recommendation) (alpha avail))
                 keep recommendation
          else recommendation
      | WAIST_INCH =>
          if given (Rec.waist_inch recommendation)
             && negb (Nat.eqb (List.length (waist avail)) 0)
          then Rec.setWaist
                 (closestNumeric (Rec.waist_inch recommendation) (waist avail))
                 keep recommendation
          else recommendation
      end
  end.

(** *** The orchestrator *)

Definition recommend (schema : option Schema) (user : option User.t) : Rec.t :=
  let user := default User.empty user in
  let schema := default (schemaForGeneral UNKNOWN None) schema in
  let rec :=
    {| Rec.system := system schema;
       Rec.gender := orNullStr (gender schema);
       Rec.category := category schema;
       Rec.length := resolveLength (User.height_cm user) (gender schema);
       Rec.size_eu := None;
       Rec.shirt_size_eu := None;
       Rec.alpha_size := None;
       Rec.waist_inch := None;
       Rec.used_usual_as_anchor := false |} in
  let rec :=
    match system schema with
    | EU_NUMERIC =>
        if truthy (User.usual_size_eu user)
        then Rec.setSizeEu (User.usual_size_eu user) true rec
        else Rec.setSizeEu
               (deriveEuSizeFromProportions (User.height_cm user)
                  (User.weight_kg user) (gender schema))
               false rec
    | SHIRT_COLLAR_EU =>
        if truthy (User.shirt_size_eu user)
        then Rec.setShirt (User.shirt_size_eu user) true rec
        else Rec.setShirt
               (deriveShirtCollarFromProportions (User.height_cm user)
                  (User.weight_kg user))
               false rec
    | ALPHA =>
        if truthyStr (User.alpha_size user)
        then Rec.setAlpha
               (match normalizeAlphaSize (default "" (User.alpha_size user)) with
                | Some a => Some a
                | None => User.alpha_size user
                end)
               true rec
        else Rec.setAlpha
               (deriveAlphaFromProportions (User.height_cm user)
                  (User.weight_kg user) (gender schema))
               false rec
    | WAIST_INCH =>
        if truthy (User.waist_inch user)
        then Rec.setWaist (User.waist_inch user) true rec
        else Rec.setWaist
               (deriveWaistFromProportions (User.height_cm user)
                  (User.weight_kg user) (gender schema))
               false rec
    end in
  clampRecommendationToProduct (Some schema) rec.

(** *** The product-aware entry point *)

Module Ctx.
Record t : Type := {
  product : option Product;
  user : option User.t;
  gender : option string
}.
End Ctx.

Module Flat.
Record t : Type := {
  system : SizeSystem;
  category : Category;
  gender : option string;
  size_eu : option Z;
  shirt_size_eu : option Z;
  alpha_size : option string;
  waist_inch : option Z;
  length : string;
  used_usual_as_anchor : bool
}.
End Flat.

Definition recommendForProduct (ctx : option Ctx.t) : option Flat.t :=
  match ctx with
  | None => None
  | Some c =>
      match Ctx.user c with
      | None => None
      | Some user =>
          let product := Ctx.product c in
          let schema :=
            match product with
            | Some _ => detectSizeSchemaFromProduct product
            | None => None
            end in
          let schema :=
            match schema with
            | Some s => Some s
            | None =>
                Some (schemaForGeneral
                        (inferCategoryFromProduct product)
                        (if truthyStr (Ctx.gender c) then Ctx.gender c
                         else inferGenderFromProduct product))
            end in
          match schema with
          | None => None
          | Some s =>
              let normalizedUser :=
                {| User.height_cm := orNull (User.height_cm user);
                   User.weight_kg := orNull (User.weight_kg user);
                   User.usual_size_eu := orNull (User.usual_size_eu user);
                   User.shirt_size_eu := orNull (User.shirt_size_eu user);
                   User.alpha_size := orNullStr (User.alpha_size user);
                   User.waist_inch := orNull (User.waist_inch user) |} in
              let rec := recommend (Some s) (Some normalizedUser) in
              Some
                {| Flat.system := Rec.system rec;
                   Flat.category := Rec.category rec;
                   Flat.gender := Rec.gender rec;
                   Flat.size_eu := orNull (Rec.size_eu rec);
                   Flat.shirt_size_eu := orNull (Rec.shirt_size_eu rec);
                   Flat.alpha_size := orNullStr (Rec.alpha_size rec);
                   Flat.waist_inch := orNull (Rec.waist_inch rec);
                   Flat.length :=
                     if String.eqb (Rec.length rec) "" then "standard"
                     else Rec.length rec;
                   Flat.used_usual_as_anchor := Rec.used_usual_as_anchor rec |}
          end
      end
  end.

End Sizing.

(** * Definitions used by the statements *)

Module Analysis.
Import JsString Regex.

Definition allChars : list ascii := map ascii_of_nat (List.seq 0 256).

(** Every character the atom accepts satisfies [P]. *)
Definition atomWithin (P : ascii -> bool) (ic : bool) (a : atom) : bool :=
  forallb (fun c => implb (atomAccepts ic a c) (P c)) allChars.

(** A sufficient syntactic test: no match of [r] is possible without
    consuming a character that satisfies [P]. *)
Fixpoint demands (P : ascii -> bool) (ic : bool) (r : regex) : bool :=
  match r with
  | Atom a => atomWithin P ic a
  | WordBoundary => false
  | Cat r1 r2 => demands P ic r1 || demands P ic r2
  | Alt r1 r2 => demands P ic r1 && demands P ic r2
  | Group _ r1 => demands P ic r1
  | Repeat a lo _ => negb (Nat.eqb lo 0) && atomWithin P ic a
  end.

(** The text has no character that satisfies [P]. *)
Fixpoint lacks (P : ascii -> bool) (s : string) : bool :=
  match s with
  | EmptyString => true
  | String c tl => negb (P c) && lacks P tl
  end.

(** The text is made of characters that satisfy [P]. *)
Fixpoint allOf (P : ascii -> bool) (s : string) : bool :=
  match s with
  | EmptyString => true
  | String c tl => P c && allOf P tl
  end.

(** Continuations that fail on every position whose remaining text lacks
    [P]. *)
Definition failsOnLacking (P : ascii -> bool) (k : continuation) : Prop :=
  forall s', lacks P (ahead s') = true -> k s' = None.

End Analysis.

(** Statement-side vocabulary. *)

Module Stated.
Import JsString Regex Sizing Analysis.

(** The size field of a recommendation that belongs to a system. *)
Definition sizeFieldGiven (r : Rec.t) (sys : SizeSystem) : bool :=
  match sys with
  | EU_NUMERIC => given (Rec.size_eu r)
  | SHIRT_COLLAR_EU => given (Rec.shirt_size_eu r)
  | ALPHA => given (Rec.alpha_size r)
  | WAIST_INCH => given (Rec.waist_inch r)
  end.

(** The user's usual size for a system is present (and not zero, not
    the empty string). *)
Definition hasAnchor (u : User.t) (sys : SizeSystem) : bool :=
  match sys with
  | EU_NUMERIC => truthy (User.usual_size_eu u)
  | SHIRT_COLLAR_EU => truthy (User.shirt_size_eu u)
  | ALPHA => truthyStr (User.alpha_size u)
  | WAIST_INCH => truthy (User.waist_inch u)
  end.

(** Height and weight are both present (and not zero). *)
Definition hasProportions (u : User.t) : bool :=
  truthy (User.height_cm u) && truthy (User.weight_kg u).

(** [r] is the candidate of [l] nearest to the target under [dist], the
    earliest one among those at the smallest distance. *)
Definition Nearest {A : Type} (dist : A -> Z) (l : list A) (r : A) : Prop :=
  exists i : nat,
    l !! i = Some r
    /\ (forall y, In y l -> dist r <= dist y)
    /\ (forall (j : nat) y, (j < i)%nat -> l !! j = Some y -> dist r < dist y).

(** A list in ascending order. *)
Definition Ascending (l : list Z) : Prop :=
  forall (i j : nat) x y,
    (i <= j)%nat -> l !! i = Some x -> l !! j = Some y -> x <= y.

(** [r] is the number of [l] nearest to [v], the earliest of the
    nearest ones, which in an ascending list is the lowest of them. *)
Definition NearestNumber (v : Z) (l : list Z) (r : Z) : Prop :=
  Nearest (fun x => Z.abs (x - v)) l r
  /\ (Ascending l ->
      forall y, In y l -> Z.abs (y - v) = Z.abs (r - v) -> r <= y).

(** What a size label shows to the detection. *)
Definition waistToken (v : string) : bool := test true waistTokenPattern v.
Definition alphaToken (v : string) : bool := given (normalizeAlphaSize (lower v)).
Definition collarNumber (v : string) : bool :=
  inBand 37 46 (parseIntSafe (lower v)).
Definition euNumber (v : string) : bool :=
  inBand 34 60 (parseIntSafe (lower v)).

(** The priority in the words of the specification: waist tokens, then
    collar-range numbers, then alpha tokens, then EU numbers. *)
Definition statedPriority (values : list string) : SizeSystem :=
  if existsb waistToken values then WAIST_INCH
  else if existsb collarNumber values then SHIRT_COLLAR_EU
  else if existsb alphaToken values then ALPHA
  else EU_NUMERIC.

(** The priority the code applies, for a schema of category [c] and
    gender [g]: waist tokens, then alpha tokens, then collar-range numbers
    (for a shirt only), then the collar default of a men's shirt without a
    value of the tailoring band, then EU numbers. *)
Definition appliedPriority (c : Category) (g : option string)
    (values : list string) : SizeSystem :=
  if existsb waistToken values then WAIST_INCH
  else if existsb alphaToken values then ALPHA
  else if existsb collarNumber values && Category_eqb c SHIRT
  then SHIRT_COLLAR_EU
  else if genderIs g "male" && Category_eqb c SHIRT
          && negb (existsb isTailoring values)
  then SHIRT_COLLAR_EU
  else EU_NUMERIC.

Definition isW (c : ascii) : bool := Ascii.eqb c "W" || Ascii.eqb c "w".

(** A label in the style of W28 ... W40: the letter W and two digits, in
    either order. *)
Definition wStyleToken (v : string) : bool :=
  match v with
  | String a (String b (String c EmptyString)) =>
      (isW a && isDigit b && isDigit c) || (isDigit a && isDigit b && isW c)
  | _ => false
  end.

(** A label made of decimal digits only. *)
Definition numericLabel (v : string) : bool :=
  negb (String.eqb v "") && allOf isDigit v.

(** A numeric label whose value lies between [lo] and [hi]. *)
Definition numericWithin (lo hi : Z) (v : string) : bool :=
  numericLabel v && inBand lo hi (parseIntSafe v).

(** The product is classified as a men's shirt. *)
Definition mensShirt (p : Product) : Prop :=
  inferGenderFromProduct (Some p) = Some "male"
  /\ inferCategoryFromProduct (Some p) = SHIRT.

(** *** The loop over the bare numbers, in the words of the specification *)









(** The letters an alpha token can start with, in either case. *)
Definition sizeLetter (c : ascii) : bool :=
  existsb (Ascii.eqb (upperChar c)) ["X"; "S"; "M"; "L"]%char.

(** What the alpha pattern finds in a text. *)
Definition alphaFound (t : string) : option string :=
  match captured (exec true alphaPattern t) 1 with
  | Some tok => normalizeAlphaSize tok
  | None => None
  end.

(** The character just before the end of [s], or [prev] for an empty [s]. *)
Fixpoint lastChar (prev : option ascii) (s : string) : option ascii :=
  match s with
  | EmptyString => prev
  | String c tl => lastChar (Some c) tl
  end.

Definition firstChar (s : string) : option ascii :=
  match s with
  | String c _ => Some c
  | EmptyString => None
  end.

Definition nonWord (o : option ascii) : bool :=
  match o with
  | Some c => negb (isWordChar c)
  | None => true
  end.

(** A token between [pre] and [post] stands alone: no word character
    touches it on either side. *)
Definition standsAlone (pre post : string) : bool :=
  nonWord (lastChar None pre) && nonWord (firstChar post).

(** The tokens of the alpha pattern, in its order. *)
Definition alphaTokens : list string :=
  ["xxxs"; "xxs"; "xs"; "s"; "m"; "l"; "xl"; "xxl"; "xxxl"].

(** What follows [tok] at the start of [s], when [s] starts with it. *)
Fixpoint afterPrefix (tok s : string) : option string :=
  match tok, s with
  | EmptyString, _ => Some s
  | String a tok', String c s' =>
      if Ascii.eqb a c then afterPrefix tok' s' else None
  | String _ _, EmptyString => None
  end.

(** [tok] stands alone at the start of [s], after the character [prev]:
    no word character touches it on either side. *)
Definition standsAt (prev : option ascii) (s tok : string) : bool :=
  nonWord prev
  && match afterPrefix tok s with
     | Some post => nonWord (firstChar post)
     | None => false
     end.

(** The first standalone token of a text, reading from the left. *)
Fixpoint firstStandalone (tokens : list string) (prev : option ascii)
    (s : string) : option string :=
  match find (standsAt prev s) tokens with
  | Some tok => Some tok
  | None =>
      match s with
      | String c tl => firstStandalone tokens (Some c) tl
      | EmptyString => None
      end
  end.

(** The same without the side before: [tok] ends at a word boundary. *)
Definition standsAfter (s tok : string) : bool :=
  match afterPrefix tok s with
  | Some post => nonWord (firstChar post)
  | None => false
  end.

(** What the engine does with a word of the alternation: the text after
    it and the last character read, when the text starts with the word
    in either case. *)
Fixpoint fits (tok : string) (p : option ascii) (s : string)
    : option (option ascii * string) :=
  match tok with
  | EmptyString => Some (p, s)
  | String a tok' =>
      match s with
      | String c s' =>
          if atomAccepts true (Lit a) c then fits tok' (Some c) s' else None
      | EmptyString => None
      end
  end.

Definition afterFit (tok : string) (p : option ascii) (s : string)
    (g : list (nat * string)) (k : continuation) : option state :=
  match fits tok p s with
  | Some (p', s') => k (State p' s' g)
  | None => None
  end.

(** The alternation of words: the first that fits and lets the rest of
    the pattern succeed. *)
Fixpoint firstFit (toks : list string) (p : option ascii) (s : string)
    (g : list (nat * string)) (k : continuation) : option state :=
  match toks with
  | [] => None
  | tok :: rest =>
      match afterFit tok p s g k with
      | Some r => Some r
      | None => firstFit rest p s g k
      end
  end.

(** A word made of the letters x, s, m, l. *)
Definition tokenLike (tok : string) : bool :=
  negb (String.eqb tok "")
  && allOf (fun c => existsb (Ascii.eqb c) ["x"; "s"; "m"; "l"]%char) tok.

(** What is left of the alpha pattern after the alternation: group 1 is
    closed and a word boundary is required. *)
Definition boundaryAfter (st0 : state) : continuation :=
  fun s' =>
    let s'' := setGroup 1 (consumed st0 s') s' in
    if xorb (wordBefore s'') (wordAhead s'') then Some s'' else None.

(** [n] is one of the bare numbers of the text: the reading of a run of
    two or three digits that stands alone. *)
Definition bareNumber (t : string) (n : Z) : Prop :=
  exists tok, In tok (matchAll false barePattern t) /\ parseIntSafe tok = Some n.

(** [n] is what group [i] of the pattern captured in the text. *)
Definition phrase (ic : bool) (r : regex) (i : nat) (t : string) (n : Z)
    : Prop :=
  exists d, captured (exec ic r t) i = Some d /\ parseIntSafe d = Some n.

(** A slot after the loop over the bare numbers: what the explicit
    patterns gave it, or a bare number of the text within the slot's
    band, which needs the schema to direct bare numbers to the slot. *)
Definition resolved (explicit final : option Z) (directed : bool)
    (lo hi : Z) (t : string) : Prop :=
  final = explicit
  \/ (directed = true
      /\ exists n, final = Some n /\ lo <= n <= hi /\ bareNumber t n).

Definition resolvedFields (schema : option Schema) (t : string) (e o : Out.t)
    : Prop :=
  resolved (Out.height_cm e) (Out.height_cm o) true 140 210 t
  /\ resolved (Out.weight_kg e) (Out.weight_kg o) true 40 180 t
  /\ resolved (Out.usual_size_eu e) (Out.usual_size_eu o)
       (systemIs schema EU_NUMERIC) 34 60 t
  /\ resolved (Out.shirt_size_eu e) (Out.shirt_size_eu o)
       (systemIs schema SHIRT_COLLAR_EU) 37 46 t
  /\ resolved (Out.waist_inch e) (Out.waist_inch o)
       (systemIs schema WAIST_INCH) 24 48 t
  /\ (forall n, In n (Out.ambiguous_numbers o) -> bareNumber t n).

End Stated.

(** Concrete schemas, products and records the examples run on. *)

Module Samples.
Import JsString Regex Sizing.

Definition euSchema : Schema := schemaForGeneral UNKNOWN None.
Definition collarSchema : Schema := schemaForMenswear SHIRT.

Definition stock : Available :=
  {| raw := ["44"; "46"; "48"; "52"]; numeric := [44; 46; 48; 52];
     alpha := []; waist := [] |}.

Definition stockedSchema : Schema := setAvailable stock euSchema.

(** A recommendation whose EU size came out as 50. *)
Definition size50 : Rec.t :=
  {| Rec.system := EU_NUMERIC; Rec.gender := None; Rec.category := UNKNOWN;
     Rec.length := "standard"; Rec.size_eu := Some 50;
     Rec.shirt_size_eu := None; Rec.alpha_size := None;
     Rec.waist_inch := None; Rec.used_usual_as_anchor := false |}.

(** Letters on offer, and a recommendation whose letter came out as [a]. *)
Definition lettered : Available :=
  {| raw := ["S"; "M"]; numeric := []; alpha := ["S"; "M"]; waist := [] |}.

Definition letteredSchema : Schema :=
  setAvailable lettered (setSystem ALPHA euSchema).

Definition letter (a : string) : Rec.t :=
  {| Rec.system := ALPHA; Rec.gender := None; Rec.category := UNKNOWN;
     Rec.length := "standard"; Rec.size_eu := None;
     Rec.shirt_size_eu := None; Rec.alpha_size := Some a;
     Rec.waist_inch := None; Rec.used_usual_as_anchor := true |}.

(** A shopper who gives a letter and nothing else. *)
Definition wearing (a : string) : User.t :=
  {| User.height_cm := None; User.weight_kg := None;
     User.usual_size_eu := None; User.shirt_size_eu := None;
     User.alpha_size := Some a; User.waist_inch := None |}.

Definition sized (label : string) : Variant :=
  {| option1 := Some label; option2 := None; option3 := None |}.

Definition shirtWith (labels : list string) : Product :=
  {| title := Some "Mens Oxford Shirt"; handle := Some "oxford-shirt";
     type := None; vendor := None; tags := None;
     options := Some ["Size"]; variants := Some (map sized labels) |}.

Definition trouserWith (labels : list string) : Product :=
  {| title := Some "Wool Trouser"; handle := Some "wool-trouser";
     type := None; vendor := None; tags := None;
     options := Some ["Size"]; variants := Some (map sized labels) |}.

End Samples.

(** * The rest of the sizing module *)

(** ** Required inputs, validation and prompt key *)

Module Guardrails.
Import JsString Regex Sizing.

Definition getRequiredInputs (schema : option Schema) : list string :=
  match schema with
  | Some s => required s
  | None => ["height_cm"; "weight_kg"; "usual_size_eu"]
  end.

(** [if (cond) list.push(x)] *)
Definition pushWhen (cond : bool) (x : string) (l : list string) : list string :=
  if cond then l ++ [x] else l.

(** One turn of the loop of [getMissingInputs]: six tests in a row. *)
Definition checkRequired (user : User.t) (missing : list string) (k : string)
    : list string :=
  let missing :=
    pushWhen (String.eqb k "height_cm" && negb (truthy (User.height_cm user)))
      "height_cm" missing in
  let missing :=
    pushWhen (String.eqb k "weight_kg" && negb (truthy (User.weight_kg user)))
      "weight_kg" missing in
  let missing :=
    pushWhen (String.eqb k "usual_size_eu"
              && negb (truthy (User.usual_size_eu user)))
      "usual_size_eu" missing in
  let missing :=
    pushWhen (String.eqb k "shirt_size_eu"
              && negb (truthy (User.shirt_size_eu user)))
      "shirt_size_eu" missing in
  let missing :=
    pushWhen (String.eqb k "alpha_size"
              && negb (truthyStr (User.alpha_size user)))
      "alpha_size" missing in
  pushWhen (String.eqb k "waist_inch" && negb (truthy (User.waist_inch user)))
    "waist_inch" missing.

Definition getMissingInputs (schema : option Schema) (user : option User.t)
    : list string :=
  let required := getRequiredInputs schema in
  let user := default User.empty user in
  fold_left (checkRequired user) required [].

Definition outside (v : option Z) (lo hi : Z) : bool :=
  match v with
  | Some n => (n <? lo) || (n >? hi)
  | None => false
  end.

(** [weight_kg / (h * h)] with [h = height_cm / 100], each operation
    rounded. *)
Definition bmiOf (height_cm weight_kg : Z) : Q :=
  let h := Double.div (inject_Z height_cm) (inject_Z 100) in
  Double.div (inject_Z weight_kg) (Double.mul h h).

Definition bmiMismatch (height_cm weight_kg : option Z) : bool :=
  match height_cm, weight_kg with
  | Some h, Some w =>
      truthy height_cm && truthy weight_kg
      && (below (bmiOf h w) 15 || negb (Qle_bool (bmiOf h w) (inject_Z 60)))
  | _, _ => false
  end.

Definition validateAtomic (schema : option Schema) (user : option User.t)
    : list string :=
  let user := default User.empty user in
  let issues := [] in
  let issues :=
    pushWhen (truthy (User.height_cm user) && outside (User.height_cm user) 145 205)
      "height_cm" issues in
  let issues :=
    pushWhen (truthy (User.weight_kg user) && outside (User.weight_kg user) 40 180)
      "weight_kg" issues in
  let issues :=
    pushWhen (bmiMismatch (User.height_cm user) (User.weight_kg user))
      "height_weight_mismatch" issues in
  let issues :=
    pushWhen
      (systemIs schema EU_NUMERIC && truthy (User.usual_size_eu user)
       && match schema with
          | Some s =>
              if genderIs (gender s) "female"
              then outside (User.usual_size_eu user) 32 48
              else if genderIs (gender s) "male"
              then outside (User.usual_size_eu user) 42 60
              else outside (User.usual_size_eu user) 32 60
          | None => false
          end)
      "usual_size_eu" issues in
  let issues :=
    pushWhen
      (systemIs schema SHIRT_COLLAR_EU && truthy (User.shirt_size_eu user)
       && outside (User.shirt_size_eu user) 35 47)
      "shirt_size_eu" issues in
  let issues :=
    pushWhen
      (systemIs schema WAIST_INCH && truthy (User.waist_inch user)
       && outside (User.waist_inch user) 24 48)
      "waist_inch" issues in
  pushWhen
    (systemIs schema ALPHA && truthyStr (User.alpha_size user)
     && negb (given (normalizeAlphaSize (default "" (User.alpha_size user)))))
    "alpha_size" issues.

Definition usualSizePromptKey (schema : option Schema) : string :=
  match schema with
  | None => "usual_size_eu"
  | Some s =>
      match system s with
      | SHIRT_COLLAR_EU => "shirt_size_eu"
      | ALPHA => "alpha_size"
      | WAIST_INCH => "waist_inch"
      | EU_NUMERIC => "usual_size_eu"
      end
  end.

End Guardrails.

(** Vocabulary for the properties of the rest of the module. *)

Module Described.
Import JsString Regex Sizing Guardrails Analysis Stated.

(** The input named [k] is one of the six atoms and the user has no
    value for it (none, zero or the empty string). *)
Definition lacksInput (user : User.t) (k : string) : bool :=
  (String.eqb k "height_cm" && negb (truthy (User.height_cm user)))
  || (String.eqb k "weight_kg" && negb (truthy (User.weight_kg user)))
  || (String.eqb k "usual_size_eu" && negb (truthy (User.usual_size_eu user)))
  || (String.eqb k "shirt_size_eu" && negb (truthy (User.shirt_size_eu user)))
  || (String.eqb k "alpha_size" && negb (truthyStr (User.alpha_size user)))
  || (String.eqb k "waist_inch" && negb (truthy (User.waist_inch user))).

(** A schema that one of the two builders returns. *)
Definition Built (s : Schema) : Prop :=
  (exists c g, s = schemaForGeneral c g)
  \/ (exists p, detectSizeSchemaFromProduct (Some p) = Some s).

(** A men's shirt schema that the product turned to EU numeric sizing. *)
Definition tailoredShirt (s : Schema) : bool :=
  genderIs (gender s) "male" && Category_eqb (category s) SHIRT
  && SizeSystem_eqb (system s) EU_NUMERIC.

(** The characters a label with a rank is made of. *)
Definition rankChar (c : ascii) : bool :=
  existsb (Ascii.eqb c) ["x"; "s"; "m"; "l"; "-"]%char.

(** The number a run of decimal digits stands for, read from the left
    onto what was read before. *)
Fixpoint hornerZ (d : Decimal.uint) (acc : Z) : Z :=
  match d with
  | Decimal.Nil => acc
  | Decimal.D0 l => hornerZ l (10 * acc + 0)
  | Decimal.D1 l => hornerZ l (10 * acc + 1)
  | Decimal.D2 l => hornerZ l (10 * acc + 2)
  | Decimal.D3 l => hornerZ l (10 * acc + 3)
  | Decimal.D4 l => hornerZ l (10 * acc + 4)
  | Decimal.D5 l => hornerZ l (10 * acc + 5)
  | Decimal.D6 l => hornerZ l (10 * acc + 6)
  | Decimal.D7 l => hornerZ l (10 * acc + 7)
  | Decimal.D8 l => hornerZ l (10 * acc + 8)
  | Decimal.D9 l => hornerZ l (10 * acc + 9)
  end.

(** The integer a plain decimal text stands for, whatever its size. *)
Definition plainValue (s : string) : option Z :=
  match s with
  | String "-" tl => Z.opp <$> readDigits None tl
  | _ => readDigits None s
  end.

(** A slot after the loop over the bare numbers: what the explicit
    patterns gave it, or, when they gave nothing, a number of the slot's
    band, which needs the schema to direct bare numbers to the slot. *)
Definition keptOrFilled (explicit final : option Z) (directed : bool)
    (lo hi : Z) : Prop :=
  final = explicit
  \/ (truthy explicit = false /\ directed = true
      /\ exists n, final = Some n /\ lo <= n <= hi).

Definition filledWithinBands (schema : option Schema) (e o : Out.t) : Prop :=
  keptOrFilled (Out.height_cm e) (Out.height_cm o) true 140 210
  /\ keptOrFilled (Out.weight_kg e) (Out.weight_kg o) true 40 180
  /\ keptOrFilled (Out.usual_size_eu e) (Out.usual_size_eu o)
       (systemIs schema EU_NUMERIC) 34 60
  /\ keptOrFilled (Out.shirt_size_eu e) (Out.shirt_size_eu o)
       (systemIs schema SHIRT_COLLAR_EU) 37 46
  /\ keptOrFilled (Out.waist_inch e) (Out.waist_inch o)
       (systemIs schema WAIST_INCH) 24 48.
(** The user record [recommendForProduct] hands to the engine, and the
    record it returns for a recommendation of the engine whose length is
    not empty. *)
Definition normalizedUser (user : User.t) : User.t :=
  {| User.height_cm := orNull (User.height_cm user);
     User.weight_kg := orNull (User.weight_kg user);
     User.usual_size_eu := orNull (User.usual_size_eu user);
     User.shirt_size_eu := orNull (User.shirt_size_eu user);
     User.alpha_size := orNullStr (User.alpha_size user);
     User.waist_inch := orNull (User.waist_inch user) |}.

Definition flattened (rec : Rec.t) : Flat.t :=
  {| Flat.system := Rec.system rec;
     Flat.category := Rec.category rec;
     Flat.gender := Rec.gender rec;
     Flat.size_eu := orNull (Rec.size_eu rec);
     Flat.shirt_size_eu := orNull (Rec.shirt_size_eu rec);
     Flat.alpha_size := orNullStr (Rec.alpha_size rec);
     Flat.waist_inch := orNull (Rec.waist_inch rec);
     Flat.length := Rec.length rec;
     Flat.used_usual_as_anchor := Rec.used_usual_as_anchor rec |}.
(** The value of a text read as a number in base 31, the first character
    weighing most. *)
Definition base31 (str : string) : Z :=
  fold_left (fun acc c => 31 * acc + Z.of_N (code c)) (list_ascii_of_string str) 0.
(** The integers a number holds exactly and [String] prints in plain
    decimal digits: those up to 2^53 in magnitude. *)
Definition exactInteger (n : Z) : Prop := Z.abs n <= 2 ^ 53.

(** Size values whose readings are such integers. *)
Definition exactLabels (values : list string) : Prop :=
  List.Forall (fun v => match parseIntSafe (lower v) with
                        | Some n => exactInteger n
                        | None => True
                        end) values.

End Described.

(** ** The core module

    The pure helpers of [assets/dl-copilot-core.js] and the step of its
    sizing intake.  The effects of the intake on the page are kept as a
    list, in the order of the calls. *)

Module Core.
Import JsString Regex Sizing.

(** A number as [parseInt] gives it. *)
Inductive number : Type :=
| Finite (n : Z)
| Infinite (negative : bool).

(** [String(v)] *)
Definition stringOf (v : JsValue) : string :=
  match v with
  | JsNull => "null"
  | JsUndefined => "undefined"
  | _ => toStr v
  end.

(** The sign [parseInt] reads in front of the digits. *)
Definition negativeText (s : string) : bool :=
  match trimStart s with
  | String "-" _ => true
  | _ => false
  end.

(** [toInt(v, fallback)]; [None] is [null].  A finite value is kept
    exact; the double nearest to it compares in the same way with the
    small bounds its callers test it against. *)
Definition toInt (v : JsValue) (fallback : option number) : option number :=
  match parseInt (stringOf v) with
  | PNaN => fallback
  | PFinite n => Some (Finite n)
  | PInfinite => Some (Infinite (negativeText (stringOf v)))
  end.

(** [!h], [h < bound] and [h > bound] for a number or [null]. *)
Definition falsy (h : option number) : bool :=
  match h with
  | None => true
  | Some (Finite n) => n =? 0
  | Some (Infinite _) => false
  end.

Definition numberBelow (h : option number) (bound : Z) : bool :=
  match h with
  | None => 0 <? bound
  | Some (Finite n) => n <? bound
  | Some (Infinite negative) => negative
  end.

Definition numberAbove (h : option number) (bound : Z) : bool :=
  match h with
  | None => 0 >? bound
  | Some (Finite n) => n >? bound
  | Some (Infinite negative) => negb negative
  end.

Definition lengthLabelFromHeight (heightCm : JsValue) : string :=
  let h := toInt heightCm None in
  if falsy h then ""
  else if numberBelow h 166 then "Short"
  else if numberAbove h 185 then "Long"
  else "Standard".

(** [s.replace(/c/g, by)] for a single character [c]. *)
Fixpoint replaceEach (c : ascii) (by_ : string) (s : string) : string :=
  match s with
  | EmptyString => EmptyString
  | String d tl =>
      if Ascii.eqb d c then by_ ++ replaceEach c by_ tl
      else String d (replaceEach c by_ tl)
  end.

Definition doubleQuote : ascii := ascii_of_N 34.

Definition escapeText (text : JsValue) : string :=
  replaceEach "'" "&#039;"
    (replaceEach doubleQuote "&quot;"
       (replaceEach ">" "&gt;"
          (replaceEach "<" "&lt;"
             (replaceEach "&" "&amp;" (toStr text))))).

(** *** Collections offered for a gender *)

(** A collection of the storefront, as an object. *)
Module Collection.
Record t : Type := {
  handle : option string;
  title : option string
}.
End Collection.

(** A pattern between [^] and [$]: one attempt at the start of the text,
    which must end where the text ends. *)
Definition atEnd : continuation :=
  fun s => match ahead s with EmptyString => Some s | String _ _ => None end.

Definition testWhole (ignoreCase : bool) (r : regex) (text : string) : bool :=
  given (run ignoreCase r (State None text []) atEnd).

(** [/all|frontpage|featured|new|sale|journal|stories|lookbook|gift|about|policy|shipping/i] *)
Definition nonProductPattern : regex :=
  oneOf (map word
    ["all"; "frontpage"; "featured"; "new"; "sale"; "journal"; "stories";
     "lookbook"; "gift"; "about"; "policy"; "shipping"]).

(** [/^(men|mens|man|women|womens|woman)$/i], without its anchors. *)
Definition landingPattern : regex :=
  Group 1 (oneOf (map word ["men"; "mens"; "man"; "women"; "womens"; "woman"])).

(** [/(men|mens|man)\b/i] and [/(men|mens)\b/i] *)
Definition menHandlePattern : regex :=
  Cat (Group 1 (oneOf (map word ["men"; "mens"; "man"]))) WordBoundary.
Definition menTitlePattern : regex :=
  Cat (Group 1 (oneOf (map word ["men"; "mens"]))) WordBoundary.

(** [/(women|womens|woman)\b/i] and [/(women|womens)\b/i] *)
Definition womenHandlePattern : regex :=
  Cat (Group 1 (oneOf (map word ["women"; "womens"; "woman"]))) WordBoundary.
Definition womenTitlePattern : regex :=
  Cat (Group 1 (oneOf (map word ["women"; "womens"]))) WordBoundary.

Definition normalizeGenderForCollectionFilter (gender : option string) : string :=
  if genderIs gender "women" then "women" else "men".

(** One turn of the loop of [filterCollectionsForGender]: whether the
    collection is pushed.  [gender] is already normalised. *)
Definition keptFor (gender : string) (c : Collection.t) : bool :=
  let handle := default "" (orNullStr (Collection.handle c)) in
  let title := default "" (orNullStr (Collection.title c)) in
  if String.eqb handle "" || String.eqb title "" then false
  else if test true nonProductPattern handle then false
  else if testWhole true landingPattern handle then false
  else if testWhole true landingPattern (trim title) then false
  else if String.eqb gender "men" then
    test true menHandlePattern handle || test true menTitlePattern title
  else
    test true womenHandlePattern handle || test true womenTitlePattern title.

(** The key of the final sort: the title in lower case. *)
Definition sortKey (c : Collection.t) : string :=
  toLowerCase (default "" (orNullStr (Collection.title c))).

(** Stable insertion sort by title: what [sort] does with the comparator
    of the source. *)
Fixpoint insertByTitle (x : Collection.t) (l : list Collection.t)
    : list Collection.t :=
  match l with
  | [] => [x]
  | y :: rest =>
      if String.ltb (sortKey x) (sortKey y) then x :: l
      else y :: insertByTitle x rest
  end.

Definition sortByTitle (l : list Collection.t) : list Collection.t :=
  fold_left (fun acc x => insertByTitle x acc) l [].

Definition filterCollectionsForGender (collections : list Collection.t)
    (gender : option string) : list Collection.t :=
  let gender := normalizeGenderForCollectionFilter gender in
  let out := filter (fun c => keptFor gender c = true) collections in
  let out := match out with [] => collections | _ => out end in
  sortByTitle out.

(** *** The sizing intake *)

Module Flow.
(** [state.sizing.height_cm], [state.sizing.weight_kg], [state.flow.step]
    and [globalSizingFlow.usual_size_eu]. *)
Record t : Type := {
  height_cm : option Z;
  weight_kg : option Z;
  step : string;
  usual_size_eu : option Z
}.

Definition setHeight (v : option Z) (s : t) : t :=
  {| height_cm := v; weight_kg := weight_kg s; step := step s;
     usual_size_eu := usual_size_eu s |}.

Definition setWeight (v : option Z) (s : t) : t :=
  {| height_cm := height_cm s; weight_kg := v; step := step s;
     usual_size_eu := usual_size_eu s |}.

Definition setUsual (v : option Z) (s : t) : t :=
  {| height_cm := height_cm s; weight_kg := weight_kg s; step := step s;
     usual_size_eu := v |}.
End Flow.

(** The messages of the intake, by what they say. *)
Inductive Message : Type :=
| AskHeightAgain
| AskWeight
| AskWeightAgain
| SavedProfile (height_cm weight_kg : option Z)
| AskUsualSizeAgain
| Calculating.

(** The functions the intake hands over to. *)
Inductive Callee : Type :=
| GlobalSizingAskTarget
| GlobalSizingComputeGeneralRecommendation
| GlobalSizingStop.

Inductive Effect : Type :=
| AppendAI (m : Message)
| SetComposerPlaceholder (placeholder : string)
| PersistNow
| LockInput (m : Message)
| Call (f : Callee).

(** [v || ''] *)
Definition orEmpty (v : JsValue) : JsValue :=
  match v with
  | JsNull | JsUndefined | JsBool false => JsText ""
  | JsNumber n => if n =? 0 then JsText "" else v
  | _ => v
  end.

(** [text.replace(/[^\d]/g, '')] *)
Definition digitsOf (text : string) : string := filterChars isDigit text.

(** The number kept when the range test lets it through. *)
Definition finite (h : option number) : option Z :=
  match h with
  | Some (Finite n) => Some n
  | _ => None
  end.

(** [globalSizingHandleText(text)]: the state as it is when the function
    returns or hands over, and the effects up to there.  The function
    itself always returns [true]. *)
Definition globalSizingHandleText (text : JsValue) (st : Flow.t)
    : Flow.t * list Effect :=
  let text := trim (toStr (orEmpty text)) in
  if String.eqb text "" then (st, [])
  else if negb (truthy (Flow.height_cm st)) then
    let h := toInt (JsText (digitsOf text)) None in
    if falsy h || numberBelow h 120 || numberAbove h 220 then
      (st, [AppendAI AskHeightAgain; SetComposerPlaceholder "e.g. 178"])
    else
      (Flow.setHeight (finite h) st,
       [PersistNow; AppendAI AskWeight; SetComposerPlaceholder "e.g. 75"])
  else if negb (truthy (Flow.weight_kg st)) then
    let w := toInt (JsText (digitsOf text)) None in
    if falsy w || numberBelow w 35 || numberAbove w 200 then
      (st, [AppendAI AskWeightAgain; SetComposerPlaceholder "e.g. 75"])
    else
      let st := Flow.setWeight (finite w) st in
      (st,
       [PersistNow;
        AppendAI (SavedProfile (Flow.height_cm st) (Flow.weight_kg st));
        Call GlobalSizingAskTarget])
  else if String.eqb (Flow.step st) "global_usual_size" then
    let s := toInt (JsText (digitsOf text)) None in
    if falsy s || numberBelow s 34 || numberAbove s 70 then
      (st, [AppendAI AskUsualSizeAgain; SetComposerPlaceholder "e.g. 48"])
    else
      (Flow.setUsual (finite s) st,
       [PersistNow; LockInput Calculating; AppendAI Calculating;
        Call GlobalSizingComputeGeneralRecommendation])
  else (st, [Call GlobalSizingStop]).

(** *** Lists without repeats *)

(** The key [dedupeByKey] compares: [toStr(keyFn(it) || '')] in lower
    case and trimmed. *)
Definition dedupeKey {A : Type} (keyFn : A -> option string) (it : A)
    : string :=
  trim (toLowerCase (default "" (orNullStr (keyFn it)))).

(** The loop of [dedupeByKey]; a missing item is [None]. *)
Fixpoint dedupeLoop {A : Type} (keyFn : A -> option string)
    (seen : gset string) (items : list (option A)) : list A :=
  match items with
  | [] => []
  | None :: rest => dedupeLoop keyFn seen rest
  | Some it :: rest =>
      let key := dedupeKey keyFn it in
      if String.eqb key "" then dedupeLoop keyFn seen rest
      else if decide (key ∈ seen) then dedupeLoop keyFn seen rest
      else it :: dedupeLoop keyFn ({[ key ]} ∪ seen) rest
  end.

Definition dedupeByKey {A : Type} (items : option (list (option A)))
    (keyFn : A -> option string) : list A :=
  dedupeLoop keyFn inheritedKeys (default [] items).

(** *** The general recommendation *)

(** The category the engine takes a collection handle for.  The engine
    only compares the text with the names of its categories; a text that
    is none of them, or is missing, is handled as [unknown] is, but for
    the category recorded in the result, which the core does not read. *)
Definition categoryOfHandle (catHandle : option string) : Category :=
  match orNullStr catHandle with
  | None => UNKNOWN
  | Some h =>
      if String.eqb h "top" then TOP
      else if String.eqb h "bottom" then BOTTOM
      else if String.eqb h "outerwear" then OUTERWEAR
      else if String.eqb h "shirt" then SHIRT
      else if String.eqb h "knit" then KNIT
      else if String.eqb h "tshirt" then TSHIRT
      else if String.eqb h "trouser" then TROUSER
      else if String.eqb h "coat" then COAT
      else if String.eqb h "jacket" then JACKET
      else if String.eqb h "dress" then DRESS
      else if String.eqb h "skirt" then SKIRT
      else if String.eqb h "blouse" then BLOUSE
      else UNKNOWN
  end.

(** A stored height as the value it is. *)
Definition heightValue (h : option Z) : JsValue :=
  match h with
  | Some n => JsNumber n
  | None => JsNull
  end.

(** The size and the length that
    [globalSizingComputeGeneralRecommendation] stores and shows, from the
    state, the gender of the flow and of the saved profile, and the
    handle of the chosen category; [None] when the sizing module is not
    loaded and the flow stops. *)
Definition globalSizingComputeGeneralRecommendation (sizingIsAvailable : bool)
    (st : Flow.t) (flowGender savedGender catHandle : option string)
    : option (option Z * string) :=
  if negb sizingIsAvailable then None
  else
    let user :=
      {| User.height_cm := Flow.height_cm st;
         User.weight_kg := Flow.weight_kg st;
         User.usual_size_eu := Flow.usual_size_eu st;
         User.shirt_size_eu := None;
         User.alpha_size := None;
         User.waist_inch := None |} in
    let catHandle := orNullStr catHandle in
    let gender := if truthyStr flowGender then flowGender else savedGender in
    let schema := schemaForGeneral (categoryOfHandle catHandle) gender in
    let rec := recommend (Some schema) (Some user) in
    let sizeEu := Rec.size_eu rec in
    let length := Rec.length rec in
    let sizeEu :=
      match sizeEu with
      | Some _ => sizeEu
      | None => Flow.usual_size_eu st
      end in
    let length :=
      if String.eqb length ""
      then lengthLabelFromHeight (heightValue (Flow.height_cm st))
      else length in
    Some (sizeEu, length).

End Core.

(** ** The product resolver

    The inference helpers of [assets/dl-copilot-products.js]. *)

Module Catalog.
Import JsString Sizing.

(** A product as the storefront serves it: title and handle are texts,
    the tags are an array of texts. *)
Module Raw.
Record t : Type := {
  title : string;
  handle : string;
  type : option string;
  tags : list string
}.
End Raw.

Definition inferGender (product : Raw.t) : option string :=
  let text :=
    toLowerCase
      (Raw.title product ++ " " ++ Raw.handle product ++ " "
       ++ join " " (Raw.tags product)) in
  if includes "women" text || includes "woman" text then Some "female"
  else if includes "men" text || includes "man" text then Some "male"
  else None.

Definition inferCategory (product : Raw.t) : string :=
  let t := toLowerCase (default "" (orNullStr (Raw.type product))) in
  let h := toLowerCase (Raw.handle product) in
  let tags := toLowerCase (join " " (Raw.tags product)) in
  let blob := t ++ " " ++ h ++ " " ++ tags in
  if includes "shirt" blob then "shirt"
  else if includes "trouser" blob || includes "pant" blob then "bottom"
  else if includes "jacket" blob || includes "coat" blob
          || includes "outerwear" blob then "outerwear"
  else "other".

End Catalog.

(** ** The journal resolver

    The identifier hash of [assets/dl-copilot-journal.js]. *)

Module Journal.
Import JsString Sizing Core.

(** The 32-bit signed integer a number wraps to: what [x | 0] and the
    result of [<<] are. *)
Definition toInt32 (x : Z) : Z :=
  let m := x mod 2 ^ 32 in
  if m <? 2 ^ 31 then m else m - 2 ^ 32.

(** [h << k] *)
Definition shiftLeft (h k : Z) : Z := toInt32 (Z.shiftl (toInt32 h) k).

(** [h | k] *)
Definition bitOr (h k : Z) : Z := toInt32 (Z.lor (toInt32 h) (toInt32 k)).

(** One turn of the loop: [h = ((h << 5) - h) + str.charCodeAt(i); h |= 0]. *)
Definition hashStep (h : Z) (c : ascii) : Z :=
  let h := (shiftLeft h 5 - h) + Z.of_N (code c) in
  bitOr h 0.

Definition hashLoop (str : string) : Z :=
  fold_left hashStep (list_ascii_of_string str) 0.

(** [hashString(str)] *)
Definition hashString (str : JsValue) : string :=
  let str := stringOf (orEmpty str) in
  "dljo_" ++ ofZ (Z.abs (hashLoop str)).

End Journal.

(** ** The styling flow

    The context tags of [assets/dl-copilot-styling.js]. *)

Module Styling.
Import JsString Sizing.

(** [typeof v === 'string' ? v : ''] *)
Definition safeString (v : JsValue) : string :=
  match v with
  | JsText s => s
  | _ => ""
  end.

(** [s.replace(/\s+/g, '-')]: every run of blanks becomes one hyphen.
    [inRun] tells that the character before was a blank. *)
Fixpoint hyphenate (inRun : bool) (s : string) : string :=
  match s with
  | EmptyString => EmptyString
  | String c tl =>
      if isSpace c then
        if inRun then hyphenate true tl else String "-" (hyphenate true tl)
      else String c (hyphenate false tl)
  end.

(** The object literal [map] of [normalizeContextTag], in the order of
    the source. *)
Definition contextMap : list (string * string) :=
  [ ("everyday", "everyday");
    ("work", "work");
    ("social evening", "social-evening");
    ("social", "social-evening");
    ("evening", "social-evening");
    ("sunday stroll", "sunday-stroll");
    ("stroll", "sunday-stroll");
    ("smart casual", "smart-casual");
    ("smart", "smart-casual");
    ("casual", "smart-casual") ].

Fixpoint ownValue (m : list (string * string)) (key : string) : option string :=
  match m with
  | [] => None
  | (k, v) :: rest => if String.eqb k key then Some v else ownValue rest key
  end.

(** What [normalizeContextTag] returns besides [null]: a text, or, for a
    key the object literal inherits, the inherited member, which is not a
    text. *)
Inductive ContextTag : Type :=
| Slug (s : string)
| Member (name : string).

Definition normalizeContextTag (ctx : JsValue) : option ContextTag :=
  let t := trim (safeString ctx) in
  if String.eqb t "" then None
  else
    let key := toLowerCase t in
    match ownValue contextMap key with
    | Some v => Some (Slug v)
    | None =>
        if decide (key ∈ inheritedKeys) then Some (Member key)
        else Some (Slug (hyphenate false key))
    end.

End Styling.

(** * Properties *)

(** ** Facts about the matcher *)

Section RegexFacts.
Import JsString Regex Analysis.

Variable P : ascii -> bool.
Variable ic : bool.

Lemma allChars_complete (c : ascii) : In c allChars.
Proof.
  unfold allChars. rewrite <- (ascii_nat_embedding c).
  apply in_map, in_seq. pose proof (nat_ascii_bounded c). lia.
Qed.

Lemma atomWithin_sound (a : atom) (c : ascii) :
  atomWithin P ic a = true -> atomAccepts ic a c = true -> P c = true.
Proof.
  unfold atomWithin. rewrite forallb_forall. intros Hall Hacc.
  specialize (Hall c (allChars_complete c)). rewrite Hacc in Hall. exact Hall.
Qed.

Lemma repeatChars_none (ok : ascii -> bool) (text : string) :
  forall lo hi prev gs k,
    lacks P text = true ->
    (lo <> 0%nat /\ (forall c, ok c = true -> P c = true)) \/ failsOnLacking P k ->
    repeatChars ok lo hi prev text gs k = None.
Proof.
  induction text as [|c tl IH]; intros lo hi prev gs k Hl Hcase; cbn.
  - destruct Hcase as [[Hlo _]|Hk].
    + destruct lo; [contradiction|reflexivity].
    + destruct (Nat.eqb lo 0); [apply Hk; reflexivity|reflexivity].
  - cbn in Hl. apply andb_prop in Hl as [Hc Htl].
    assert (Hstop : (if Nat.eqb lo 0
                     then k (State prev (String c tl) gs) else None) = None).
    { destruct Hcase as [[Hlo _]|Hk].
      - destruct lo; [contradiction|reflexivity].
      - destruct (Nat.eqb lo 0); [|reflexivity].
        apply Hk. cbn. now rewrite Hc, Htl. }
    destruct Hcase as [[Hlo Hok]|Hk].
    + destruct (ok c) eqn:Hokc.
      * apply Hok in Hokc. rewrite Hokc in Hc. discriminate.
      * rewrite andb_false_r. exact Hstop.
    + destruct (mayTakeMore hi && ok c); [|exact Hstop].
      rewrite (IH _ _ _ _ k Htl (or_intror Hk)). exact Hstop.
Qed.

Lemma run_none (r : regex) :
  forall s k,
    lacks P (ahead s) = true ->
    demands P ic r = true \/ failsOnLacking P k ->
    run ic r s k = None.
Proof.
  induction r as [a| |r1 IH1 r2 IH2|r1 IH1 r2 IH2|i r1 IH1|a lo hi];
    intros s k Hl Hcase; cbn.
  - destruct (ahead s) as [|c tl] eqn:Ha; [reflexivity|].
    cbn in Hl. apply andb_prop in Hl as [Hc Htl].
    destruct (atomAccepts ic a c) eqn:Hacc; [|reflexivity].
    destruct Hcase as [Hd|Hk].
    + cbn in Hd. rewrite (atomWithin_sound _ _ Hd Hacc) in Hc. discriminate.
    + apply Hk. exact Htl.
  - destruct Hcase as [Hd|Hk]; [discriminate|].
    destruct (xorb _ _); [apply Hk; exact Hl|reflexivity].
  - destruct Hcase as [Hd|Hk].
    + cbn in Hd. apply orb_prop in Hd as [Hd|Hd].
      * apply IH1; [exact Hl|left; exact Hd].
      * apply IH1; [exact Hl|right]. intros s' Hs'. apply IH2; auto.
    + apply IH1; [exact Hl|right]. intros s' Hs'. apply IH2; auto.
  - destruct Hcase as [Hd|Hk].
    + cbn in Hd. apply andb_prop in Hd as [Hd1 Hd2].
      rewrite IH1 by auto. apply IH2; auto.
    + rewrite IH1 by auto. apply IH2; auto.
  - apply IH1; [exact Hl|].
    destruct Hcase as [Hd|Hk]; [left; exact Hd|right].
    intros s' Hs'. apply Hk. exact Hs'.
  - apply repeatChars_none; [exact Hl|].
    destruct Hcase as [Hd|Hk]; [left|right; exact Hk].
    cbn in Hd. apply andb_prop in Hd as [Hlo Hin]. split.
    + intros ->. discriminate.
    + intros c. apply atomWithin_sound. exact Hin.
Qed.

Lemma searchFrom_none (r : regex) (text : string) :
  forall prev,
    demands P ic r = true -> lacks P text = true ->
    searchFrom ic r prev text = None.
Proof.
  induction text as [|c tl IH]; intros prev Hd Hl; cbn;
    unfold matchAt; rewrite run_none by (cbn; auto); [reflexivity|].
  cbn in Hl. apply andb_prop in Hl as [_ Htl]. apply IH; assumption.
Qed.

Lemma exec_none (r : regex) (text : string) :
  demands P ic r = true -> lacks P text = true -> exec ic r text = None.
Proof.
  intros Hd Hl. unfold exec. now rewrite searchFrom_none.
Qed.

Lemma test_false (r : regex) (text : string) :
  demands P ic r = true -> lacks P text = true -> test ic r text = false.
Proof.
  intros Hd Hl. unfold test. now rewrite searchFrom_none.
Qed.

Lemma scanAll_nil (r : regex) (text : string) :
  forall prev skip,
    demands P ic r = true -> lacks P text = true ->
    scanAll ic r prev text skip = [].
Proof.
  induction text as [|c tl IH]; intros prev skip Hd Hl.
  - destruct skip; cbn; [|reflexivity].
    unfold matchAt. rewrite run_none by (cbn; auto). reflexivity.
  - cbn in Hl. apply andb_prop in Hl as [Hc Htl].
    destruct skip; cbn; [|apply IH; assumption].
    unfold matchAt. rewrite run_none; [apply IH; assumption| |left; exact Hd].
    cbn. now rewrite Hc, Htl.
Qed.

End RegexFacts.

(** ** Length *)

Section Length.
Import Sizing.

(** C9. [resolveLength] answers 'standard' when the height is absent
    (null, or zero); for a height that is present it follows the
    breakpoints of the gender: male below 170 short, up to and including
    184 standard, above long; female 162 and 172; any other gender 166
    and 180.  In particular 169 is short and 170 standard for a man. *)
Theorem resolveLength_breakpoints (h : Z) (g : option string) :
  h <> 0 ->
  let lo := if genderIs g "male" then 170
            else if genderIs g "female" then 162 else 166 in
  let hi := if genderIs g "male" then 184
            else if genderIs g "female" then 172 else 180 in
  (h < lo -> resolveLength (Some h) g = "short")
  /\ (lo <= h <= hi -> resolveLength (Some h) g = "standard")
  /\ (hi < h -> resolveLength (Some h) g = "long")
  /\ resolveLength None g = "standard"
  /\ resolveLength (Some 0) g = "standard"
  /\ resolveLength (Some 169) (Some "male") = "short"
  /\ resolveLength (Some 170) (Some "male") = "standard".
Proof.
  intros Hh lo hi. subst lo hi. unfold resolveLength, lessThan, atMost. cbn.
  apply Z.eqb_neq in Hh. rewrite Hh. cbn.
  destruct (genderIs g "male"); [|destruct (genderIs g "female")];
    repeat split; intros; try reflexivity;
    repeat match goal with
           | |- context [?a <? ?b] => destruct (Z.ltb_spec a b)
           | |- context [?a <=? ?b] => destruct (Z.leb_spec a b)
           end; (reflexivity || lia).
Qed.

Lemma resolveLength_breakpoints_witness :
  resolveLength (Some 185) (Some "male") = "long"
  /\ resolveLength (Some 161) (Some "female") = "short"
  /\ resolveLength (Some 180) None = "standard".
Proof.
  split; [|split].
  - apply (resolveLength_breakpoints 185 (Some "male")); cbn; lia.
  - apply (resolveLength_breakpoints 161 (Some "female")); cbn; lia.
  - apply (resolveLength_breakpoints 180 None); cbn; lia.
Defined.

End Length.

(** ** The availability clamp *)

Section Clamp.
Import Sizing Stated.

Context {A : Type} (dist : A -> Z).

Lemma nearest_singleton (x : A) : Nearest dist [x] x.
Proof.
  exists 0%nat. split; [reflexivity|]. split.
  - intros y [<-|[]]. lia.
  - intros j y Hj. lia.
Qed.

(** One more candidate: the running best stays nearest over the longer
    prefix. *)
Lemma nearest_step (pre : list A) (best x : A) :
  Nearest dist pre best ->
  let acc := closer dist (best, dist best) x in
  snd acc = dist (fst acc) /\ Nearest dist (pre ++ [x]) (fst acc).
Proof.
  intros (i & Hi & Hmin & Hfirst). unfold closer. cbn.
  destruct (Z.ltb_spec (dist x) (dist best)) as [Hlt|Hge]; cbn.
  - split; [reflexivity|]. exists (List.length pre). split.
    + now apply list_lookup_middle.
    + split.
      * intros y Hy. apply in_app_or in Hy as [Hy|[<-|[]]]; [|lia].
        specialize (Hmin y Hy). lia.
      * intros j y Hj Hy. rewrite lookup_app_l in Hy by exact Hj.
        apply list_elem_of_lookup_2, list_elem_of_In in Hy.
        specialize (Hmin y Hy). lia.
  - split; [reflexivity|]. exists i.
    pose proof (lookup_lt_Some _ _ _ Hi) as Hlen. split.
    + rewrite lookup_app_l by exact Hlen. exact Hi.
    + split.
      * intros y Hy. apply in_app_or in Hy as [Hy|[<-|[]]]; [auto|lia].
      * intros j y Hj Hy. rewrite lookup_app_l in Hy by lia.
        eapply Hfirst; eassumption.
Qed.

Lemma nearest_fold (rest : list A) :
  forall (pre : list A) (best : A),
    Nearest dist pre best ->
    Nearest dist (pre ++ rest)
      (fst (fold_left (closer dist) rest (best, dist best))).
Proof.
  induction rest as [|x rest IH]; intros pre best Hn; cbn.
  - now rewrite app_nil_r.
  - destruct (nearest_step pre best x Hn) as [Hsnd Hnear].
    destruct (closer dist (best, dist best) x) as [b d] eqn:Hc.
    cbn in Hsnd, Hnear. subst d.
    change (x :: rest) with ([x] ++ rest)%list. rewrite app_assoc.
    apply IH. exact Hnear.
Qed.

Lemma nearest_of_loop (first : A) (rest : list A) :
  Nearest dist (first :: rest)
    (fst (fold_left (closer dist) rest (first, dist first))).
Proof. apply (nearest_fold rest [first]), nearest_singleton. Qed.

End Clamp.

Section Sorting.
Import Sizing Stated.

Lemma insertBy_members (x : Z) (l : list Z) (y : Z) :
  In y (insertBy id x l) -> y = x \/ In y l.
Proof.
  induction l as [|z rest IH]; cbn.
  - intros [<-|[]]. now left.
  - destruct (z <=? x); intros H; apply in_inv in H as [<-|H].
    + right. now left.
    + apply IH in H as [->|H]; [now left|right; now right].
    + now left.
    + right. exact H.
Qed.

Lemma insertBy_sorted (x : Z) (l : list Z) :
  StronglySorted Z.le l -> StronglySorted Z.le (insertBy id x l).
Proof.
  induction 1 as [|z rest Hrest IH Hall]; cbn.
  - constructor; constructor.
  - destruct (Z.leb_spec z x) as [Hle|Hgt].
    + constructor; [exact IH|]. apply Forall_forall. intros y Hy.
      apply list_elem_of_In, insertBy_members in Hy as [->|Hy]; [exact Hle|].
      rewrite Forall_forall in Hall. apply Hall, list_elem_of_In, Hy.
    + constructor; [constructor; assumption|].
      constructor; [lia|]. eapply Forall_impl; [exact Hall|].
      intros y Hy. cbn in Hy. lia.
Qed.

Lemma sortBy_sorted (l : list Z) : StronglySorted Z.le (sortBy id l).
Proof.
  unfold sortBy.
  assert (H : forall acc, StronglySorted Z.le acc ->
                StronglySorted Z.le
                  (fold_left (fun acc x => insertBy id x acc) l acc)).
  { induction l as [|x rest IH]; intros acc Hacc; cbn; [exact Hacc|].
    apply IH, insertBy_sorted, Hacc. }
  apply H. constructor.
Qed.

Lemma sorted_ascending (l : list Z) : StronglySorted Z.le l -> Ascending l.
Proof.
  induction 1 as [|z rest Hrest IH Hall]; intros i j x y Hij Hi Hj.
  - discriminate Hi.
  - destruct i as [|i], j as [|j]; cbn in Hi, Hj.
    + injection Hi as <-. injection Hj as <-. lia.
    + injection Hi as <-. rewrite Forall_forall in Hall.
      apply Hall. eapply list_elem_of_lookup_2, Hj.
    + lia.
    + apply (IH i j); [lia|assumption|assumption].
Qed.

Lemma available_ascending (p : option Product) (sch : Schema) :
  Ascending (numeric (extractAvailableSizes p sch))
  /\ Ascending (waist (extractAvailableSizes p sch)).
Proof.
  unfold extractAvailableSizes. destruct p as [p|]; cbn.
  - split; apply sorted_ascending, sortBy_sorted.
  - split; intros i j x y _ Hi; discriminate Hi.
Qed.

End Sorting.

Section ClampNumbers.
Import Sizing Stated.

Lemma nearest_lowest (v : Z) (l : list Z) (r : Z) :
  Nearest (fun x => Z.abs (x - v)) l r -> NearestNumber v l r.
Proof.
  intros Hn. split; [exact Hn|].
  destruct Hn as (i & Hi & _ & Hfirst). intros Hasc y Hy Heq.
  apply list_elem_of_In, list_elem_of_lookup in Hy as [j Hj].
  destruct (Nat.lt_ge_cases j i) as [Hlt|Hge].
  - specialize (Hfirst j y Hlt Hj). cbn in Hfirst. lia.
  - exact (Hasc i j r y Hge Hi Hj).
Qed.

Lemma closestNumeric_nearest (v : Z) (l : list Z) :
  l <> [] ->
  exists r, closestNumeric (Some v) l = Some r /\ NearestNumber v l r.
Proof.
  intros Hne. destruct l as [|first rest]; [contradiction|].
  eexists. split; [reflexivity|].
  apply nearest_lowest, (nearest_of_loop (fun x => Z.abs (x - v))).
Qed.

Lemma closestAlpha_nearest (a : string) (t : Z) (l : list string) :
  alphaToIndex a = Some t -> l <> [] ->
  exists r, closestAlpha (Some a) l = Some r
            /\ Nearest (fun x => Z.abs (rankOf x - t)) l r.
Proof.
  intros Ht Hne. destruct l as [|first rest]; [contradiction|].
  assert (Ha : truthyStr (Some a) = true).
  { destruct a; [discriminate Ht|reflexivity]. }
  unfold closestAlpha. rewrite Ha.
  change (default "" (Some a)) with a. rewrite Ht.
  eexists. split; [reflexivity|].
  apply (nearest_of_loop (fun x => Z.abs (rankOf x - t))).
Qed.

Lemma nonempty_length {B : Type} (l : list B) :
  l <> [] -> negb (Nat.eqb (List.length l) 0) = true.
Proof. destruct l; [contradiction|reflexivity]. Qed.

(** C4, as the code has it.  With availability data for the active
    system, the clamp puts in the size field the available candidate
    nearest to the chosen size (absolute difference; rank distance for
    alpha), the earliest such candidate of the list, hence the lowest one
    when the list is in ascending order, as the numeric lists taken from
    a product are.  For alpha this is so when the chosen letter has a
    rank, that is, when it is one of XXS to XXXL; a chosen letter without
    a rank is left as it is.  With [44,46,48,52] available, 50 becomes 48
    and 47 becomes 46. *)
Theorem clamp_snaps_to_nearest (s : Schema) (avail : Available) (rec : Rec.t) :
  available s = Some avail ->
  let out := clampRecommendationToProduct (Some s) rec in
  (forall v, system s = EU_NUMERIC -> Rec.size_eu rec = Some v ->
             numeric avail <> [] ->
     exists r, Rec.size_eu out = Some r /\ NearestNumber v (numeric avail) r)
  /\ (forall v, system s = SHIRT_COLLAR_EU -> Rec.shirt_size_eu rec = Some v ->
                numeric avail <> [] ->
     exists r, Rec.shirt_size_eu out = Some r
               /\ NearestNumber v (numeric avail) r)
  /\ (forall v, system s = WAIST_INCH -> Rec.waist_inch rec = Some v ->
                waist avail <> [] ->
     exists r, Rec.waist_inch out = Some r /\ NearestNumber v (waist avail) r)
  /\ (forall a t, system s = ALPHA -> Rec.alpha_size rec = Some a ->
                  alphaToIndex a = Some t -> alpha avail <> [] ->
     exists r, Rec.alpha_size out = Some r
               /\ Nearest (fun x => Z.abs (rankOf x - t)) (alpha avail) r)
  /\ (forall a, system s = ALPHA -> Rec.alpha_size rec = Some a ->
                alphaToIndex a = None ->
     Rec.alpha_size out = Some a)
  /\ (forall p sch,
        Ascending (numeric (extractAvailableSizes p sch))
        /\ Ascending (waist (extractAvailableSizes p sch)))
  /\ closestNumeric (Some 50) [44; 46; 48; 52] = Some 48
  /\ closestNumeric (Some 47) [44; 46; 48; 52] = Some 46.
Proof.
  intros Hav out. subst out. unfold clampRecommendationToProduct.
  cbn. rewrite Hav. cbn.
  split; [|split; [|split; [|split; [|split; [|split; [|split; reflexivity]]]]]];
    [| | | | |exact available_ascending].
  - intros v Hsys Hv Hne. rewrite Hsys, Hv. cbn [given andb].
    rewrite (nonempty_length _ Hne).
    destruct (closestNumeric_nearest v _ Hne) as (r & Hr & Hn).
    exists r. split; [exact Hr|exact Hn].
  - intros v Hsys Hv Hne. rewrite Hsys, Hv. cbn [given andb].
    rewrite (nonempty_length _ Hne).
    destruct (closestNumeric_nearest v _ Hne) as (r & Hr & Hn).
    exists r. split; [exact Hr|exact Hn].
  - intros v Hsys Hv Hne. rewrite Hsys, Hv. cbn [given andb].
    rewrite (nonempty_length _ Hne).
    destruct (closestNumeric_nearest v _ Hne) as (r & Hr & Hn).
    exists r. split; [exact Hr|exact Hn].
  - intros a t Hsys Ha Ht Hne. rewrite Hsys, Ha.
    assert (Htr : truthyStr (Some a) = true).
    { destruct a; [discriminate Ht|reflexivity]. }
    rewrite Htr, (nonempty_length _ Hne). cbn [andb].
    destruct (closestAlpha_nearest a t _ Ht Hne) as (r & Hr & Hn).
    exists r. split; [exact Hr|exact Hn].
  - intros a Hsys Ha Ht. rewrite Hsys, Ha.
    destruct (truthyStr (Some a) && _) eqn:Hc; [|exact Ha].
    cbn [Rec.alpha_size Rec.setAlpha]. unfold closestAlpha.
    destruct (alpha avail) as [|first rest]; [reflexivity|].
    destruct (truthyStr (Some a)); [|reflexivity].
    change (default "" (Some a)) with a. now rewrite Ht.
Qed.

End ClampNumbers.

Section ClampExamples.
Import Sizing Stated Samples.

Lemma clamp_snaps_to_nearest_witness :
  (exists r,
     Rec.size_eu (clampRecommendationToProduct (Some stockedSchema) size50)
       = Some r
     /\ NearestNumber 50 [44; 46; 48; 52] r)
  /\ (exists r,
        Rec.alpha_size
          (clampRecommendationToProduct (Some letteredSchema) (letter "XL"))
          = Some r
        /\ Nearest (fun x => Z.abs (rankOf x - 5)) ["S"; "M"] r)
  /\ Rec.alpha_size
       (clampRecommendationToProduct (Some letteredSchema) (letter "XL"))
     = Some "M"
  /\ Rec.alpha_size
       (clampRecommendationToProduct (Some letteredSchema) (letter "4XL"))
     = Some "4XL".
Proof.
  split; [|split; [|split]].
  - apply (proj1 (clamp_snaps_to_nearest stockedSchema stock size50 eq_refl)
             50);
      [reflexivity|reflexivity|discriminate].
  - apply (proj1 (proj2 (proj2 (proj2
             (clamp_snaps_to_nearest letteredSchema lettered (letter "XL")
                eq_refl)))) "XL" 5);
      [reflexivity|reflexivity|vm_compute; reflexivity|discriminate].
  - reflexivity.
  - apply (proj1 (proj2 (proj2 (proj2 (proj2
             (clamp_snaps_to_nearest letteredSchema lettered (letter "4XL")
                eq_refl))))) "4XL");
      reflexivity.
Defined.

(** C4, as stated, fails for a letter without a rank: a shopper who
    wears XXXXL, on a product that offers S and M, keeps XXXXL, which is
    none of the candidates. *)
Lemma unranked_letter_not_clamped :
  available letteredSchema = Some lettered
  /\ system letteredSchema = ALPHA
  /\ alpha lettered = ["S"; "M"]
  /\ Rec.alpha_size (recommend (Some letteredSchema) (Some (wearing "XXXXL")))
     = Some "XXXXL"
  /\ ~ (exists r,
          Rec.alpha_size
            (clampRecommendationToProduct (Some letteredSchema)
               (recommend (Some letteredSchema) (Some (wearing "XXXXL"))))
            = Some r
          /\ In r (alpha lettered))
  /\ (Flat.alpha_size
        <$> recommendForProduct
              (Some {| Ctx.product := Some (trouserWith ["S"; "M"]);
                       Ctx.user := Some (wearing "XXXXL");
                       Ctx.gender := None |}))
     = Some (Some "XXXXL").
Proof.
  split; [reflexivity|]. split; [reflexivity|]. split; [reflexivity|].
  split; [vm_compute; reflexivity|]. split; [|vm_compute; reflexivity].
  intros (r & Hr & Hin).
  assert (Hout : Rec.alpha_size
            (clampRecommendationToProduct (Some letteredSchema)
               (recommend (Some letteredSchema) (Some (wearing "XXXXL"))))
          = Some "XXXXL") by (vm_compute; reflexivity).
  rewrite Hout in Hr. injection Hr as <-.
  cbn in Hin. repeat destruct Hin as [Hin|Hin]; try discriminate Hin.
  exact Hin.
Defined.

End ClampExamples.

(** ** The recommendation *)

Section Recommend.
Import Sizing Stated Samples.

Lemma closestNumeric_given (t : option Z) (l : list Z) :
  given (closestNumeric t l) = given t.
Proof. destruct t, l; reflexivity. Qed.

Lemma closestAlpha_given (t : option string) (l : list string) :
  given (closestAlpha t l) = given t.
Proof.
  destruct l as [|first rest]; [reflexivity|]. unfold closestAlpha.
  destruct (truthyStr t) eqn:Ht; [|reflexivity].
  destruct t as [a|]; [|discriminate]. cbn.
  destruct (alphaToIndex a); reflexivity.
Qed.

Lemma clamp_keeps_given (s : Schema) (rec : Rec.t) (sys : SizeSystem) :
  sizeFieldGiven (clampRecommendationToProduct (Some s) rec) sys
  = sizeFieldGiven rec sys.
Proof.
  unfold clampRecommendationToProduct. cbn.
  destruct (available s) as [avail|]; [cbn|reflexivity].
  destruct (system s);
    match goal with |- context [if ?c then _ else _] => destruct c end;
    try reflexivity; destruct sys; cbn;
    auto using closestNumeric_given, closestAlpha_given.
Qed.

Lemma clamp_keeps_system (s : option Schema) (rec : Rec.t) :
  Rec.system (clampRecommendationToProduct s rec) = Rec.system rec.
Proof.
  unfold clampRecommendationToProduct.
  destruct (s ≫= _) as [[s' avail]|]; [|reflexivity].
  destruct (system s');
    match goal with |- context [if ?c then _ else _] => destruct c end;
    reflexivity.
Qed.

Lemma deriveEu_given (h w : option Z) (g : option string) :
  given (deriveEuSizeFromProportions h w g) = truthy h && truthy w.
Proof.
  destruct h as [h|], w as [w|]; cbn; try reflexivity;
    [|now destruct (negb (h =? 0))].
  destruct (h =? 0), (w =? 0); cbn; try reflexivity.
  destruct (genderIs g "male"); [reflexivity|].
  destruct (genderIs g "female"); reflexivity.
Qed.

Lemma deriveShirt_given (h w : option Z) :
  given (deriveShirtCollarFromProportions h w) = truthy h && truthy w.
Proof.
  destruct h as [h|], w as [w|]; cbn; try reflexivity;
    [|now destruct (negb (h =? 0))].
  destruct (h =? 0), (w =? 0); reflexivity.
Qed.

Lemma deriveAlpha_given (h w : option Z) (g : option string) :
  given (deriveAlphaFromProportions h w g) = truthy h && truthy w.
Proof.
  destruct h as [h|], w as [w|]; cbn; try reflexivity;
    [|now destruct (negb (h =? 0))].
  destruct (h =? 0), (w =? 0); reflexivity.
Qed.

Lemma deriveWaist_given (h w : option Z) (g : option string) :
  given (deriveWaistFromProportions h w g) = truthy h && truthy w.
Proof.
  destruct h as [h|], w as [w|]; cbn; try reflexivity;
    [|now destruct (negb (h =? 0))].
  destruct (h =? 0), (w =? 0); reflexivity.
Qed.

Lemma truthy_given (o : option Z) : truthy o = true -> given o = true.
Proof. destruct o; [reflexivity|discriminate]. Qed.

(** C2, as the code has it.  Of the four size fields of the
    recommendation, the three that do not belong to the schema's system
    are null; the one that belongs to it is filled exactly when the user
    gave a usual size for that system or gave both height and weight. *)
Theorem recommend_size_fields
    (schema : option Schema) (user : option User.t) (sys : SizeSystem) :
  let r := recommend schema user in
  let u := default User.empty user in
  sizeFieldGiven r sys
  = SizeSystem_eqb sys (Rec.system r)
    && (hasAnchor u (Rec.system r) || hasProportions u).
Proof.
  intros r u. subst r. unfold recommend.
  rewrite clamp_keeps_given, clamp_keeps_system.
  fold u. set (s := default (schemaForGeneral UNKNOWN None) schema).
  unfold hasProportions.
  destruct (system s) eqn:Hsys.
  - destruct (truthy (User.usual_size_eu u)) eqn:Ha; destruct sys; cbn;
      rewrite ?Ha, ?deriveEu_given, ?(truthy_given _ Ha); reflexivity.
  - destruct (truthy (User.shirt_size_eu u)) eqn:Ha; destruct sys; cbn;
      rewrite ?Ha, ?deriveShirt_given, ?(truthy_given _ Ha); reflexivity.
  - destruct (truthyStr (User.alpha_size u)) eqn:Ha; destruct sys; cbn;
      rewrite ?Ha, ?deriveAlpha_given; try reflexivity.
    destruct (normalizeAlphaSize _); [reflexivity|].
    destruct (User.alpha_size u); [reflexivity|discriminate].
  - destruct (truthy (User.waist_inch u)) eqn:Ha; destruct sys; cbn;
      rewrite ?Ha, ?deriveWaist_given, ?(truthy_given _ Ha); reflexivity.
Qed.

(** C2, as stated, fails: with neither a usual size nor height and
    weight, the field of the schema's own system stays null as well, so
    no size field is filled. *)
Lemma recommend_without_measurements :
  let r := recommend (Some euSchema) (Some User.empty) in
  Rec.system r = EU_NUMERIC
  /\ Rec.size_eu r = None /\ Rec.shirt_size_eu r = None
  /\ Rec.alpha_size r = None /\ Rec.waist_inch r = None.
Proof. repeat split. Qed.

(** C7. [recommendForProduct] answers null exactly when the context or
    its user is absent; with a user, whatever the user's fields and with
    or without a product, it answers a recommendation. *)
Theorem recommendForProduct_null_iff (ctx : option Ctx.t) :
  (recommendForProduct ctx = None
   <-> ctx = None \/ exists c, ctx = Some c /\ Ctx.user c = None)
  /\ (forall c u, ctx = Some c -> Ctx.user c = Some u ->
                  exists flat, recommendForProduct ctx = Some flat).
Proof.
  assert (Hsome : forall c u, Ctx.user c = Some u ->
                    exists flat, recommendForProduct (Some c) = Some flat).
  { intros c u Hu. unfold recommendForProduct. rewrite Hu.
    destruct (Ctx.product c) as [p|].
    - destruct (detectSizeSchemaFromProduct (Some p)); eexists; reflexivity.
    - eexists; reflexivity. }
  split.
  - split.
    + intros Hnone. destruct ctx as [c|]; [right|left; reflexivity].
      exists c. split; [reflexivity|].
      destruct (Ctx.user c) as [u|] eqn:Hu; [|reflexivity].
      destruct (Hsome c u Hu) as [flat Hflat]. congruence.
    + intros [->|(c & -> & Hu)]; [reflexivity|].
      unfold recommendForProduct. now rewrite Hu.
  - intros c u -> Hu. exact (Hsome c u Hu).
Qed.

Lemma recommendForProduct_null_iff_witness :
  exists flat,
    recommendForProduct
      (Some {| Ctx.product := None; Ctx.user := Some User.empty;
               Ctx.gender := None |}) = Some flat.
Proof.
  eapply (proj2 (recommendForProduct_null_iff _)); reflexivity.
Defined.

End Recommend.

(** ** Characters and labels *)

Section Labels.
Import JsString Regex Sizing Analysis Stated.

Lemma digit_cases (c : ascii) :
  isDigit c = true ->
  In c ["0"; "1"; "2"; "3"; "4"; "5"; "6"; "7"; "8"; "9"]%char.
Proof.
  destruct c as [[] [] [] [] [] [] [] []]; intros H;
    try discriminate H; cbn; tauto.
Qed.

Lemma isW_cases (c : ascii) : isW c = true -> c = "W"%char \/ c = "w"%char.
Proof.
  unfold isW. intros H. apply orb_prop in H as [H|H];
    apply Ascii.eqb_eq in H; auto.
Qed.

Lemma allOf_lacks (Q P : ascii -> bool) (v : string) :
  (forall c, Q c = true -> P c = false) ->
  allOf Q v = true -> lacks P v = true.
Proof.
  intros HQP. induction v as [|c tl IH]; cbn; [reflexivity|].
  intros H. apply andb_prop in H as [Hc Htl].
  rewrite (HQP c Hc). cbn. auto.
Qed.

Lemma allOf_mapChars (Q : ascii -> bool) (f : ascii -> ascii) (v : string) :
  (forall c, Q c = true -> f c = c) ->
  allOf Q v = true -> mapChars f v = v.
Proof.
  intros Hf. induction v as [|c tl IH]; cbn; [reflexivity|].
  intros H. apply andb_prop in H as [Hc Htl].
  now rewrite (Hf c Hc), IH.
Qed.

Lemma allOf_filterChars (Q keep : ascii -> bool) (v : string) :
  (forall c, Q c = true -> keep c = true) ->
  allOf Q v = true -> filterChars keep v = v.
Proof.
  intros Hk. induction v as [|c tl IH]; cbn; [reflexivity|].
  intros H. apply andb_prop in H as [Hc Htl].
  now rewrite (Hk c Hc), IH.
Qed.

Lemma allOf_trim (Q : ascii -> bool) (v : string) :
  (forall c, Q c = true -> isSpace c = false) ->
  allOf Q v = true -> trim v = v.
Proof.
  intros Hs Hv. unfold trim.
  assert (Hstart : trimStart v = v).
  { destruct v as [|c tl]; [reflexivity|]. cbn in *.
    apply andb_prop in Hv as [Hc _]. now rewrite (Hs c Hc). }
  rewrite Hstart. clear Hstart.
  induction v as [|c tl IH]; cbn; [reflexivity|].
  cbn in Hv. apply andb_prop in Hv as [Hc Htl].
  rewrite (IH Htl). destruct tl; [now rewrite (Hs c Hc)|reflexivity].
Qed.

Lemma digit_facts (c : ascii) :
  isDigit c = true ->
  lowerChar c = c /\ isSpace c = false
  /\ Ascii.eqb c "." = false /\ Ascii.eqb c "-" = false
  /\ Ascii.eqb (upperChar c) (upperChar "w") = false.
Proof.
  intros H. apply digit_cases in H. cbn in H.
  repeat destruct H as [<-|H]; try contradiction; repeat split.
Qed.

Lemma digits_differ (v s : string) :
  allOf isDigit v = true -> allOf isDigit s = false -> String.eqb v s = false.
Proof.
  intros Hv Hs. destruct (String.eqb_spec v s) as [->|]; [congruence|reflexivity].
Qed.

(** A label of digits shows no alpha token and no waist token, and reads
    as its own number. *)
Lemma numeric_lower (v : string) : allOf isDigit v = true -> lower v = v.
Proof.
  apply allOf_mapChars. intros c Hc. apply (digit_facts c Hc).
Qed.

Lemma numeric_not_alpha (v : string) :
  numericLabel v = true -> alphaToken v = false.
Proof.
  unfold numericLabel, alphaToken. intros H.
  apply andb_prop in H as [Hne Hd]. rewrite (numeric_lower v Hd).
  unfold normalizeAlphaSize. rewrite (numeric_lower v Hd).
  assert (Hdots : removeAll "." v = v).
  { apply (allOf_filterChars isDigit); [|exact Hd].
    intros c Hc. destruct (digit_facts c Hc) as (_ & _ & -> & _). reflexivity. }
  assert (Hdash : removeAll "-" v = v).
  { apply (allOf_filterChars isDigit); [|exact Hd].
    intros c Hc. destruct (digit_facts c Hc) as (_ & _ & _ & -> & _).
    reflexivity. }
  rewrite Hdots, (allOf_trim isDigit v); [|intros c Hc; apply (digit_facts c Hc)|exact Hd].
  apply negb_true_iff in Hne. rewrite Hne.
  unfold alias, ALPHA_ORDER. cbn [existsb].
  rewrite !(digits_differ v _ Hd) by reflexivity. cbn.
  rewrite Hdash. rewrite !(digits_differ v _ Hd) by reflexivity. reflexivity.
Qed.

Lemma numeric_not_waist (v : string) :
  allOf isDigit v = true -> waistToken v = false.
Proof.
  intros Hd. unfold waistToken.
  apply (test_false (fun c => Ascii.eqb (upperChar c) (upperChar "w"))).
  - vm_compute. reflexivity.
  - apply (allOf_lacks isDigit); [|exact Hd].
    intros c Hc. apply (digit_facts c Hc).
Qed.

Lemma wStyle_is_waist (v : string) :
  wStyleToken v = true -> waistToken v = true.
Proof.
  destruct v as [|a [|b [|c [|]]]]; try discriminate. cbn.
  intros H. apply orb_prop in H as [H|H];
    apply andb_prop in H as [H Hc]; apply andb_prop in H as [Ha Hb].
  - apply isW_cases in Ha. apply digit_cases in Hb, Hc. cbn in Hb, Hc.
    destruct Ha as [->| ->];
      repeat destruct Hb as [<-|Hb]; try contradiction;
      repeat destruct Hc as [<-|Hc]; try contradiction;
      vm_compute; reflexivity.
  - apply isW_cases in Hc. apply digit_cases in Ha, Hb. cbn in Ha, Hb.
    destruct Hc as [->| ->];
      repeat destruct Ha as [<-|Ha]; try contradiction;
      repeat destruct Hb as [<-|Hb]; try contradiction;
      vm_compute; reflexivity.
Qed.

End Labels.

(** ** The schema of a product *)

Section Detection.
Import JsString Regex Sizing Analysis Stated Samples.

Lemma signals_fold (values : list string) :
  forall sg,
    let r := fold_left observeValue values sg in
    hasAlpha r = hasAlpha sg || existsb alphaToken values
    /\ hasCollar r = hasCollar sg || existsb collarNumber values
    /\ hasEuNumeric r = hasEuNumeric sg || existsb euNumber values
    /\ hasWaist r = hasWaist sg || existsb waistToken values.
Proof.
  induction values as [|v rest IH]; intros sg; cbn.
  - now rewrite !orb_false_r.
  - destruct (IH (observeValue sg v)) as (Ha & Hc & He & Hw).
    rewrite Ha, Hc, He, Hw. cbn. now rewrite !orb_assoc.
Qed.

Lemma detectSystem_by_tokens (values : list string) :
  detectSystemFromVariantValues values
  = if existsb waistToken values then WAIST_INCH
    else if existsb collarNumber values && negb (existsb alphaToken values)
    then SHIRT_COLLAR_EU
    else if existsb alphaToken values then ALPHA
    else EU_NUMERIC.
Proof.
  unfold detectSystemFromVariantValues.
  destruct (signals_fold values noSignals) as (Ha & Hc & He & Hw).
  cbn in Ha, Hc, He, Hw. rewrite Ha, Hc, Hw.
  now destruct (hasEuNumeric _).
Qed.

Lemma refine_keeps (base : Schema) (values : list string) :
  gender (refineSchema base values) = gender base
  /\ category (refineSchema base values) = category base.
Proof.
  unfold refineSchema. destruct values as [|v rest]; [split; reflexivity|].
  repeat match goal with
         | |- context [if ?c then _ else _] => destruct c
         end; split; reflexivity.
Qed.

Lemma refine_system (base : Schema) (values : list string) :
  values <> [] ->
  system (refineSchema base values)
  = appliedPriority (category base) (gender base) values.
Proof.
  intros Hne. destruct values as [|v rest]; [contradiction|].
  unfold refineSchema, appliedPriority. cbv beta iota zeta.
  rewrite detectSystem_by_tokens.
  generalize (v :: rest). intros vs.
  destruct (existsb waistToken vs), (existsb alphaToken vs),
    (existsb collarNumber vs), (Category_eqb (category base) SHIRT) eqn:Hc,
    (genderIs (gender base) "male") eqn:Hg; cbn; rewrite ?Hg, ?Hc; cbn;
    try reflexivity; destruct (existsb isTailoring vs); reflexivity.
Qed.

Lemma detect_unfold (p : Product) (s : Schema) :
  detectSizeSchemaFromProduct (Some p) = Some s ->
  let base := schemaForGeneral (inferCategoryFromProduct (Some p))
                (inferGenderFromProduct (Some p)) in
  let refined := refineSchema base (sizeValuesOf (Some p)) in
  system s = system refined
  /\ gender s = gender base /\ category s = category base.
Proof.
  unfold detectSizeSchemaFromProduct. intros H. injection H as <-. cbn.
  destruct (refine_keeps
              (schemaForGeneral (inferCategoryFromProduct (Some p))
                 (inferGenderFromProduct (Some p)))
              (sizeValuesOf (Some p))) as [Hg Hc].
  auto.
Qed.

Lemma detected_system (p : Product) (s : Schema) :
  detectSizeSchemaFromProduct (Some p) = Some s ->
  sizeValuesOf (Some p) <> [] ->
  system s = appliedPriority (category s) (gender s) (sizeValuesOf (Some p)).
Proof.
  intros Hd Hne. destruct (detect_unfold p s Hd) as (Hs & Hg & Hc).
  rewrite Hs, Hg, Hc. now apply refine_system.
Qed.

Lemma existsb_of_all {B : Type} (f : B -> bool) (l : list B) :
  l <> [] -> Forall (fun x => f x = true) l -> existsb f l = true.
Proof.
  destruct l as [|x rest]; [contradiction|]. intros _ Hall.
  inversion Hall as [|? ? Hx _]; subst. cbn. now rewrite Hx.
Qed.

Lemma existsb_none {B : Type} (f : B -> bool) (l : list B) :
  Forall (fun x => f x = false) l -> existsb f l = false.
Proof.
  induction 1 as [|x rest Hx _ IH]; cbn; [reflexivity|]. now rewrite Hx, IH.
Qed.

Lemma forallb_Forall {B : Type} (f : B -> bool) (l : list B) :
  forallb f l = true -> Forall (fun x => f x = true) l.
Proof.
  induction l as [|x rest IH]; cbn; intros H; constructor;
    apply andb_prop in H as [Hx Hrest]; auto.
Qed.

(** C3, as the code has it.  For a product with at least one size value
    the system of the schema follows this priority: a waist token makes
    it waist-inch; otherwise an alpha token makes it alpha; otherwise a
    collar-range number makes it shirt-collar when the category is shirt;
    otherwise a men's shirt with no value in the tailoring band is
    shirt-collar; otherwise it is EU numeric.  When all the values are
    W-style tokens the system is waist-inch. *)
Theorem detected_system_priority (p : Product) (s : Schema) :
  detectSizeSchemaFromProduct (Some p) = Some s ->
  sizeValuesOf (Some p) <> [] ->
  system s = appliedPriority (category s) (gender s) (sizeValuesOf (Some p))
  /\ (Forall (fun v => wStyleToken v = true) (sizeValuesOf (Some p)) ->
      system s = WAIST_INCH).
Proof.
  intros Hd Hne. pose proof (detected_system p s Hd Hne) as Hsys.
  split; [exact Hsys|]. intros Hall. rewrite Hsys. unfold appliedPriority.
  rewrite (existsb_of_all waistToken); [reflexivity|exact Hne|].
  eapply Forall_impl; [exact Hall|]. intros v. apply wStyle_is_waist.
Qed.

Lemma detected_system_priority_witness :
  exists s,
    detectSizeSchemaFromProduct (Some (trouserWith ["W30"; "W32"; "34W"]))
      = Some s
    /\ system s = WAIST_INCH.
Proof.
  eexists. split; [reflexivity|].
  refine (proj2 (detected_system_priority
                   (trouserWith ["W30"; "W32"; "34W"]) _ eq_refl _) _).
  - vm_compute. discriminate.
  - apply forallb_Forall. vm_compute. reflexivity.
Defined.

(** C3, as stated, fails: on a men's shirt offered in S and 40 the alpha
    token wins over the collar-range number, and on a trouser offered in
    38 and 40 the collar-range numbers do not make it shirt-collar. *)
Lemma alpha_beats_collar :
  (system <$> detectSizeSchemaFromProduct (Some (shirtWith ["S"; "40"]))
   = Some ALPHA
   /\ sizeValuesOf (Some (shirtWith ["S"; "40"])) = ["S"; "40"]
   /\ statedPriority ["S"; "40"] = SHIRT_COLLAR_EU)
  /\ (system <$> detectSizeSchemaFromProduct (Some (trouserWith ["38"; "40"]))
      = Some EU_NUMERIC
      /\ sizeValuesOf (Some (trouserWith ["38"; "40"])) = ["38"; "40"]
      /\ statedPriority ["38"; "40"] = SHIRT_COLLAR_EU).
Proof. vm_compute. repeat split. Qed.

Lemma numericWithin_facts (lo hi : Z) (v : string) :
  numericWithin lo hi v = true ->
  alphaToken v = false /\ waistToken v = false
  /\ inBand lo hi (parseIntSafe (lower v)) = true.
Proof.
  unfold numericWithin. intros H. apply andb_prop in H as [Hn Hb].
  pose proof Hn as Hn'. unfold numericLabel in Hn'.
  apply andb_prop in Hn' as [_ Hd].
  rewrite (numeric_lower v Hd).
  auto using numeric_not_alpha, numeric_not_waist.
Qed.

Lemma inBand_narrow (lo hi lo' hi' : Z) (n : option Z) :
  lo' <= lo -> hi <= hi' -> inBand lo hi n = true -> inBand lo' hi' n = true.
Proof.
  destruct n as [v|]; cbn; [|discriminate]. intros Hlo Hhi H.
  apply andb_prop in H as [H1 H2]. apply Z.leb_le in H1, H2.
  apply andb_true_intro. split; apply Z.leb_le; lia.
Qed.

Lemma inBand_apart (lo hi lo' hi' : Z) (n : option Z) :
  hi' < lo -> inBand lo hi n = true -> inBand lo' hi' n = false.
Proof.
  destruct n as [v|]; cbn; [|discriminate]. intros Hlt H.
  apply andb_prop in H as [H1 H2]. apply Z.leb_le in H1, H2.
  apply andb_false_iff. right. apply Z.leb_gt. lia.
Qed.

(** C1, as the code has it.  A men's shirt that has at least one size
    value, all of them numeric and within 47-60 (so none in the collar
    range 37-46), gets the EU-numeric system. *)
Theorem tailored_shirt_is_eu_numeric (p : Product) (s : Schema) :
  mensShirt p ->
  detectSizeSchemaFromProduct (Some p) = Some s ->
  sizeValuesOf (Some p) <> [] ->
  Forall (fun v => numericWithin 47 60 v = true) (sizeValuesOf (Some p)) ->
  system s = EU_NUMERIC.
Proof.
  intros [Hg Hc] Hd Hne Hall.
  rewrite (detected_system p s Hd Hne).
  destruct (detect_unfold p s Hd) as (_ & Hgs & Hcs).
  rewrite Hgs, Hcs, Hg, Hc. unfold appliedPriority.
  rewrite (existsb_none waistToken), (existsb_none alphaToken),
    (existsb_none collarNumber), (existsb_of_all isTailoring);
    [reflexivity|exact Hne|..];
    (eapply Forall_impl; [exact Hall|]); intros v Hv;
    destruct (numericWithin_facts 47 60 v Hv) as (Ha & Hw & Hb); auto.
  - unfold isTailoring. eapply inBand_narrow; [| |exact Hb]; lia.
  - unfold collarNumber. eapply inBand_apart; [|exact Hb]. lia.
Qed.

Lemma tailored_shirt_is_eu_numeric_witness :
  exists s,
    detectSizeSchemaFromProduct (Some (shirtWith ["48"; "50"; "52"])) = Some s
    /\ system s = EU_NUMERIC.
Proof.
  eexists. split; [reflexivity|].
  refine (tailored_shirt_is_eu_numeric (shirtWith ["48"; "50"; "52"]) _
            _ eq_refl _ _).
  - split; vm_compute; reflexivity.
  - vm_compute. discriminate.
  - apply forallb_Forall. vm_compute. reflexivity.
Defined.

(** C1, as stated, fails: a men's shirt offered in 44, 45 and 46, all
    numeric and within 44-60, gets the shirt-collar system, because these
    values lie in the collar range as well. *)
Lemma shirt_44_45_46_is_collar :
  mensShirt (shirtWith ["44"; "45"; "46"])
  /\ sizeValuesOf (Some (shirtWith ["44"; "45"; "46"])) = ["44"; "45"; "46"]
  /\ Forall (fun v => numericWithin 44 60 v = true) ["44"; "45"; "46"]
  /\ system <$> detectSizeSchemaFromProduct (Some (shirtWith ["44"; "45"; "46"]))
     = Some SHIRT_COLLAR_EU.
Proof.
  split; [split; vm_compute; reflexivity|].
  split; [vm_compute; reflexivity|].
  split; [apply forallb_Forall; vm_compute; reflexivity|vm_compute; reflexivity].
Qed.

End Detection.

(** ** The measurement parser *)

Section Parser.
Import JsString Regex Sizing Analysis Stated Samples.






(** C6. Under a shirt-collar schema, when the parse has captured no
    shirt size but has captured a usual EU size within 37-46, the result
    carries that value as the shirt size and no usual EU size. *)
Theorem collar_reconciliation (text : JsValue) (s : Schema) (v : Z) :
  system s = SHIRT_COLLAR_EU ->
  let pre := parseBeforeReconcile (lower (toStr text)) (Some s) in
  Out.shirt_size_eu pre = None ->
  Out.usual_size_eu pre = Some v ->
  37 <= v <= 46 ->
  let out := parseUserInput text (Some s) in
  Out.shirt_size_eu out = Some v /\ Out.usual_size_eu out = None.
Proof.
  intros Hsys pre Hshirt Husual Hband out. subst out pre.
  unfold parseUserInput.
  destruct (String.eqb_spec (lower (toStr text)) "") as [Ht|Ht].
  - rewrite Ht in Husual. vm_compute in Husual. discriminate.
  - set (pre := parseBeforeReconcile (lower (toStr text)) (Some s)) in *.
    assert (Hcond : systemIs (Some s) SHIRT_COLLAR_EU
                    && (negb (truthy (Out.shirt_size_eu pre))
                        && truthy (Out.usual_size_eu pre)
                        && inBand 37 46 (Out.usual_size_eu pre)) = true).
    { unfold systemIs. rewrite Hsys, Hshirt, Husual. cbn.
      replace (v =? 0) with false by (symmetry; apply Z.eqb_neq; lia).
      replace (37 <=? v) with true by (symmetry; apply Z.leb_le; lia).
      replace (v <=? 46) with true by (symmetry; apply Z.leb_le; lia).
      reflexivity. }
    unfold reconcile. rewrite Hcond. cbn. split; [exact Husual|reflexivity].
Qed.

Lemma collar_reconciliation_witness :
  let out := parseUserInput (JsText "EU 40") (Some collarSchema) in
  Out.shirt_size_eu out = Some 40 /\ Out.usual_size_eu out = None.
Proof.
  apply (collar_reconciliation (JsText "EU 40") collarSchema 40);
    [reflexivity|vm_compute; reflexivity|vm_compute; reflexivity|lia].
Defined.

Lemma assignBare_alpha (schema : option Schema) (st : Out.t * gmap Z nat)
    (token : string) :
  Out.alpha_size (fst (assignBare schema st token)) = Out.alpha_size (fst st).
Proof.
  destruct st as [out used]. unfold assignBare.
  destruct (parseIntSafe token); [|reflexivity].
  repeat match goal with
         | |- context [if ?c then _ else _] => destruct c
         end; reflexivity.
Qed.

Lemma loop_alpha (schema : option Schema) (tokens : list string) :
  forall st,
    Out.alpha_size (fst (fold_left (assignBare schema) tokens st))
    = Out.alpha_size (fst st).
Proof.
  induction tokens as [|tok rest IH]; intros st; cbn; [reflexivity|].
  now rewrite IH, assignBare_alpha.
Qed.

Lemma reconcile_alpha (schema : option Schema) (out : Out.t) :
  Out.alpha_size (reconcile schema out) = Out.alpha_size out.
Proof.
  unfold reconcile.
  match goal with |- context [if ?c then _ else _] => destruct c end;
    reflexivity.
Qed.

Lemma parseExplicit_alpha (t : string) :
  Out.alpha_size (parseExplicit t) = alphaFound t.
Proof.
  unfold parseExplicit, alphaFound.
  destruct (captured (exec true alphaPattern t) 1) as [tok|];
    [destruct (normalizeAlphaSize tok)|];
    repeat match goal with
           | |- context [match ?x with _ => _ end] => destruct x
           end; reflexivity.
Qed.

Lemma parse_alpha (text : JsValue) (schema : option Schema) :
  Out.alpha_size (parseUserInput text schema) = alphaFound (lower (toStr text)).
Proof.
  unfold parseUserInput.
  destruct (String.eqb_spec (lower (toStr text)) "") as [->|_];
    [reflexivity|].
  unfold parseBeforeReconcile.
  rewrite reconcile_alpha, loop_alpha. cbn [fst]. apply parseExplicit_alpha.
Qed.

Lemma normalizeAlphaSize_range (x a : string) :
  normalizeAlphaSize x = Some a ->
  In a ["XXS"; "XS"; "S"; "M"; "L"; "XL"; "XXL"; "XXXL"].
Proof.
  unfold normalizeAlphaSize.
  destruct (String.eqb _ ""); [discriminate|].
  match goal with
  | |- context [existsb (String.eqb ?w) ALPHA_ORDER] => generalize w
  end.
  intros w. destruct (existsb (String.eqb w) ALPHA_ORDER) eqn:Hex;
    [|discriminate].
  intros H. injection H as <-.
  apply existsb_exists in Hex as (y & Hy & Heq).
  apply String.eqb_eq in Heq. subst w. cbn in Hy.
  repeat destruct Hy as [<-|Hy]; try contradiction; cbn; tauto.
Qed.

Lemma append_length (a b : string) :
  String.length (a ++ b) = (String.length a + String.length b)%nat.
Proof.
  induction a as [|c a IH]; [reflexivity|].
  change (String c a ++ b) with (String c (a ++ b)). cbn [String.length].
  now rewrite IH.
Qed.

Lemma substring_prefix (a b : string) :
  substring 0 (String.length a) (a ++ b) = a.
Proof.
  induction a as [|c a IH]; [now destruct b|].
  change (String c a ++ b) with (String c (a ++ b)).
  cbn [String.length substring]. now rewrite IH.
Qed.

Lemma consumed_prefix (tok post : string) (p p' : option ascii)
    (g g' : list (nat * string)) :
  consumed (State p (tok ++ post) g) (State p' post g') = tok.
Proof.
  unfold consumed. cbn [ahead]. rewrite append_length.
  replace (String.length tok + String.length post - String.length post)%nat
    with (String.length tok) by lia.
  apply substring_prefix.
Qed.

Lemma app_cons (c : ascii) (a b : string) :
  String c a ++ b = String c (a ++ b).
Proof. reflexivity. Qed.

Lemma app_empty (b : string) : "" ++ b = b.
Proof. reflexivity. Qed.

Lemma searchFrom_hit (ic : bool) (r : regex) (prev : option ascii)
    (text : string) (res : state) :
  matchAt ic r prev text = Some res -> searchFrom ic r prev text = Some res.
Proof. intros H. destruct text; cbn; now rewrite H. Qed.

Lemma run_word (tok : string) :
  tok <> "" ->
  forall p s g k,
    run true (word tok) (State p s g) k = afterFit tok p s g k.
Proof.
  induction tok as [|a tok IH]; [contradiction|]. intros _ p s g k.
  destruct tok as [|b tok].
  - unfold afterFit. cbn -[atomAccepts]. destruct s as [|c s]; [reflexivity|].
    destruct (atomAccepts true (Lit a) c); reflexivity.
  - change (word (String a (String b tok)))
      with (Cat (Atom (Lit a)) (word (String b tok))).
    cbn [run ahead groups]. unfold afterFit. cbn [fits].
    destruct s as [|c s]; [reflexivity|].
    destruct (atomAccepts true (Lit a) c); [|reflexivity].
    rewrite IH by discriminate. reflexivity.
Qed.

Lemma run_oneOf (toks : list string) :
  toks <> [] -> Forall (fun tok => tok <> "") toks ->
  forall p s g k,
    run true (oneOf (map word toks)) (State p s g) k = firstFit toks p s g k.
Proof.
  induction toks as [|tok rest IH]; [contradiction|]. intros _ Hall p s g k.
  apply Forall_cons in Hall as [Htok Hrest].
  destruct rest as [|tok2 rest].
  - cbn [map oneOf firstFit]. rewrite run_word by exact Htok.
    now destruct (afterFit tok p s g k).
  - change (oneOf (map word (tok :: tok2 :: rest)))
      with (Alt (word tok) (oneOf (map word (tok2 :: rest)))).
    cbn [run firstFit]. rewrite run_word by exact Htok.
    rewrite IH by (discriminate || exact Hrest). reflexivity.
Qed.

Lemma atom_lowered (l c : ascii) :
  existsb (Ascii.eqb l) ["x"; "s"; "m"; "l"]%char = true ->
  atomAccepts true (Lit l) (lowerChar c) = Ascii.eqb l (lowerChar c).
Proof.
  intros Hl. cbn in Hl. rewrite orb_false_r in Hl.
  repeat (apply orb_prop in Hl as [Hl|Hl]);
    apply Ascii.eqb_eq in Hl; subst l;
    destruct c as [[|] [|] [|] [|] [|] [|] [|] [|]]; vm_compute; reflexivity.
Qed.

Lemma fits_lowered (tok : string) :
  tokenLike tok = true ->
  forall p x,
    fits tok p (lower x)
    = (fun post => (lastChar p tok, post)) <$> afterPrefix tok (lower x).
Proof.
  unfold tokenLike. intros H. apply andb_prop in H as [_ H].
  induction tok as [|a tok IH]; intros p x; [reflexivity|].
  cbn [allOf] in H. apply andb_prop in H as [Ha Htok].
  destruct x as [|c x]; [reflexivity|].
  change (lower (String c x)) with (String (lowerChar c) (lower x)).
  cbn [fits afterPrefix lastChar]. rewrite atom_lowered.
  2:{ cbn in Ha |- *. rewrite !(Ascii.eqb_sym a). exact Ha. }
  destruct (Ascii.eqb a (lowerChar c)) eqn:He; [|reflexivity].
  rewrite (IH Htok).
  apply Ascii.eqb_eq in He. now rewrite <- He.
Qed.

Lemma afterPrefix_spec (tok s post : string) :
  afterPrefix tok s = Some post <-> s = tok ++ post.
Proof.
  revert s. induction tok as [|a tok IH]; intros s; cbn [afterPrefix].
  - cbn. split; [intros [= ->]; reflexivity|intros ->; reflexivity].
  - destruct s as [|c s]; [split; discriminate|].
    rewrite app_cons. destruct (Ascii.eqb_spec a c) as [->|Hne].
    + rewrite IH. split; [intros ->; reflexivity|intros [= ->]; reflexivity].
    + split; [discriminate|]. intros [= Hc _]. congruence.
Qed.

Lemma matchAt_alpha (prev : option ascii) (s : string) :
  matchAt true alphaPattern prev s
  = if xorb (wordBefore (State prev s [])) (wordAhead (State prev s []))
    then firstFit alphaTokens prev s [] (boundaryAfter (State prev s []))
    else None.
Proof.
  unfold matchAt, alphaPattern. cbn [seq run].
  destruct (xorb _ _); [|reflexivity].
  fold alphaTokens.
  rewrite run_oneOf;
    [reflexivity|discriminate|repeat constructor; discriminate].
Qed.

Lemma token_last (tok : string) (prev : option ascii) :
  tokenLike tok = true ->
  exists c, lastChar prev tok = Some c /\ isWordChar c = true.
Proof.
  unfold tokenLike. intros H. apply andb_prop in H as [Hne H].
  revert prev. induction tok as [|a tok IH]; intros prev; [discriminate Hne|].
  cbn [allOf] in H. apply andb_prop in H as [Ha Htok].
  cbn [lastChar]. destruct tok as [|b tok].
  - exists a. split; [reflexivity|]. cbn in Ha. rewrite orb_false_r in Ha.
    repeat (apply orb_prop in Ha as [Ha|Ha]);
      apply Ascii.eqb_eq in Ha; subst a; reflexivity.
  - apply IH; [reflexivity|exact Htok].
Qed.

Lemma token_first (tok post : string) :
  tokenLike tok = true ->
  wordAhead (State None (tok ++ post) []) = true.
Proof.
  unfold tokenLike. intros H. apply andb_prop in H as [Hne H].
  destruct tok as [|a tok]; [discriminate Hne|].
  cbn [allOf] in H. apply andb_prop in H as [Ha _].
  cbn in Ha |- *. rewrite orb_false_r in Ha.
  repeat (apply orb_prop in Ha as [Ha|Ha]);
    apply Ascii.eqb_eq in Ha; subst a; reflexivity.
Qed.

Lemma firstFit_find (toks : list string) (prev : option ascii) (x : string) :
  forallb tokenLike toks = true ->
  (fun r => getGroup 1 (groups r))
    <$> firstFit toks prev (lower x) [] (boundaryAfter (State prev (lower x) []))
  = Some <$> find (standsAfter (lower x)) toks.
Proof.
  set (s := lower x). intros Hall.
  induction toks as [|tok rest IH]; [reflexivity|].
  cbn [forallb] in Hall. apply andb_prop in Hall as [Htok Hrest].
  cbn [firstFit find]. unfold afterFit, standsAfter at 1.
  unfold s at 1. rewrite (fits_lowered tok Htok). fold s.
  destruct (afterPrefix tok s) as [post|] eqn:Hp; cbn [fmap option_fmap option_map];
    [|now apply IH].
  apply afterPrefix_spec in Hp.
  destruct (token_last tok prev Htok) as (c & Hc & Hw).
  unfold boundaryAfter at 1. rewrite Hp, consumed_prefix.
  unfold setGroup, wordBefore, wordAhead. cbn [before ahead groups].
  rewrite Hc, Hw. cbn [xorb].
  assert (Hn : (if match post with
                   | String d _ => isWordChar d
                   | EmptyString => false
                   end then false else true) = nonWord (firstChar post)).
  { destruct post as [|d post']; [reflexivity|].
    cbn. destruct (isWordChar d); reflexivity. }
  rewrite Hn. destruct (nonWord (firstChar post)).
  - reflexivity.
  - rewrite <- Hp. now apply IH.
Qed.

Lemma find_guarded {B : Type} (c : bool) (f : B -> bool) (l : list B) :
  find (fun x => c && f x) l = if c then find f l else None.
Proof.
  destruct c; cbn; [reflexivity|]. induction l; [reflexivity|exact IHl].
Qed.

Lemma standsAfter_ahead (s tok : string) (prev : option ascii) :
  tokenLike tok = true -> standsAfter s tok = true ->
  wordAhead (State prev s []) = true.
Proof.
  intros Htok H. unfold standsAfter in H.
  destruct (afterPrefix tok s) as [post|] eqn:Hp; [|discriminate].
  apply afterPrefix_spec in Hp. subst s.
  exact (token_first tok post Htok).
Qed.

(** One attempt of the alpha pattern at a position of a lower-cased text
    finds the token that stands alone there. *)
Lemma alpha_at (prev : option ascii) (x : string) :
  (fun r => getGroup 1 (groups r))
    <$> matchAt true alphaPattern prev (lower x)
  = Some <$> find (standsAt prev (lower x)) alphaTokens.
Proof.
  rewrite matchAt_alpha.
  pose proof (firstFit_find alphaTokens prev x eq_refl) as Hf.
  unfold standsAt. rewrite (find_guarded (nonWord prev)).
  fold (standsAfter (lower x)).
  change (fun tok => standsAfter (lower x) tok) with (standsAfter (lower x)).
  assert (Hwb : wordBefore (State prev (lower x) []) = negb (nonWord prev)).
  { unfold wordBefore. cbn. destruct prev; cbn; [now rewrite negb_involutive|reflexivity]. }
  rewrite Hwb.
  destruct (find (standsAfter (lower x)) alphaTokens) as [tok|] eqn:Hfind.
  - apply find_some in Hfind as [Hin Hst].
    assert (Htok : tokenLike tok = true).
    { cbn in Hin. repeat destruct Hin as [<-|Hin]; try contradiction; reflexivity. }
    rewrite (standsAfter_ahead _ tok prev Htok Hst).
    destruct (nonWord prev); cbn [negb xorb]; [exact Hf|reflexivity].
  - destruct (firstFit alphaTokens prev (lower x) [] _);
      [cbn in Hf; discriminate Hf|].
    destruct (xorb _ _), (nonWord prev); reflexivity.
Qed.

Lemma alpha_search (x : string) :
  forall prev,
    (fun r => getGroup 1 (groups r))
      <$> searchFrom true alphaPattern prev (lower x)
    = Some <$> firstStandalone alphaTokens prev (lower x).
Proof.
  induction x as [|c x IH]; intros prev.
  - pose proof (alpha_at prev "") as H.
    change (lower "") with "" in *. cbn [searchFrom firstStandalone].
    destruct (matchAt true alphaPattern prev "") as [r|],
      (find (standsAt prev "") alphaTokens) as [tok|];
      cbn in H |- *; congruence.
  - pose proof (alpha_at prev (String c x)) as H.
    change (lower (String c x)) with (String (lowerChar c) (lower x)) in *.
    cbn [searchFrom firstStandalone].
    destruct (matchAt true alphaPattern prev _) as [r|],
      (find (standsAt prev _) alphaTokens) as [tok|];
      cbn in H |- *; try congruence.
    apply IH.
Qed.

Lemma firstStandalone_In (toks : list string) (s : string) :
  forall prev tok, firstStandalone toks prev s = Some tok -> In tok toks.
Proof.
  induction s as [|c s IH]; intros prev tok; cbn [firstStandalone];
    destruct (find (standsAt prev _) toks) as [t|] eqn:Hf.
  - intros [= <-]. now apply find_some in Hf.
  - discriminate.
  - intros [= <-]. now apply find_some in Hf.
  - apply IH.
Qed.

Lemma standsAt_spec (prev : option ascii) (s tok : string) :
  standsAt prev s tok = true
  <-> nonWord prev = true
      /\ exists post, s = tok ++ post /\ nonWord (firstChar post) = true.
Proof.
  unfold standsAt. rewrite andb_true_iff. split.
  - intros [H1 H2]. split; [exact H1|].
    destruct (afterPrefix tok s) as [post|] eqn:Hp; [|discriminate].
    apply afterPrefix_spec in Hp. now exists post.
  - intros [H1 (post & Hs & H2)]. split; [exact H1|].
    apply afterPrefix_spec in Hs. now rewrite Hs.
Qed.

Lemma find_none_all {B : Type} (f : B -> bool) (l : list B) (x : B) :
  find f l = None -> In x l -> f x = false.
Proof. intros H. exact (find_none f l H x). Qed.

(** What [firstStandalone] returns stands alone in the text, and no
    token stands alone further to the left. *)
Lemma firstStandalone_first (toks : list string) (s : string) :
  forall prev tok,
    firstStandalone toks prev s = Some tok ->
    exists pre post,
      s = pre ++ tok ++ post
      /\ In tok toks
      /\ nonWord (lastChar prev pre) = true
      /\ nonWord (firstChar post) = true
      /\ forall pre' tok' post',
           s = pre' ++ tok' ++ post' -> In tok' toks ->
           nonWord (lastChar prev pre') = true ->
           nonWord (firstChar post') = true ->
           (String.length pre <= String.length pre')%nat.
Proof.
  induction s as [|c s IH]; intros prev tok; cbn [firstStandalone];
    destruct (find (standsAt prev _) toks) as [t|] eqn:Hf.
  - intros [= <-]. apply find_some in Hf as [Hin Hst].
    apply standsAt_spec in Hst as (Hprev & post & Hs & Hpost).
    exists "", post. cbn [lastChar String.length]. repeat split; auto.
    intros. lia.
  - discriminate.
  - intros [= <-]. apply find_some in Hf as [Hin Hst].
    apply standsAt_spec in Hst as (Hprev & post & Hs & Hpost).
    exists "", post. cbn [lastChar String.length]. repeat split; auto.
    intros. lia.
  - intros Hfs. apply IH in Hfs as (pre & post & Hs & Hin & Hb & Ha & Hmin).
    exists (String c pre), post. rewrite app_cons, <- Hs.
    cbn [lastChar]. repeat split; auto.
    intros pre' tok' post' Hs' Hin' Hb' Ha'.
    destruct pre' as [|c' pre'].
    + exfalso. rewrite app_empty in Hs'.
      assert (Hst : standsAt prev (String c s) tok' = true).
      { apply standsAt_spec. split; [exact Hb'|]. now exists post'. }
      rewrite (find_none_all _ _ tok' Hf Hin') in Hst. discriminate Hst.
    + rewrite app_cons in Hs'. injection Hs' as <- Hs'.
      cbn [lastChar] in Hb'. cbn [String.length].
      specialize (Hmin pre' tok' post' Hs' Hin' Hb' Ha'). lia.
Qed.

Lemma firstStandalone_none (toks : list string) (s : string) :
  forall prev,
    firstStandalone toks prev s = None ->
    forall pre tok post,
      s = pre ++ tok ++ post -> In tok toks ->
      nonWord (lastChar prev pre) && nonWord (firstChar post) = false.
Proof.
  induction s as [|c s IH]; intros prev; cbn [firstStandalone];
    destruct (find (standsAt prev _) toks) as [t|] eqn:Hf; try discriminate.
  - intros _ pre tok post Hs Hin.
    destruct pre as [|c' pre]; [|discriminate Hs].
    rewrite app_empty in Hs. cbn [lastChar].
    apply not_true_is_false. intros H. apply andb_prop in H as [Hb Ha].
    assert (Hst : standsAt prev "" tok = true).
    { apply standsAt_spec. split; [exact Hb|]. now exists post. }
    rewrite (find_none_all _ _ tok Hf Hin) in Hst. discriminate Hst.
  - intros Hfs pre tok post Hs Hin.
    destruct pre as [|c' pre].
    + rewrite app_empty in Hs. cbn [lastChar].
      apply not_true_is_false. intros H. apply andb_prop in H as [Hb Ha].
      assert (Hst : standsAt prev (String c s) tok = true).
      { apply standsAt_spec. split; [exact Hb|]. now exists post. }
      rewrite (find_none_all _ _ tok Hf Hin) in Hst. discriminate Hst.
    + rewrite app_cons in Hs. injection Hs as <- Hs. cbn [lastChar].
      exact (IH (Some c) Hfs pre tok post Hs Hin).
Qed.

(** What the parser finds is the first standalone token, normalised. *)
Lemma alphaFound_first (x : string) :
  alphaFound (lower x)
  = firstStandalone alphaTokens None (lower x) ≫= normalizeAlphaSize.
Proof.
  pose proof (alpha_search x None) as H. unfold alphaFound, captured, exec.
  destruct (searchFrom true alphaPattern None (lower x)) as [r|];
    destruct (firstStandalone alphaTokens None (lower x)) as [tok|] eqn:Hfs;
    cbn in H |- *; try discriminate H; [|reflexivity].
  injection H as H. rewrite H.
  apply firstStandalone_In in Hfs. cbn in Hfs.
  repeat destruct Hfs as [<-|Hfs]; try contradiction; reflexivity.
Qed.

(** C10, as the code has it.  The alpha size of the result does not
    depend on the schema and is one of XXS ... XXXL or null.  The parser
    takes the first standalone token of the lower-cased text among xxxs,
    xxs, xs, s, m, l, xl, xxl, xxxl: a token with no word character
    touching it on either side, and with no such token starting further
    to the left.  When that token is one of xxs ... xxxl the alpha size
    is the token in upper case; when there is no standalone token it is
    null.  (When the token is xxxs, which [normalizeAlphaSize] does not
    know, it is null as well, whatever follows.)  So "I'm 180, 82,
    size 50" gives 'M', the apostrophe being a word boundary, and so does
    "my size is M".  Word aliases are not tokens of the pattern. *)
Theorem alpha_token_capture (text : JsValue) (schema schema' : option Schema) :
  let out := parseUserInput text schema in
  let t := lower (toStr text) in
  Out.alpha_size out = Out.alpha_size (parseUserInput text schema')
  /\ (forall a, Out.alpha_size out = Some a ->
                In a ["XXS"; "XS"; "S"; "M"; "L"; "XL"; "XXL"; "XXXL"])
  /\ (forall tok, firstStandalone alphaTokens None t = Some tok ->
                  tok <> "xxxs" ->
                  Out.alpha_size out = Some (toUpperCase tok))
  /\ (firstStandalone alphaTokens None t = None -> Out.alpha_size out = None)
  /\ (firstStandalone alphaTokens None t = Some "xxxs" ->
      Out.alpha_size out = None)
  /\ (forall tok, firstStandalone alphaTokens None t = Some tok ->
        exists pre post,
          t = pre ++ tok ++ post
          /\ In tok alphaTokens
          /\ standsAlone pre post = true
          /\ forall pre' tok' post',
               t = pre' ++ tok' ++ post' -> In tok' alphaTokens ->
               standsAlone pre' post' = true ->
               (String.length pre <= String.length pre')%nat)
  /\ (firstStandalone alphaTokens None t = None ->
      forall pre tok post,
        t = pre ++ tok ++ post -> In tok alphaTokens ->
        standsAlone pre post = false)
  /\ Out.alpha_size (parseUserInput (JsText "I'm 180, 82, size 50") schema)
     = Some "M"
  /\ Out.alpha_size (parseUserInput (JsText "my size is M") schema)
     = Some "M".
Proof.
  cbn zeta. rewrite !parse_alpha.
  split; [reflexivity|].
  split; [|split; [|split; [|split; [|split; [|split; [|split]]]]]].
  - intros a Ha. unfold alphaFound in Ha.
    destruct (captured _ 1) as [found|]; [|discriminate].
    exact (normalizeAlphaSize_range found a Ha).
  - intros tok Hfs Hne. rewrite alphaFound_first, Hfs. cbn.
    apply firstStandalone_In in Hfs. cbn in Hfs.
    repeat destruct Hfs as [<-|Hfs]; try contradiction;
      (reflexivity || (exfalso; now apply Hne)).
  - intros Hfs. now rewrite alphaFound_first, Hfs.
  - intros Hfs. now rewrite alphaFound_first, Hfs.
  - intros tok Hfs.
    apply firstStandalone_first in Hfs
      as (pre & post & Hs & Hin & Hb & Ha & Hmin).
    exists pre, post. unfold standsAlone. rewrite Hb, Ha.
    repeat split; auto.
    intros pre' tok' post' Hs' Hin' Halone.
    apply andb_prop in Halone as [Hb' Ha']. now apply (Hmin pre' tok' post').
  - intros Hfs pre tok post Hs Hin.
    exact (firstStandalone_none _ _ None Hfs pre tok post Hs Hin).
  - vm_compute. reflexivity.
  - vm_compute. reflexivity.
Qed.

Lemma alpha_token_capture_witness :
  firstStandalone alphaTokens None (lower (toStr (JsText "My size is M, or XL")))
  = Some "m"
  /\ Out.alpha_size
       (parseUserInput (JsText "My size is M, or XL") (Some collarSchema))
     = Some "M".
Proof.
  assert (H : firstStandalone alphaTokens None
                (lower (toStr (JsText "My size is M, or XL"))) = Some "m")
    by (vm_compute; reflexivity).
  split; [exact H|].
  apply (proj1 (proj2 (proj2
           (alpha_token_capture (JsText "My size is M, or XL")
              (Some collarSchema) None))) "m" H).
  discriminate.
Defined.

(** C10, as stated, fails: a word alias is not captured, although
    [normalizeAlphaSize] knows it. *)
Lemma word_alias_not_captured :
  (forall schema,
      Out.alpha_size (parseUserInput (JsText "medium") schema) = None)
  /\ normalizeAlphaSize "medium" = Some "M".
Proof.
  split; intros; rewrite ?parse_alpha; vm_compute; reflexivity.
Qed.

Lemma numbers_absent (t : string) :
  lacks isDigit t = true ->
  parseExplicit t = Out.setAlpha (alphaFound t) Out.empty.
Proof.
  intros Hl. unfold parseExplicit, alphaFound.
  set (cap := captured (exec true alphaPattern t) 1). clearbody cap.
  rewrite !(exec_none isDigit _ _ t) by (assumption || (vm_compute; reflexivity)).
  cbn. destruct cap as [tok|]; [destruct (normalizeAlphaSize tok)|];
    reflexivity.
Qed.

Lemma letters_absent (t : string) :
  lacks sizeLetter t = true -> alphaFound t = None.
Proof.
  intros Hl. unfold alphaFound.
  rewrite (exec_none sizeLetter true alphaPattern t);
    [reflexivity|vm_compute; reflexivity|exact Hl].
Qed.

Lemma within_range (lo hi n : Z) : within lo hi n = true -> lo <= n <= hi.
Proof. unfold within. intros H. apply andb_prop in H as [H1 H2]. lia. Qed.

Lemma resolve_slot (explicit current : option Z) (directed : bool)
    (lo hi n : Z) (t : string) :
  bareNumber t n ->
  directed && (negb (truthy current) && within lo hi n) = true ->
  resolved explicit (Some n) directed lo hi t.
Proof.
  intros Hb Hc. apply andb_prop in Hc as [Hd Hc].
  apply andb_prop in Hc as [_ Hw]. apply within_range in Hw.
  right. split; [exact Hd|]. exists n. auto.
Qed.

Lemma assignBare_resolved (schema : option Schema) (t : string) (e : Out.t)
    (st : Out.t * gmap Z nat) (token : string) :
  In token (matchAll false barePattern t) ->
  resolvedFields schema t e (fst st) ->
  resolvedFields schema t e (fst (assignBare schema st token)).
Proof.
  destruct st as [out used]. cbn [fst].
  intros Hin (Hh & Hw & Hu & Hs & Hwa & Ham).
  unfold assignBare. destruct (parseIntSafe token) as [n|] eqn:Hn;
    [|repeat split; assumption].
  assert (Hb : bareNumber t n) by (exists token; auto).
  destruct (negb (usedCount used n =? 0)%nat); [repeat split; assumption|].
  destruct (negb (truthy (Out.height_cm out)) && within 140 210 n) eqn:C1.
  { cbn [fst]. repeat split; try assumption.
    apply (resolve_slot _ (Out.height_cm out)); [exact Hb|exact C1]. }
  destruct (systemIs schema SHIRT_COLLAR_EU && _) eqn:C2.
  { cbn [fst]. repeat split; try assumption.
    apply (resolve_slot _ (Out.shirt_size_eu out)); [exact Hb|exact C2]. }
  destruct (systemIs schema WAIST_INCH && _) eqn:C3.
  { cbn [fst]. repeat split; try assumption.
    apply (resolve_slot _ (Out.waist_inch out)); [exact Hb|exact C3]. }
  destruct (systemIs schema EU_NUMERIC && _) eqn:C4.
  { cbn [fst]. repeat split; try assumption.
    apply (resolve_slot _ (Out.usual_size_eu out)); [exact Hb|exact C4]. }
  destruct (negb (truthy (Out.weight_kg out)) && within 40 180 n) eqn:C5.
  { cbn [fst]. repeat split; try assumption.
    apply (resolve_slot _ (Out.weight_kg out)); [exact Hb|exact C5]. }
  cbn [fst]. repeat split; try assumption.
  cbn [Out.pushAmbiguous Out.ambiguous_numbers]. intros m Hm.
  apply in_app_or in Hm as [Hm|[<-|[]]]; [now apply Ham|exact Hb].
Qed.

Lemma loop_resolved (schema : option Schema) (t : string) (e : Out.t)
    (tokens : list string) :
  (forall tok, In tok tokens -> In tok (matchAll false barePattern t)) ->
  forall st,
    resolvedFields schema t e (fst st) ->
    resolvedFields schema t e (fst (fold_left (assignBare schema) tokens st)).
Proof.
  induction tokens as [|tok rest IH]; intros Hsub st H; cbn [fold_left];
    [exact H|].
  apply IH; [intros tk Htk; apply Hsub; now right|].
  apply assignBare_resolved; [apply Hsub; now left|exact H].
Qed.

Lemma parseExplicit_ambiguous (t : string) :
  Out.ambiguous_numbers (parseExplicit t) = [].
Proof.
  unfold parseExplicit.
  repeat match goal with
         | |- context [match ?x with _ => _ end] => destruct x
         end; reflexivity.
Qed.

Lemma before_reconcile_resolved (t : string) (schema : option Schema) :
  resolvedFields schema t (parseExplicit t) (parseBeforeReconcile t schema).
Proof.
  unfold parseBeforeReconcile. apply loop_resolved; [auto|]. cbn [fst].
  repeat split; try (left; reflexivity).
  rewrite parseExplicit_ambiguous. intros n [].
Qed.

Lemma resolved_undirected (explicit final : option Z) (lo hi : Z) (t : string) :
  resolved explicit final false lo hi t -> final = explicit.
Proof. intros [H|(H & _)]; [exact H|discriminate H]. Qed.

Lemma systems_differ (schema : option Schema) :
  systemIs schema SHIRT_COLLAR_EU = true -> systemIs schema EU_NUMERIC = false.
Proof.
  unfold systemIs. destruct schema as [s|]; [|discriminate].
  destruct (system s); cbn; congruence.
Qed.

(** What a field of the result holds was resolved from the text. *)
Lemma parse_resolved (s : string) (schema : option Schema) :
  let t := lower s in
  let e := parseExplicit t in
  let out := parseUserInput (JsText s) schema in
  (forall n, Out.height_cm out = Some n ->
     Out.height_cm e = Some n \/ (bareNumber t n /\ 140 <= n <= 210))
  /\ (forall n, Out.weight_kg out = Some n ->
     Out.weight_kg e = Some n \/ (bareNumber t n /\ 40 <= n <= 180))
  /\ (forall n, Out.usual_size_eu out = Some n ->
     Out.usual_size_eu e = Some n
     \/ (systemIs schema EU_NUMERIC = true
         /\ bareNumber t n /\ 34 <= n <= 60))
  /\ (forall n, Out.shirt_size_eu out = Some n ->
     Out.shirt_size_eu e = Some n
     \/ (systemIs schema SHIRT_COLLAR_EU = true /\ 37 <= n <= 46
         /\ (bareNumber t n \/ Out.usual_size_eu e = Some n)))
  /\ (forall n, Out.waist_inch out = Some n ->
     Out.waist_inch e = Some n
     \/ (systemIs schema WAIST_INCH = true
         /\ bareNumber t n /\ 24 <= n <= 48))
  /\ (forall n, In n (Out.ambiguous_numbers out) -> bareNumber t n).
Proof.
  cbn zeta. unfold parseUserInput. cbn [toStr].
  destruct (String.eqb_spec (lower s) "") as [Ht|Ht].
  { cbn. repeat split; intros n H; (discriminate H || contradiction). }
  destruct (before_reconcile_resolved (lower s) schema)
    as (Hh & Hw & Hu & Hs & Hwa & Ham).
  set (pre := parseBeforeReconcile (lower s) schema) in *.
  set (e := parseExplicit (lower s)) in *.
  assert (Hslot : forall explicit final directed lo hi n,
            resolved explicit final directed lo hi (lower s) ->
            final = Some n ->
            explicit = Some n
            \/ (directed = true /\ bareNumber (lower s) n /\ lo <= n <= hi)).
  { intros explicit final directed lo hi n [->|(Hd & m & -> & Hm & Hb)] Hf.
    - now left.
    - injection Hf as <-. right. auto. }
  unfold reconcile.
  destruct (systemIs schema SHIRT_COLLAR_EU && _) eqn:Hc.
  - apply andb_prop in Hc as [Hsys Hc]. apply andb_prop in Hc as [Hc Hband].
    apply andb_prop in Hc as [Hshirt Husual].
    rewrite (systems_differ schema Hsys) in Hu.
    apply resolved_undirected in Hu.
    cbn [Out.setUsual Out.setShirt Out.height_cm Out.weight_kg
         Out.usual_size_eu Out.shirt_size_eu Out.waist_inch
         Out.ambiguous_numbers].
    split; [intros n Hn; destruct (Hslot _ _ _ _ _ n Hh Hn) as [H|(_ & H1 & H2)]; auto|].
    split; [intros n Hn; destruct (Hslot _ _ _ _ _ n Hw Hn) as [H|(_ & H1 & H2)]; auto|].
    split; [intros n Hn; discriminate Hn|].
    split; [|split; [intros n; apply Hslot with (1 := Hwa)|exact Ham]].
    intros n Hn. right. split; [exact Hsys|]. rewrite Hn in Hband.
    unfold inBand in Hband. cbn in Hband.
    split; [now apply within_range|]. right. now rewrite <- Hu.
  - split; [intros n Hn; destruct (Hslot _ _ _ _ _ n Hh Hn) as [H|(_ & H1 & H2)]; auto|].
    split; [intros n Hn; destruct (Hslot _ _ _ _ _ n Hw Hn) as [H|(_ & H1 & H2)]; auto|].
    split; [intros n; apply Hslot with (1 := Hu)|].
    split; [|split; [intros n; apply Hslot with (1 := Hwa)|exact Ham]].
    intros n Hn. destruct (Hslot _ _ _ _ _ n Hs Hn) as [H|(H1 & H2 & H3)];
      [now left|]. right. auto.
Qed.

Lemma parseExplicit_phrases (t : string) :
  let e := parseExplicit t in
  (forall n, Out.height_cm e = Some n -> phrase false heightPattern 1 t n)
  /\ (forall n, Out.weight_kg e = Some n -> phrase false weightPattern 1 t n)
  /\ (forall n, Out.usual_size_eu e = Some n ->
        phrase false euPattern 1 t n \/ phrase false sizeWordPattern 1 t n)
  /\ (forall n, Out.shirt_size_eu e = Some n -> phrase false shirtPattern 2 t n)
  /\ (forall n, Out.waist_inch e = Some n ->
        phrase true waistPrefixPattern 1 t n
        \/ phrase true waistSuffixPattern 1 t n).
Proof.
  cbn zeta. unfold parseExplicit, phrase.
  destruct (captured (exec true alphaPattern t) 1) as [a|];
    [destruct (normalizeAlphaSize a)|];
    (destruct (captured (exec true waistPrefixPattern t) 1) as [d1|] eqn:H1;
     [destruct (parseIntSafe d1) eqn:P1|
      destruct (captured (exec true waistSuffixPattern t) 1) as [d2|] eqn:H2;
      [destruct (parseIntSafe d2) eqn:P2|]]);
    (destruct (captured (exec false heightPattern t) 1) as [d3|] eqn:H3);
    (destruct (captured (exec false weightPattern t) 1) as [d4|] eqn:H4);
    (destruct (captured (exec false euPattern t) 1) as [d5|] eqn:H5);
    cbn [Out.setAlpha Out.setWaist Out.setHeight Out.setWeight Out.setUsual
         Out.setShirt Out.empty Out.height_cm Out.weight_kg Out.usual_size_eu
         Out.shirt_size_eu Out.waist_inch];
    try (destruct (negb (truthy (parseIntSafe d5))));
    cbn [negb truthy];
    (destruct (captured (exec false sizeWordPattern t) 1) as [d6|] eqn:H6);
    (destruct (captured (exec false shirtPattern t) 2) as [d7|] eqn:H7);
    cbn [Out.setAlpha Out.setWaist Out.setHeight Out.setWeight Out.setUsual
         Out.setShirt Out.empty Out.height_cm Out.weight_kg Out.usual_size_eu
         Out.shirt_size_eu Out.waist_inch];
    repeat split; intros n Hn; try discriminate Hn;
    try (injection Hn as <-); eauto 6.
Qed.

(** C8, as the code has it.  [parseUserInput] throws exactly when
    [String] throws on the text; on every other value (null, undefined,
    the empty string, any text, any value [String] prints) and for any
    schema, present or not, it returns a record.  A field of the record
    stays null unless the text resolves it.  A number is in a numeric
    field only when the field's explicit phrase captured it in the text,
    or when it is a bare number of the text within the field's band
    (height 140-210, weight 40-180, and, when the schema's system directs
    it, usual size 34-60, collar 37-46, waist 24-48); the shirt size of a
    collar schema may also be the explicit usual size within 37-46.  An
    ambiguous number is a bare number of the text.  The alpha size is the
    normalised first standalone size token.  So an empty text gives the
    empty record, a text without a digit leaves every numeric field null,
    and a text without any of the letters x, s, m, l leaves the alpha
    size null. *)
Theorem parse_leaves_unresolved_null (input : Input) (schema : option Schema) :
  (parseUserInputOf input schema = None <-> input = Unprintable)
  /\ parseUserInputOf Nullish schema = Some Out.empty
  /\ parseUserInputOf (Printed "") schema = Some Out.empty
  /\ (forall s, toStrOf input = Some s ->
      let t := lower s in
      exists out,
        parseUserInputOf input schema = Some out
        /\ (t = "" -> out = Out.empty)
        /\ (forall n, Out.height_cm out = Some n ->
              phrase false heightPattern 1 t n
              \/ (bareNumber t n /\ 140 <= n <= 210))
        /\ (forall n, Out.weight_kg out = Some n ->
              phrase false weightPattern 1 t n
              \/ (bareNumber t n /\ 40 <= n <= 180))
        /\ (forall n, Out.usual_size_eu out = Some n ->
              phrase false euPattern 1 t n
              \/ phrase false sizeWordPattern 1 t n
              \/ (systemIs schema EU_NUMERIC = true
                  /\ bareNumber t n /\ 34 <= n <= 60))
        /\ (forall n, Out.shirt_size_eu out = Some n ->
              phrase false shirtPattern 2 t n
              \/ (systemIs schema SHIRT_COLLAR_EU = true /\ 37 <= n <= 46
                  /\ (bareNumber t n
                      \/ phrase false euPattern 1 t n
                      \/ phrase false sizeWordPattern 1 t n)))
        /\ (forall n, Out.waist_inch out = Some n ->
              phrase true waistPrefixPattern 1 t n
              \/ phrase true waistSuffixPattern 1 t n
              \/ (systemIs schema WAIST_INCH = true
                  /\ bareNumber t n /\ 24 <= n <= 48))
        /\ (forall n, In n (Out.ambiguous_numbers out) -> bareNumber t n)
        /\ (forall a, Out.alpha_size out = Some a ->
              exists tok, firstStandalone alphaTokens None t = Some tok
                          /\ normalizeAlphaSize tok = Some a)
        /\ (lacks isDigit t = true ->
            Out.height_cm out = None /\ Out.weight_kg out = None
            /\ Out.usual_size_eu out = None /\ Out.shirt_size_eu out = None
            /\ Out.waist_inch out = None /\ Out.ambiguous_numbers out = [])
        /\ (lacks sizeLetter t = true -> Out.alpha_size out = None)).
Proof.
  split.
  { destruct input; cbn; split; intros H; congruence. }
  split; [reflexivity|]. split; [reflexivity|].
  intros s Hs. cbn zeta. unfold parseUserInputOf. rewrite Hs.
  cbn [fmap option_fmap option_map].
  eexists. split; [reflexivity|].
  destruct (parse_resolved s schema) as (Hh & Hw & Hu & Hsh & Hwa & Ham).
  destruct (parseExplicit_phrases (lower s)) as (Eh & Ew & Eu & Esh & Ewa).
  split.
  { intros Ht. unfold parseUserInput. cbn [toStr]. now rewrite Ht. }
  split.
  { intros n Hn. destruct (Hh n Hn) as [H|H]; [left; now apply Eh|now right]. }
  split.
  { intros n Hn. destruct (Hw n Hn) as [H|H]; [left; now apply Ew|now right]. }
  split.
  { intros n Hn. destruct (Hu n Hn) as [H|H]; [|now right; right].
    destruct (Eu n H); [now left|now right; left]. }
  split.
  { intros n Hn. destruct (Hsh n Hn) as [H|(H1 & H2 & [H3|H3])].
    - left. now apply Esh.
    - right. auto.
    - right. split; [exact H1|]. split; [exact H2|]. right. now apply Eu. }
  split.
  { intros n Hn. destruct (Hwa n Hn) as [H|H]; [|now right; right].
    destruct (Ewa n H); [now left|now right; left]. }
  split; [exact Ham|].
  split.
  { intros a Ha. rewrite parse_alpha in Ha. cbn [toStr] in Ha.
    rewrite alphaFound_first in Ha.
    destruct (firstStandalone alphaTokens None (lower s)) as [tok|];
      [|discriminate Ha].
    exists tok. split; [reflexivity|exact Ha]. }
  split.
  - intros Hl. unfold parseUserInput. cbn [toStr].
    destruct (String.eqb _ ""); [repeat split|].
    unfold parseBeforeReconcile, matchAll.
    rewrite (scanAll_nil isDigit) by (assumption || (vm_compute; reflexivity)).
    rewrite (numbers_absent _ Hl). cbn.
    unfold reconcile. cbn. rewrite andb_false_r. cbn. repeat split.
  - intros Hl. rewrite parse_alpha. now apply letters_absent.
Qed.

Lemma parse_leaves_unresolved_null_witness :
  exists out,
    parseUserInputOf (Printed "Hello, no idea!") (Some Samples.euSchema)
    = Some out
    /\ Out.height_cm out = None /\ Out.weight_kg out = None
    /\ Out.usual_size_eu out = None /\ Out.shirt_size_eu out = None
    /\ Out.waist_inch out = None /\ Out.ambiguous_numbers out = [].
Proof.
  destruct (proj2 (proj2 (proj2
              (parse_leaves_unresolved_null (Printed "Hello, no idea!")
                 (Some Samples.euSchema)))) "Hello, no idea!" eq_refl)
    as (out & Hout & _ & _ & _ & _ & _ & _ & _ & _ & Hnone & _).
  exists out. split; [exact Hout|]. apply Hnone. vm_compute. reflexivity.
Defined.

(** C8, as stated, fails for a value that [String] cannot print, such as
    [Object.create(null)]: [toStr] throws, and so does the parser. *)
Lemma unprintable_text_throws :
  toStrOf Unprintable = None
  /\ forall schema, ~ exists out, parseUserInputOf Unprintable schema = Some out.
Proof.
  split; [reflexivity|]. intros schema (out & H). discriminate H.
Qed.

End Parser.

(** * Properties of the rest of the module *)

(** ** Missing inputs *)

Section MissingInputs.
Import JsString Regex Sizing Guardrails Analysis Stated Described Samples.

Lemma checkRequired_step (user : User.t) (missing : list string) (k : string) :
  checkRequired user missing k
  = if lacksInput user k then (missing ++ [k])%list else missing.
Proof.
  unfold checkRequired, lacksInput, pushWhen.
  destruct (String.eqb_spec k "height_cm") as [->|_];
    [cbn; destruct (truthy (User.height_cm user)); reflexivity|].
  destruct (String.eqb_spec k "weight_kg") as [->|_];
    [cbn; destruct (truthy (User.weight_kg user)); reflexivity|].
  destruct (String.eqb_spec k "usual_size_eu") as [->|_];
    [cbn; destruct (truthy (User.usual_size_eu user)); reflexivity|].
  destruct (String.eqb_spec k "shirt_size_eu") as [->|_];
    [cbn; destruct (truthy (User.shirt_size_eu user)); reflexivity|].
  destruct (String.eqb_spec k "alpha_size") as [->|_];
    [cbn; destruct (truthyStr (User.alpha_size user)); reflexivity|].
  destruct (String.eqb_spec k "waist_inch") as [->|_];
    [cbn; destruct (truthy (User.waist_inch user)); reflexivity|].
  reflexivity.
Qed.

Lemma missing_loop (user : User.t) (required : list string) :
  forall missing,
    fold_left (checkRequired user) required missing
    = (missing ++ List.filter (lacksInput user) required)%list.
Proof.
  induction required as [|k rest IH]; intros missing; cbn.
  - now rewrite app_nil_r.
  - rewrite IH, checkRequired_step.
    destruct (lacksInput user k); [|reflexivity].
    now rewrite <- app_assoc.
Qed.

Lemma missing_is_filter (schema : option Schema) (user : option User.t) :
  getMissingInputs schema user
  = List.filter (lacksInput (default User.empty user)) (getRequiredInputs schema).
Proof. unfold getMissingInputs. now rewrite missing_loop. Qed.

Lemma filter_sublist {B : Type} (f : B -> bool) (l : list B) :
  sublist (List.filter f l) l.
Proof.
  induction l as [|x rest IH]; cbn; [constructor|].
  destruct (f x); now constructor.
Qed.

(** X1. [getMissingInputs] reports exactly the required inputs the user
    has no value for, in the order of the required list: nothing outside
    that list, nothing the user gave, and nothing at all for a user who
    lacks no input. *)
Theorem missing_inputs_exact (schema : option Schema) (user : option User.t) :
  let u := default User.empty user in
  let missing := getMissingInputs schema user in
  (forall k, In k missing
             <-> In k (getRequiredInputs schema) /\ lacksInput u k = true)
  /\ sublist missing (getRequiredInputs schema)
  /\ ((forall k, In k (getRequiredInputs schema) -> lacksInput u k = false)
      -> missing = []).
Proof.
  cbn zeta. rewrite missing_is_filter. split; [|split].
  - intros k. apply filter_In.
  - apply filter_sublist.
  - intros Hall.
    induction (getRequiredInputs schema) as [|k rest IH]; [reflexivity|].
    cbn. rewrite (Hall k) by now left.
    apply IH. intros k' Hk'. apply Hall. now right.
Qed.

Lemma missing_inputs_exact_witness :
  getMissingInputs (Some euSchema)
    (Some {| User.height_cm := Some 178; User.weight_kg := Some 75;
             User.usual_size_eu := Some 48; User.shirt_size_eu := None;
             User.alpha_size := None; User.waist_inch := None |}) = [].
Proof.
  apply (proj2 (proj2 (missing_inputs_exact (Some euSchema) _))).
  intros k Hk. cbn in Hk.
  repeat destruct Hk as [<-|Hk]; try contradiction; reflexivity.
Defined.

End MissingInputs.

(** ** What the schema builders promise *)

Section Builders.
Import JsString Regex Sizing Guardrails Analysis Stated Described Samples.

Lemma general_required (c : Category) (g : option string) :
  let s := schemaForGeneral c g in
  required s = ["height_cm"; "weight_kg"; usualSizePromptKey (Some s)]
  /\ tailoredShirt s = false /\ askUsual s = true.
Proof.
  unfold schemaForGeneral, tailoredShirt.
  destruct (genderIs g "male"); [|destruct (genderIs g "female")];
    destruct c; repeat split.
Qed.

Lemma refine_required (c : Category) (g : option string) (values : list string) :
  let s := refineSchema (schemaForGeneral c g) values in
  required s
  = ["height_cm"; "weight_kg";
     if tailoredShirt s then "shirt_size_eu" else usualSizePromptKey (Some s)]
  /\ askUsual s = true.
Proof.
  unfold refineSchema, schemaForGeneral, tailoredShirt.
  destruct values as [|v rest]; cbv zeta.
  - destruct (genderIs g "male") eqn:Hm;
      [|destruct (genderIs g "female") eqn:Hf]; destruct c; cbn;
      rewrite ?Hm, ?Hf; repeat split.
  - generalize (detectSystemFromVariantValues (v :: rest)).
    generalize (existsb isTailoring (v :: rest)). intros tailoring detected.
    destruct (genderIs g "male") eqn:Hm;
      [|destruct (genderIs g "female") eqn:Hf]; destruct c, detected, tailoring;
      cbn; rewrite ?Hm, ?Hf; repeat split.
Qed.

Lemma built_required (s : Schema) :
  Built s ->
  required s
  = ["height_cm"; "weight_kg";
     if tailoredShirt s then "shirt_size_eu" else usualSizePromptKey (Some s)]
  /\ askUsual s = true.
Proof.
  intros [(c & g & ->)|(p & Hp)].
  - destruct (general_required c g) as (Hr & Ht & Ha).
    rewrite Ht. auto.
  - unfold detectSizeSchemaFromProduct in Hp. injection Hp as <-.
    exact (refine_required _ _ _).
Qed.

Lemma tailored_values_system (p : Product) (s : Schema) :
  mensShirt p ->
  detectSizeSchemaFromProduct (Some p) = Some s ->
  sizeValuesOf (Some p) <> [] ->
  Forall (fun v => numericWithin 47 60 v = true) (sizeValuesOf (Some p)) ->
  tailoredShirt s = true.
Proof.
  intros [Hg Hc] Hd Hne Hall. unfold tailoredShirt.
  rewrite (detected_system p s Hd Hne).
  destruct (detect_unfold p s Hd) as (_ & Hgs & Hcs).
  rewrite Hgs, Hcs, Hg, Hc. unfold appliedPriority.
  rewrite (existsb_none waistToken), (existsb_none alphaToken),
    (existsb_none collarNumber), (existsb_of_all isTailoring);
    [reflexivity|exact Hne|..];
    (eapply Forall_impl; [exact Hall|]); intros v Hv;
    destruct (numericWithin_facts 47 60 v Hv) as (Ha & Hw & Hb); auto.
  - unfold isTailoring. eapply inBand_narrow; [| |exact Hb]; lia.
  - unfold collarNumber. eapply inBand_apart; [|exact Hb]. lia.
Qed.

(** X2. Every schema the builders return asks for the usual size and
    requires height, weight and one size input.  That input is the one
    [usualSizePromptKey] names for the schema's system, except for a
    men's shirt that the product turned to EU numeric sizing: there the
    required input stays the shirt size.  A men's shirt whose size values
    are all numeric within 47-60 is such a schema. *)
Theorem built_schema_requires (s : Schema) :
  Built s ->
  askUsual s = true
  /\ required s
     = ["height_cm"; "weight_kg";
        if tailoredShirt s then "shirt_size_eu"
        else usualSizePromptKey (Some s)]
  /\ (forall p,
        mensShirt p ->
        detectSizeSchemaFromProduct (Some p) = Some s ->
        sizeValuesOf (Some p) <> [] ->
        Forall (fun v => numericWithin 47 60 v = true) (sizeValuesOf (Some p)) ->
        tailoredShirt s = true /\ usualSizePromptKey (Some s) = "usual_size_eu").
Proof.
  intros Hb. destruct (built_required s Hb) as [Hr Ha].
  split; [exact Ha|]. split; [exact Hr|].
  intros p Hm Hd Hne Hall.
  pose proof (tailored_values_system p s Hm Hd Hne Hall) as Ht.
  split; [exact Ht|]. unfold tailoredShirt in Ht.
  apply andb_prop in Ht as [_ Hsys]. unfold usualSizePromptKey.
  now destruct (system s).
Qed.

Lemma built_schema_requires_witness :
  exists s,
    detectSizeSchemaFromProduct (Some (shirtWith ["48"; "50"; "52"])) = Some s
    /\ required s = ["height_cm"; "weight_kg"; "shirt_size_eu"]
    /\ usualSizePromptKey (Some s) = "usual_size_eu".
Proof.
  eexists. split; [reflexivity|].
  match goal with
  | |- required ?s = _ /\ _ =>
      assert (Hb : Built s) by (right; eexists; reflexivity);
      destruct (built_schema_requires s Hb) as (_ & Hr & Hp);
      destruct (Hp (shirtWith ["48"; "50"; "52"])) as [Ht Hk]
  end.
  - split; vm_compute; reflexivity.
  - reflexivity.
  - vm_compute. discriminate.
  - apply forallb_Forall. vm_compute. reflexivity.
  - rewrite Hr, Ht. split; [reflexivity|exact Hk].
Defined.

End Builders.

(** ** More on the recommendation *)

Section RecommendMore.
Import JsString Regex Sizing Guardrails Analysis Stated Described Samples.

Lemma clamp_keeps_anchor (s : option Schema) (rec : Rec.t) :
  Rec.used_usual_as_anchor (clampRecommendationToProduct s rec)
  = Rec.used_usual_as_anchor rec.
Proof.
  unfold clampRecommendationToProduct.
  destruct (s ≫= _) as [[s' avail]|]; [|reflexivity].
  destruct (system s');
    match goal with |- context [if ?c then _ else _] => destruct c end;
    reflexivity.
Qed.

Lemma clamp_without_stock (s : Schema) (rec : Rec.t) :
  available s = None -> clampRecommendationToProduct (Some s) rec = rec.
Proof.
  intros Hav. unfold clampRecommendationToProduct. cbn. now rewrite Hav.
Qed.

Lemma recommend_field (schema : option Schema) (user : option User.t)
    (sys : SizeSystem) :
  sizeFieldGiven (recommend schema user) sys
  = SizeSystem_eqb sys (Rec.system (recommend schema user))
    && (hasAnchor (default User.empty user) (Rec.system (recommend schema user))
        || hasProportions (default User.empty user)).
Proof.
  unfold recommend. rewrite clamp_keeps_given, clamp_keeps_system.
  set (u := default User.empty user).
  set (s := default (schemaForGeneral UNKNOWN None) schema).
  unfold hasProportions.
  destruct (system s) eqn:Hsys.
  - destruct (truthy (User.usual_size_eu u)) eqn:Ha; destruct sys; cbn;
      rewrite ?Ha, ?deriveEu_given, ?(truthy_given _ Ha); reflexivity.
  - destruct (truthy (User.shirt_size_eu u)) eqn:Ha; destruct sys; cbn;
      rewrite ?Ha, ?deriveShirt_given, ?(truthy_given _ Ha); reflexivity.
  - destruct (truthyStr (User.alpha_size u)) eqn:Ha; destruct sys; cbn;
      rewrite ?Ha, ?deriveAlpha_given; try reflexivity.
    destruct (normalizeAlphaSize _); [reflexivity|].
    destruct (User.alpha_size u); [reflexivity|discriminate].
  - destruct (truthy (User.waist_inch u)) eqn:Ha; destruct sys; cbn;
      rewrite ?Ha, ?deriveWaist_given, ?(truthy_given _ Ha); reflexivity.
Qed.

Lemma recommend_system (schema : option Schema) (user : option User.t) :
  Rec.system (recommend schema user)
  = system (default (schemaForGeneral UNKNOWN None) schema).
Proof.
  unfold recommend. rewrite clamp_keeps_system.
  now destruct (system _);
    match goal with |- context [if ?c then _ else _] => destruct c end.
Qed.

Lemma recommend_anchor_flag (schema : option Schema) (user : option User.t) :
  Rec.used_usual_as_anchor (recommend schema user)
  = hasAnchor (default User.empty user)
      (system (default (schemaForGeneral UNKNOWN None) schema)).
Proof.
  unfold recommend. rewrite clamp_keeps_anchor.
  destruct (system _); cbn;
    match goal with |- context [if ?c then _ else _] => destruct c eqn:Hc end;
    cbn; now rewrite ?Hc.
Qed.

Lemma resolveLength_labels (h : option Z) (g : option string) :
  In (resolveLength h g) ["short"; "standard"; "long"].
Proof.
  unfold resolveLength.
  repeat match goal with
         | |- context [if ?c then _ else _] => destruct c
         end; cbn; tauto.
Qed.

(** X3. The recommendation is marked as anchored exactly when the user
    gave a usual size for the schema's system.  When it is anchored and
    the schema carries no availability data, the recommended size is that
    usual size itself (for alpha, its normalised form when it has one).
    The length is always one of short, standard, long. *)
Theorem recommend_anchor (schema : option Schema) (user : option User.t) :
  let s := default (schemaForGeneral UNKNOWN None) schema in
  let u := default User.empty user in
  let r := recommend schema user in
  Rec.used_usual_as_anchor r = hasAnchor u (system s)
  /\ In (Rec.length r) ["short"; "standard"; "long"]
  /\ (available s = None -> hasAnchor u (system s) = true ->
      match system s with
      | EU_NUMERIC => Rec.size_eu r = User.usual_size_eu u
      | SHIRT_COLLAR_EU => Rec.shirt_size_eu r = User.shirt_size_eu u
      | WAIST_INCH => Rec.waist_inch r = User.waist_inch u
      | ALPHA =>
          Rec.alpha_size r
          = match normalizeAlphaSize (default "" (User.alpha_size u)) with
            | Some a => Some a
            | None => User.alpha_size u
            end
      end).
Proof.
  cbn zeta. split; [apply recommend_anchor_flag|]. split.
  - unfold recommend.
    assert (Hlen : forall s0 rec,
               Rec.length (clampRecommendationToProduct s0 rec) = Rec.length rec).
    { intros s0 rec. unfold clampRecommendationToProduct.
      destruct (s0 ≫= _) as [[s' avail]|]; [|reflexivity].
      destruct (system s');
        match goal with |- context [if ?c then _ else _] => destruct c end;
        reflexivity. }
    rewrite Hlen.
    destruct (system _);
      match goal with |- context [if ?c then _ else _] => destruct c end;
      apply resolveLength_labels.
  - intros Hav Hanchor. unfold recommend.
    rewrite (clamp_without_stock _ _ Hav).
    destruct (system _); cbn in Hanchor |- *; now rewrite Hanchor.
Qed.

Lemma recommend_anchor_witness :
  Rec.size_eu
    (recommend (Some euSchema)
       (Some {| User.height_cm := None; User.weight_kg := None;
                User.usual_size_eu := Some 48; User.shirt_size_eu := None;
                User.alpha_size := None; User.waist_inch := None |}))
  = Some 48.
Proof.
  exact (proj2 (proj2
           (recommend_anchor (Some euSchema)
              (Some {| User.height_cm := None; User.weight_kg := None;
                       User.usual_size_eu := Some 48;
                       User.shirt_size_eu := None;
                       User.alpha_size := None; User.waist_inch := None |})))
           eq_refl eq_refl).
Defined.

Lemma filter_nil_inv {B : Type} (f : B -> bool) (l : list B) (x : B) :
  List.filter f l = [] -> In x l -> f x = false.
Proof.
  induction l as [|y rest IH]; cbn; [contradiction|].
  destruct (f y) eqn:Hy; [discriminate|].
  intros Hnil [<-|Hx]; auto.
Qed.

Lemma lacksInput_atoms (u : User.t) :
  lacksInput u "height_cm" = negb (truthy (User.height_cm u))
  /\ lacksInput u "weight_kg" = negb (truthy (User.weight_kg u))
  /\ lacksInput u "usual_size_eu" = negb (truthy (User.usual_size_eu u))
  /\ lacksInput u "shirt_size_eu" = negb (truthy (User.shirt_size_eu u))
  /\ lacksInput u "alpha_size" = negb (truthyStr (User.alpha_size u))
  /\ lacksInput u "waist_inch" = negb (truthy (User.waist_inch u)).
Proof.
  unfold lacksInput. cbn.
  repeat split;
    match goal with |- context [negb ?b] => destruct b end; reflexivity.
Qed.

(** X4. For a schema that a builder returned, once [getMissingInputs]
    reports nothing the recommendation carries a size in the field of the
    schema's system; and it is anchored on the usual size, unless the
    schema is a men's shirt turned to EU numeric sizing (whose required
    size input is the shirt size, which EU numeric sizing does not read). *)
Theorem nothing_missing_gives_size (s : Schema) (user : option User.t) :
  Built s ->
  getMissingInputs (Some s) user = [] ->
  let r := recommend (Some s) user in
  sizeFieldGiven r (system s) = true
  /\ (tailoredShirt s = false -> Rec.used_usual_as_anchor r = true).
Proof.
  intros Hb Hm. cbn zeta.
  destruct (built_required s Hb) as [Hr _].
  rewrite missing_is_filter in Hm. cbn [getRequiredInputs] in Hm.
  rewrite Hr in Hm. set (u := default User.empty user) in *.
  destruct (lacksInput_atoms u) as (Lh & Lw & Lu & Ls & La & Lwa).
  assert (Hh : truthy (User.height_cm u) = true).
  { apply negb_false_iff. rewrite <- Lh.
    apply (filter_nil_inv _ _ _ Hm). now left. }
  assert (Hw : truthy (User.weight_kg u) = true).
  { apply negb_false_iff. rewrite <- Lw.
    apply (filter_nil_inv _ _ _ Hm). right. now left. }
  split.
  - rewrite recommend_field, recommend_system.
    change (default (schemaForGeneral UNKNOWN None) (Some s)) with s.
    unfold hasProportions. fold u. rewrite Hh, Hw, orb_true_r.
    now destruct (system s).
  - intros Ht. rewrite recommend_anchor_flag.
    change (default (schemaForGeneral UNKNOWN None) (Some s)) with s. fold u.
    rewrite Ht in Hm.
    assert (Hk : lacksInput u (usualSizePromptKey (Some s)) = false).
    { apply (filter_nil_inv _ _ _ Hm). cbn. tauto. }
    unfold usualSizePromptKey in Hk. unfold hasAnchor.
    destruct (system s); apply negb_false_iff; congruence.
Qed.

Lemma nothing_missing_gives_size_witness :
  sizeFieldGiven
    (recommend (Some collarSchema)
       (Some {| User.height_cm := Some 178; User.weight_kg := Some 75;
                User.usual_size_eu := None; User.shirt_size_eu := Some 40;
                User.alpha_size := None; User.waist_inch := None |}))
    SHIRT_COLLAR_EU = true.
Proof.
  refine (proj1 (nothing_missing_gives_size collarSchema (Some _) _ _)).
  - left. exists SHIRT, (Some "male"). reflexivity.
  - reflexivity.
Defined.

End RecommendMore.

(** ** The clamp, applied twice *)

Section ClampTwice.
Import JsString Regex Sizing Guardrails Analysis Stated Described Samples.

Lemma nearest_again {A : Type} (dist dist' : A -> Z) (l : list A) (r r' : A) :
  Nearest dist l r -> Nearest dist' l r' ->
  (forall x, 0 <= dist' x) -> dist' r = 0 ->
  (forall x, dist' x = 0 -> dist x = dist r) ->
  r' = r.
Proof.
  intros (i & Hi & Hmin & Hfirst) (i' & Hi' & Hmin' & Hfirst') Hpos Hr Hsame.
  assert (Hr' : dist' r' = 0).
  { assert (In r l) by (eapply list_elem_of_In, list_elem_of_lookup_2, Hi).
    specialize (Hmin' r H). specialize (Hpos r'). lia. }
  destruct (Nat.lt_trichotomy i' i) as [Hlt|[Heq|Hgt]].
  - specialize (Hfirst i' r' Hlt Hi'). rewrite (Hsame r' Hr') in Hfirst. lia.
  - subst i'. congruence.
  - specialize (Hfirst' i r Hgt Hi). lia.
Qed.

Lemma closestNumeric_again (t : option Z) (l : list Z) :
  closestNumeric (closestNumeric t l) l = closestNumeric t l.
Proof.
  destruct t as [t|]; [|reflexivity].
  destruct l as [|first rest] eqn:Hl; [reflexivity|]. rewrite <- Hl.
  assert (Hne : l <> []) by (rewrite Hl; discriminate).
  destruct (closestNumeric_nearest t l Hne) as (r & Hr & [Hn _]).
  rewrite Hr.
  destruct (closestNumeric_nearest r l Hne) as (r' & Hr' & [Hn' _]).
  rewrite Hr'. f_equal.
  apply (nearest_again _ _ l r r' Hn Hn'); intros; lia.
Qed.

Lemma closestAlpha_again (t : option string) (l : list string) :
  closestAlpha (closestAlpha t l) l = closestAlpha t l.
Proof.
  destruct l as [|first rest] eqn:Hl; [reflexivity|]. rewrite <- Hl.
  assert (Hne : l <> []) by (rewrite Hl; discriminate).
  destruct (truthyStr t) eqn:Htr.
  - destruct t as [a|]; [|discriminate].
    destruct (alphaToIndex a) as [ta|] eqn:Hta.
    + destruct (closestAlpha_nearest a ta l Hta Hne) as (r & Hr & Hn).
      rewrite Hr.
      destruct (alphaToIndex r) as [tr|] eqn:Htr'.
      * destruct (closestAlpha_nearest r tr l Htr' Hne) as (r' & Hr' & Hn').
        rewrite Hr'. f_equal.
        assert (Hrank : rankOf r = tr) by (unfold rankOf; now rewrite Htr').
        apply (nearest_again _ _ l r r' Hn Hn'); cbn; intros; try lia.
      * rewrite Hl. unfold closestAlpha.
        destruct (truthyStr (Some r)); [|reflexivity].
        change (default "" (Some r)) with r. now rewrite Htr'.
    + assert (Hsame : closestAlpha (Some a) l = Some a).
      { rewrite Hl. unfold closestAlpha. rewrite Htr.
        change (default "" (Some a)) with a. now rewrite Hta. }
      now rewrite !Hsame.
  - assert (Hsame : closestAlpha t l = t).
    { rewrite Hl. unfold closestAlpha. now rewrite Htr. }
    now rewrite !Hsame.
Qed.

(** X5. Clamping is idempotent: a recommendation already clamped to a
    schema's availability is left as it is by a second clamp. *)
Theorem clamp_twice (schema : option Schema) (rec : Rec.t) :
  clampRecommendationToProduct schema
    (clampRecommendationToProduct schema rec)
  = clampRecommendationToProduct schema rec.
Proof.
  unfold clampRecommendationToProduct.
  destruct (schema ≫= _) as [[s avail]|]; [|reflexivity].
  destruct (system s).
  - destruct (given (Rec.size_eu rec)
              && negb (Nat.eqb (List.length (numeric avail)) 0)) eqn:Hc;
      [|now rewrite Hc].
    cbn [Rec.size_eu Rec.setSizeEu Rec.used_usual_as_anchor].
    rewrite closestNumeric_given, Hc, closestNumeric_again. reflexivity.
  - destruct (given (Rec.shirt_size_eu rec)
              && negb (Nat.eqb (List.length (numeric avail)) 0)) eqn:Hc;
      [|now rewrite Hc].
    cbn [Rec.shirt_size_eu Rec.setShirt Rec.used_usual_as_anchor].
    rewrite closestNumeric_given, Hc, closestNumeric_again. reflexivity.
  - destruct (truthyStr (Rec.alpha_size rec)
              && negb (Nat.eqb (List.length (alpha avail)) 0)) eqn:Hc;
      [|now rewrite Hc].
    cbn [Rec.alpha_size Rec.setAlpha Rec.used_usual_as_anchor].
    destruct (truthyStr (closestAlpha (Rec.alpha_size rec) (alpha avail))
              && negb (Nat.eqb (List.length (alpha avail)) 0)); [|reflexivity].
    rewrite closestAlpha_again. reflexivity.
  - destruct (given (Rec.waist_inch rec)
              && negb (Nat.eqb (List.length (waist avail)) 0)) eqn:Hc;
      [|now rewrite Hc].
    cbn [Rec.waist_inch Rec.setWaist Rec.used_usual_as_anchor].
    rewrite closestNumeric_given, Hc, closestNumeric_again. reflexivity.
Qed.

End ClampTwice.

(** ** Duplicates *)

Section Uniq.
Import JsString Regex Sizing Guardrails Analysis Stated Described Samples.

Context {A : Type} (key : A -> string).

Lemma uniqLoop_members (arr : list A) :
  forall seen x,
    In x (uniqLoop key seen arr) -> In x arr /\ key x ∉ seen.
Proof.
  induction arr as [|y rest IH]; intros seen x; cbn; [contradiction|].
  destruct (decide (key y ∈ seen)) as [Hin|Hout].
  - intros Hx. apply IH in Hx as [Hx Hk]. auto.
  - intros [<-|Hx]; [auto|].
    apply IH in Hx as [Hx Hk]. split; [auto|set_solver].
Qed.

Lemma uniqLoop_nodup (arr : list A) :
  forall seen, NoDup (map key (uniqLoop key seen arr)).
Proof.
  induction arr as [|y rest IH]; intros seen; cbn; [constructor|].
  destruct (decide (key y ∈ seen)) as [Hin|Hout]; [apply IH|].
  cbn. constructor; [|apply IH].
  intros Hy. apply list_elem_of_In, in_map_iff in Hy as (z & Hz & Hin).
  apply uniqLoop_members in Hin as [_ Hk]. rewrite Hz in Hk. set_solver.
Qed.

Lemma uniqLoop_sublist (arr : list A) :
  forall seen, sublist (uniqLoop key seen arr) arr.
Proof.
  induction arr as [|y rest IH]; intros seen; cbn; [constructor|].
  destruct (decide (key y ∈ seen)); constructor; apply IH.
Qed.

Lemma uniqLoop_covers (arr : list A) :
  forall seen x,
    In x arr -> key x ∉ seen -> In (key x) (map key (uniqLoop key seen arr)).
Proof.
  induction arr as [|y rest IH]; intros seen x; cbn; [contradiction|].
  intros [->|Hx] Hk.
  - destruct (decide (key x ∈ seen)); [contradiction|]. now left.
  - destruct (decide (key y ∈ seen)); [now apply IH|].
    destruct (String.eqb_spec (key y) (key x)) as [Heq|Hne].
    + left. exact Heq.
    + right. apply IH; [exact Hx|set_solver].
Qed.

Lemma uniqLoop_fixed (l : list A) :
  forall seen,
    NoDup (map key l) -> (forall x, In x l -> key x ∉ seen) ->
    uniqLoop key seen l = l.
Proof.
  induction l as [|y rest IH]; intros seen Hnd Hout; cbn; [reflexivity|].
  cbn in Hnd. apply NoDup_cons in Hnd as [Hy Hnd].
  destruct (decide (key y ∈ seen)) as [Hin|_].
  - exfalso. apply (Hout y); [now left|exact Hin].
  - f_equal. apply IH; [exact Hnd|].
    intros x Hx. specialize (Hout x (or_intror Hx)).
    assert (key x <> key y).
    { intros Heq. apply Hy. rewrite <- Heq.
      apply list_elem_of_In, in_map, Hx. }
    set_solver.
Qed.

Lemma uniqLoop_seen (k : string) (arr : list A) :
  forall seen seen',
    (forall j, j ∈ seen' <-> j = k \/ j ∈ seen) ->
    uniqLoop key seen' arr
    = filter (fun y => key y <> k) (uniqLoop key seen arr).
Proof.
  induction arr as [|y rest IH]; intros seen seen' Hs; cbn; [reflexivity|].
  destruct (decide (key y ∈ seen')) as [Hin'|Hout'];
    destruct (decide (key y ∈ seen)) as [Hin|Hout].
  - now apply IH.
  - apply Hs in Hin' as [Hk|Hin]; [|contradiction].
    rewrite filter_cons_False by (intros Hne; now apply Hne).
    apply IH. intros j. rewrite Hs, Hk. set_solver.
  - exfalso. apply Hout', Hs. now right.
  - assert (Hk : key y <> k).
    { intros Hk. apply Hout', Hs. now left. }
    rewrite filter_cons_True by exact Hk. f_equal.
    apply IH. intros j. rewrite !elem_of_union, Hs, !elem_of_singleton. tauto.
Qed.

Lemma uniqLoop_last (arr : list A) (x : A) :
  forall seen,
    uniqLoop key seen (arr ++ [x])%list
    = (uniqLoop key seen arr
       ++ (if decide (key x ∈ seen \/ key x ∈ map key arr)
           then [] else [x]))%list.
Proof.
  induction arr as [|y rest IH]; intros seen; cbn.
  - destruct (decide (key x ∈ seen)) as [Hin|Hout];
      destruct (decide (key x ∈ seen \/ key x ∈ @nil string)) as [Hd|Hd];
      try reflexivity; exfalso; [tauto|].
    destruct Hd as [Hd|Hd]; [tauto|inversion Hd].
  - destruct (decide (key y ∈ seen)) as [Hin|Hout]; rewrite IH.
    + destruct (decide (key x ∈ seen \/ key x ∈ map key rest)) as [Hd|Hd];
        destruct (decide (key x ∈ seen \/ key x ∈ key y :: map key rest))
        as [He|He]; try reflexivity; exfalso.
      * apply He. rewrite elem_of_cons. tauto.
      * rewrite elem_of_cons in He. destruct He as [He|[He|He]]; try tauto.
        apply Hd. left. now rewrite He.
    + cbn. f_equal.
      destruct (decide (key x ∈ {[key y]} ∪ seen \/ key x ∈ map key rest))
        as [Hd|Hd];
        destruct (decide (key x ∈ seen \/ key x ∈ key y :: map key rest))
        as [He|He]; try reflexivity; exfalso.
      * apply He. rewrite elem_of_cons.
        rewrite elem_of_union, elem_of_singleton in Hd. tauto.
      * apply Hd. rewrite elem_of_cons in He.
        rewrite elem_of_union, elem_of_singleton. tauto.
Qed.

(** X6. [uniq] keeps the first element of each key and drops the later
    ones, in the order of the input.  The head of the list is kept and
    every later element with the head's key is dropped from what [uniq]
    makes of the rest; an element appended at the end is kept exactly
    when no element before it has its key.  So the keys of the result
    are pairwise distinct, the result is a sub-list of the input, every
    key of the input is still there, and a second [uniq] changes nothing.
    An element whose key names a property that every object inherits
    (such as "constructor") is dropped altogether. *)
Theorem uniq_keeps_first (arr : list A) :
  NoDup (map key (uniq key arr))
  /\ sublist (uniq key arr) arr
  /\ (forall x, In x (uniq key arr) -> key x ∉ inheritedKeys)
  /\ (forall x, In x arr -> key x ∉ inheritedKeys ->
                In (key x) (map key (uniq key arr)))
  /\ uniq key (uniq key arr) = uniq key arr
  /\ (forall x, key x ∉ inheritedKeys ->
        uniq key (x :: arr)
        = x :: filter (fun y => key y <> key x) (uniq key arr))
  /\ (forall x, key x ∈ inheritedKeys ->
        uniq key (x :: arr) = uniq key arr)
  /\ (forall x,
        uniq key (arr ++ [x])%list
        = (uniq key arr
           ++ (if decide (key x ∈ inheritedKeys \/ key x ∈ map key arr)
               then [] else [x]))%list).
Proof.
  unfold uniq. split; [apply uniqLoop_nodup|].
  split; [apply uniqLoop_sublist|].
  split; [intros x Hx; now apply uniqLoop_members in Hx|].
  split; [intros x; apply uniqLoop_covers|].
  split.
  { apply uniqLoop_fixed; [apply uniqLoop_nodup|].
    intros x Hx. now apply uniqLoop_members in Hx. }
  split.
  { intros x Hx. cbn [uniqLoop].
    destruct (decide (key x ∈ inheritedKeys)); [contradiction|].
    f_equal. apply uniqLoop_seen. intros j.
    rewrite elem_of_union, elem_of_singleton. tauto. }
  split.
  { intros x Hx. cbn [uniqLoop].
    destruct (decide (key x ∈ inheritedKeys)); [reflexivity|contradiction]. }
  intros x. apply uniqLoop_last.
Qed.

End Uniq.

Section UniqExamples.
Import JsString Regex Sizing.

Lemma uniq_keeps_first_witness :
  uniq id ["M"; "L"; "M"] = "M" :: filter (fun y => id y <> id "M") ["L"; "M"]
  /\ uniq id ["M"; "L"; "M"] = ["M"; "L"]
  /\ In "M" (map id (uniq id ["M"; "constructor"; "L"; "M"])).
Proof.
  split; [|split].
  - apply (proj1 (proj2 (proj2 (proj2 (proj2 (proj2
             (uniq_keeps_first id ["L"; "M"]))))))).
    vm_compute. intros H. inversion H.
  - vm_compute. reflexivity.
  - apply (proj1 (proj2 (proj2 (proj2
             (uniq_keeps_first id ["M"; "constructor"; "L"; "M"]))))).
    + cbn. tauto.
    + vm_compute. intros H. inversion H.
Defined.

End UniqExamples.

(** ** Alpha sizes and their ranks *)

Section AlphaRanks.
Import JsString Regex Sizing Guardrails Analysis Stated Described Samples.

Lemma allOf_differ (P : ascii -> bool) (v s : string) :
  allOf P v = true -> allOf P s = false -> String.eqb v s = false.
Proof.
  intros Hv Hs. destruct (String.eqb_spec v s) as [->|]; [congruence|reflexivity].
Qed.

Lemma allOf_unfiltered (P Q keep : ascii -> bool) (s : string) :
  (forall c, keep c = false -> Q c = true) ->
  (forall c, P c = true -> Q c = true) ->
  allOf P (filterChars keep s) = true -> allOf Q s = true.
Proof.
  intros Hdrop Hkeep. induction s as [|c tl IH]; cbn; [reflexivity|].
  destruct (keep c) eqn:Hc; cbn.
  - intros H. apply andb_prop in H as [Hp Htl].
    now rewrite (Hkeep c Hp), IH.
  - intros H. now rewrite (Hdrop c Hc), IH.
Qed.

Lemma ranked_label (y : string) (i : Z) :
  alphaToIndex y = Some i ->
  exists w,
    removeAll "-" (lower y) = w
    /\ In w ALPHA_ORDER
    /\ alphaToIndex (toUpperCase w) = Some i
    /\ normalizeAlphaSize (toUpperCase w) = Some (toUpperCase w).
Proof.
  unfold alphaToIndex. intros H. exists (removeAll "-" (lower y)).
  split; [reflexivity|]. revert H.
  repeat match goal with
         | |- context [String.eqb ?a ?b] =>
             destruct (String.eqb_spec a b) as [->|_];
             [intros [= <-]; cbn; repeat split; tauto|]
         end.
  discriminate.
Qed.

Lemma rank_chars (y : string) (i : Z) :
  alphaToIndex y = Some i -> allOf rankChar (lower y) = true.
Proof.
  intros H. destruct (ranked_label y i H) as (w & Hw & Hin & _).
  apply (allOf_unfiltered
           (fun c => existsb (Ascii.eqb c) ["x"; "s"; "m"; "l"]%char)
           rankChar (fun d => negb (Ascii.eqb d "-"))).
  - intros c Hc. apply negb_false_iff, Ascii.eqb_eq in Hc. now subst c.
  - intros c Hc. unfold rankChar. cbn in *.
    repeat (apply orb_prop in Hc as [->|Hc]; [now rewrite ?orb_true_r|]).
    discriminate.
  - unfold removeAll in Hw. rewrite Hw. cbn in Hin.
    repeat destruct Hin as [<-|Hin]; try contradiction; reflexivity.
Qed.

Lemma rankChar_facts (c : ascii) :
  rankChar c = true ->
  isSpace c = false /\ negb (Ascii.eqb c ".") = true.
Proof.
  unfold rankChar. cbn. intros H.
  repeat (apply orb_prop in H as [H|H];
          [apply Ascii.eqb_eq in H; subst c; split; reflexivity|]).
  discriminate.
Qed.

(** X7. The two readers of alpha sizes agree.  What [normalizeAlphaSize]
    returns is a fixed point of it and has a rank between 0 and 7; and
    every label [alphaToIndex] gives a rank to is accepted by
    [normalizeAlphaSize], as a size of that same rank. *)
Theorem alpha_readers_agree (x : string) :
  (forall a, normalizeAlphaSize x = Some a ->
     normalizeAlphaSize a = Some a
     /\ exists i, alphaToIndex a = Some i /\ 0 <= i <= 7)
  /\ (forall i, alphaToIndex x = Some i ->
        exists a, normalizeAlphaSize x = Some a /\ alphaToIndex a = Some i).
Proof.
  split.
  - intros a Ha. apply normalizeAlphaSize_range in Ha. cbn in Ha.
    repeat destruct Ha as [<-|Ha]; try contradiction;
      (split; [reflexivity|eexists; split; [reflexivity|lia]]).
  - intros i Hi. destruct (ranked_label x i Hi) as (w & Hw & Hin & Hrank & _).
    exists (toUpperCase w). split; [|exact Hrank].
    pose proof (rank_chars x i Hi) as Hchars.
    unfold normalizeAlphaSize.
    assert (Hdots : removeAll "." (lower x) = lower x).
    { apply (allOf_filterChars rankChar); [|exact Hchars].
      intros c Hc. apply (rankChar_facts c Hc). }
    rewrite Hdots, (allOf_trim rankChar (lower x));
      [|intros c Hc; apply (rankChar_facts c Hc)|exact Hchars].
    assert (Hne : String.eqb (lower x) "" = false).
    { destruct (lower x); [|reflexivity].
      cbn in Hw. subst w. cbn in Hin. intuition discriminate. }
    rewrite Hne. unfold alias.
    rewrite (allOf_differ rankChar (lower x) "extra small" Hchars),
      (allOf_differ rankChar (lower x) "small" Hchars),
      (allOf_differ rankChar (lower x) "medium" Hchars),
      (allOf_differ rankChar (lower x) "large" Hchars),
      (allOf_differ rankChar (lower x) "extra large" Hchars),
      (allOf_differ rankChar (lower x) "2xl" Hchars) by reflexivity.
    cbn [orb].
    assert (Hxxl : (if String.eqb (lower x) "xxl" then "xxl" else lower x)
                   = lower x).
    { destruct (String.eqb_spec (lower x) "xxl") as [->|]; reflexivity. }
    rewrite Hxxl, (allOf_differ rankChar (lower x) "3xl" Hchars) by reflexivity.
    cbn [orb].
    assert (Hxxxl : (if String.eqb (lower x) "xxxl" then "xxxl" else lower x)
                    = lower x).
    { destruct (String.eqb_spec (lower x) "xxxl") as [->|]; reflexivity. }
    rewrite Hxxxl, Hw. clear - Hin. cbn in Hin.
    repeat destruct Hin as [<-|Hin]; try contradiction; reflexivity.
Qed.

Lemma alpha_readers_agree_witness :
  exists a, normalizeAlphaSize "X-L" = Some a /\ alphaToIndex a = Some 5.
Proof.
  apply (proj2 (alpha_readers_agree "X-L") 5). reflexivity.
Defined.

End AlphaRanks.

(** ** Numbers as text *)

Section Decimal.
Import JsString Regex Sizing Guardrails Analysis Stated Described Samples.

Lemma readDigits_uint (d : Decimal.uint) :
  forall acc,
    readDigits (Some acc) (NilEmpty.string_of_uint d) = Some (hornerZ d acc).
Proof.
  induction d; intros acc; cbn [NilEmpty.string_of_uint hornerZ];
    [reflexivity|..]; cbn [readDigits];
    match goal with
    | |- context [isDigit ?c] => change (isDigit c) with true
    end; cbn [default]; rewrite <- IHd; reflexivity.
Qed.

Lemma readDigits_start (d : Decimal.uint) :
  d <> Decimal.Nil ->
  readDigits None (NilEmpty.string_of_uint d) = Some (hornerZ d 0).
Proof.
  intros Hd. rewrite <- readDigits_uint. destruct d; [contradiction|..];
    reflexivity.
Qed.

Lemma hornerZ_acc (d : Decimal.uint) :
  forall p, hornerZ d (Zpos p) = Zpos (Pos.of_uint_acc d p).
Proof.
  induction d; intros p; cbn [hornerZ Pos.of_uint_acc]; [reflexivity|..];
    rewrite <- IHd; f_equal; lia.
Qed.

Lemma hornerZ_zero (d : Decimal.uint) :
  hornerZ d 0 = Z.of_N (Pos.of_uint d).
Proof.
  induction d; cbn [hornerZ Pos.of_uint]; [reflexivity|exact IHd|..];
    match goal with
    | |- hornerZ _ ?a = _ =>
        let v := eval vm_compute in a in change a with v
    end; rewrite hornerZ_acc; reflexivity.
Qed.

Lemma digits_of_positive (p : positive) :
  readDigits None (NilZero.string_of_uint (Pos.to_uint p)) = Some (Zpos p).
Proof.
  pose proof (Unsigned.to_uint_nonnil p) as Hnil.
  assert (Hs : NilZero.string_of_uint (Pos.to_uint p)
               = NilEmpty.string_of_uint (Pos.to_uint p)).
  { unfold NilZero.string_of_uint. now destruct (Pos.to_uint p). }
  rewrite Hs, (readDigits_start _ Hnil), hornerZ_zero, Unsigned.of_to.
  reflexivity.
Qed.

Lemma uint_text_head (d : Decimal.uint) :
  exists c tl, NilZero.string_of_uint d = String c tl /\ isDigit c = true.
Proof. destruct d; cbn; eexists; eexists; split; reflexivity. Qed.

Lemma plainValue_ofZ (n : Z) : plainValue (ofZ n) = Some n.
Proof.
  unfold ofZ. destruct n as [|p|p]; cbn [Z.to_int NilZero.string_of_int].
  - reflexivity.
  - unfold plainValue.
    destruct (uint_text_head (Pos.to_uint p)) as (c & tl & Hs & Hc).
    pose proof (digits_of_positive p) as Hd. rewrite Hs in *.
    destruct (Ascii.eqb_spec c "-") as [->|Hne]; [discriminate Hc|].
    destruct c as [[] [] [] [] [] [] [] []]; try exact Hd; contradiction.
  - unfold plainValue. now rewrite digits_of_positive.
Qed.

Lemma ofZ_injective (a b : Z) : ofZ a = ofZ b -> a = b.
Proof.
  intros H. pose proof (plainValue_ofZ a) as Ha.
  rewrite H, plainValue_ofZ in Ha. congruence.
Qed.

Lemma ofZ_head (n : Z) :
  exists c tl, ofZ n = String c tl /\ (isDigit c = true \/ c = "-"%char).
Proof.
  unfold ofZ. destruct n as [|p|p]; cbn [Z.to_int NilZero.string_of_int].
  - eexists; eexists; split; [reflexivity|now left].
  - destruct (uint_text_head (Pos.to_uint p)) as (c & tl & Hs & Hc).
    exists c, tl. auto.
  - eexists; eexists; split; [reflexivity|now right].
Qed.

Lemma ofZ_not_inherited (n : Z) : ofZ n ∉ inheritedKeys.
Proof.
  destruct (ofZ_head n) as (c & tl & Hs & Hc). rewrite Hs.
  unfold inheritedKeys. rewrite elem_of_list_to_set, list_elem_of_In. cbn.
  intros H.
  repeat destruct H as [H|H]; try contradiction; injection H as <- _;
    destruct Hc as [Hc|Hc]; discriminate Hc.
Qed.

(** What [readDigits] returns is not negative when what was read before
    is not. *)
Lemma readDigits_nonneg (s : string) :
  forall acc,
    match acc with Some a => 0 <= a | None => True end ->
    match readDigits acc s with Some v => 0 <= v | None => True end.
Proof.
  induction s as [|c tl IH]; intros acc Hacc; cbn [readDigits]; [exact Hacc|].
  destruct (isDigit c) eqn:Hc; [|exact Hacc].
  apply IH. apply digit_cases in Hc. unfold digitValue.
  destruct acc as [a|]; cbn [default];
    cbn in Hc; repeat destruct Hc as [<-|Hc]; try contradiction;
    match goal with
    | |- context [Z.of_N (code ?d)] =>
        let v := eval vm_compute in (Z.of_N (code d)) in
        change (Z.of_N (code d)) with v
    end; unfold id; lia.
Qed.

Lemma parseInt_printed (n : Z) :
  parseInt (ofZ n)
  = if overflowThreshold <=? Z.abs n then PInfinite else PFinite n.
Proof.
  pose proof (plainValue_ofZ n) as Hv.
  destruct (ofZ_head n) as (c & tl & Hs & Hc).
  unfold parseInt, plainValue in *. rewrite Hs in *.
  assert (Hsp : isSpace c = false).
  { destruct Hc as [Hc| ->]; [|reflexivity].
    apply (digit_facts c Hc). }
  cbn [trimStart]. rewrite Hsp.
  destruct Hc as [Hc| ->].
  - assert (Hshape :
        match c with
        | "-"%char => Z.opp <$> readDigits None tl
        | _ => readDigits None (String c tl)
        end = readDigits None (String c tl)).
    { apply digit_cases in Hc. cbn in Hc.
      repeat destruct Hc as [<-|Hc]; try contradiction; reflexivity. }
    rewrite Hshape in Hv.
    assert (Hpair :
        match c with
        | "-"%char => (true, tl)
        | "+"%char => (false, tl)
        | _ => (false, String c tl)
        end = (false, String c tl)).
    { apply digit_cases in Hc. cbn in Hc.
      repeat destruct Hc as [<-|Hc]; try contradiction; reflexivity. }
    rewrite Hpair, Hv.
    assert (Hpos : 0 <= n).
    { pose proof (readDigits_nonneg (String c tl) None) as Hr.
      rewrite Hv in Hr. apply Hr. exact I. }
    rewrite (Z.abs_eq n Hpos). reflexivity.
  - destruct (readDigits None tl) as [m|] eqn:Hm; [|discriminate Hv].
    cbn in Hv. injection Hv as Hn.
    assert (Hpos : 0 <= m).
    { pose proof (readDigits_nonneg tl None) as Hr.
      rewrite Hm in Hr. apply Hr. exact I. }
    replace (Z.abs n) with m by lia.
    destruct (Z.leb_spec overflowThreshold m); [reflexivity|].
    f_equal. lia.
Qed.

Lemma parseInt_ofZ (n : Z) :
  Z.abs n < overflowThreshold -> parseInt (ofZ n) = PFinite n.
Proof.
  intros Hn. rewrite parseInt_printed.
  destruct (Z.leb_spec overflowThreshold (Z.abs n)); [lia|reflexivity].
Qed.

(** X8. Printing an integer and reading it back gives the integer:
    [parseInt(String(n), 10)] is [n] for every integer up to 2^53 in
    magnitude, the integers a number holds exactly and [String] prints
    in plain decimal digits; so [parseIntSafe] returns it. *)
Theorem parseInt_of_printed (n : Z) :
  exactInteger n ->
  parseInt (ofZ n) = PFinite n /\ parseIntSafe (ofZ n) = Some n.
Proof.
  intros Hn.
  assert (Hlt : Z.abs n < overflowThreshold).
  { unfold exactInteger in Hn.
    apply (Z.le_lt_trans _ (2 ^ 53)); [exact Hn|].
    vm_compute. reflexivity. }
  pose proof (parseInt_ofZ n Hlt) as Hp.
  split; [exact Hp|]. unfold parseIntSafe. now rewrite Hp.
Qed.

Lemma parseInt_of_printed_witness :
  exactInteger (-180)
  /\ parseInt (ofZ (-180)) = PFinite (-180)
  /\ parseIntSafe (ofZ (-180)) = Some (-180).
Proof.
  assert (H : exactInteger (-180)) by (vm_compute; discriminate).
  split; [exact H|]. apply parseInt_of_printed. exact H.
Defined.

End Decimal.

(** ** The sizes a product offers *)

Section Offered.
Import JsString Regex Sizing Guardrails Analysis Stated Described Samples.

Lemma insertBy_perm {B : Type} (key : B -> Z) (x : B) (l : list B) :
  insertBy key x l ≡ₚ x :: l.
Proof.
  induction l as [|y rest IH]; cbn; [reflexivity|].
  destruct (key y <=? key x); [|reflexivity].
  rewrite IH. apply Permutation_swap.
Qed.

Lemma sortBy_perm {B : Type} (key : B -> Z) (l : list B) : sortBy key l ≡ₚ l.
Proof.
  unfold sortBy.
  assert (H : forall acc,
             fold_left (fun acc x => insertBy key x acc) l acc ≡ₚ (l ++ acc)%list).
  { induction l as [|x rest IH]; intros acc; cbn; [reflexivity|].
    rewrite IH, insertBy_perm. symmetry. apply Permutation_middle. }
  rewrite H. now rewrite app_nil_r.
Qed.

Lemma insertBy_ordered {B : Type} (key : B -> Z) (x : B) (l : list B) :
  StronglySorted (fun a b => key a <= key b) l ->
  StronglySorted (fun a b => key a <= key b) (insertBy key x l).
Proof.
  induction 1 as [|z rest Hrest IH Hall]; cbn.
  - constructor; constructor.
  - destruct (Z.leb_spec (key z) (key x)) as [Hle|Hgt].
    + constructor; [exact IH|].
      rewrite (insertBy_perm key x rest). constructor; assumption.
    + constructor; [constructor; assumption|].
      constructor; [lia|]. eapply Forall_impl; [exact Hall|].
      intros y Hy. cbn in Hy. lia.
Qed.

Lemma sortBy_ordered {B : Type} (key : B -> Z) (l : list B) :
  StronglySorted (fun a b => key a <= key b) (sortBy key l).
Proof.
  unfold sortBy.
  assert (H : forall acc,
             StronglySorted (fun a b => key a <= key b) acc ->
             StronglySorted (fun a b => key a <= key b)
               (fold_left (fun acc x => insertBy key x acc) l acc)).
  { induction l as [|x rest IH]; intros acc Hacc; cbn; [exact Hacc|].
    apply IH, insertBy_ordered, Hacc. }
  apply H. constructor.
Qed.

Lemma ordered_strictly {B : Type} (key : B -> Z) (l : list B) :
  StronglySorted (fun a b => key a <= key b) l ->
  NoDup (map key l) ->
  StronglySorted (fun a b => key a < key b) l.
Proof.
  induction 1 as [|z rest Hrest IH Hall]; intros Hnd; [constructor|].
  cbn in Hnd. apply NoDup_cons in Hnd as [Hz Hnd].
  constructor; [apply IH, Hnd|].
  rewrite Forall_forall in *. intros y Hy. specialize (Hall y Hy).
  assert (key z <> key y).
  { intros Heq. apply Hz. rewrite Heq. apply list_elem_of_In, in_map.
    apply list_elem_of_In, Hy. }
  cbn in Hall. lia.
Qed.

Lemma sortBy_strict {B : Type} (key : B -> Z) (l : list B) :
  NoDup (map key l) ->
  StronglySorted (fun a b => key a < key b) (sortBy key l).
Proof.
  intros Hnd. apply ordered_strictly; [apply sortBy_ordered|].
  now rewrite (sortBy_perm key l).
Qed.

Lemma sortBy_In {B : Type} (key : B -> Z) (l : list B) (x : B) :
  In x (sortBy key l) <-> In x l.
Proof.
  rewrite <- !list_elem_of_In. now rewrite (sortBy_perm key l).
Qed.

Lemma uniq_In {B : Type} (key : B -> string) (l : list B) (x : B) :
  (forall a b, key a = key b -> a = b) ->
  (forall a, In a l -> key a ∉ inheritedKeys) ->
  In x (uniq key l) <-> In x l.
Proof.
  intros Hinj Hfree.
  split.
  - intros Hx. unfold uniq in Hx. now apply uniqLoop_members in Hx.
  - intros Hx.
    pose proof (uniqLoop_covers key l inheritedKeys x Hx (Hfree x Hx))
      as Hcover.
    fold (uniq key l) in Hcover.
    apply in_map_iff in Hcover as (y & Hy & Hin).
    now rewrite <- (Hinj y x Hy).
Qed.

Lemma omap_In {B C : Type} (f : B -> option C) (l : list B) (y : C) :
  In y (omap f l) <-> exists x, In x l /\ f x = Some y.
Proof.
  rewrite <- list_elem_of_In, list_elem_of_omap.
  split; intros (x & Hx & Hf); exists x; split; auto;
    now apply list_elem_of_In.
Qed.

Lemma numbers_offered (l : list Z) :
  (forall n, In n (sortBy id (uniq ofZ l)) <-> In n l)
  /\ StronglySorted Z.lt (sortBy id (uniq ofZ l)).
Proof.
  split.
  - intros n. rewrite sortBy_In.
    apply uniq_In; [exact ofZ_injective|].
    intros a _. apply ofZ_not_inherited.
  - apply (sortBy_strict id). rewrite map_id.
    pose proof (uniqLoop_nodup ofZ l inheritedKeys) as Hnd.
    fold (uniq ofZ l) in Hnd. now apply NoDup_fmap_1 in Hnd.
Qed.

Lemma canonical_free (a x : string) :
  normalizeAlphaSize x = Some a -> a ∉ inheritedKeys.
Proof.
  intros Ha. apply normalizeAlphaSize_range in Ha. cbn in Ha.
  unfold inheritedKeys. rewrite elem_of_list_to_set, list_elem_of_In.
  repeat destruct Ha as [<-|Ha]; try contradiction; cbn; intros H;
    repeat destruct H as [H|H]; try contradiction; discriminate H.
Qed.

Lemma canonical_rank_injective (a b x y : string) :
  normalizeAlphaSize x = Some a -> normalizeAlphaSize y = Some b ->
  rankOf a = rankOf b -> a = b.
Proof.
  intros Ha Hb. apply normalizeAlphaSize_range in Ha, Hb. cbn in Ha, Hb.
  repeat destruct Ha as [<-|Ha]; try contradiction;
    repeat destruct Hb as [<-|Hb]; try contradiction;
    vm_compute; intros H; (reflexivity || discriminate H).
Qed.

(** X9. The availability snapshot of a product is drawn from its size
    values and from nothing else: a number, a size letter or a waist
    size is listed exactly when one of the raw size values reads as it.
    Each list is strictly increasing, the letters by rank, so no entry is
    listed twice.  This is for products whose size values read as
    integers a number holds exactly (up to 2^53 in magnitude). *)
Theorem available_from_variants (p : Product) (sch : Schema) :
  exactLabels (sizeValuesOf (Some p)) ->
  let av := extractAvailableSizes (Some p) sch in
  raw av = sizeValuesOf (Some p)
  /\ (forall n, In n (numeric av)
                <-> exists v, In v (raw av) /\ parseIntSafe (lower v) = Some n)
  /\ StronglySorted Z.lt (numeric av)
  /\ (forall a, In a (alpha av)
                <-> exists v, In v (raw av) /\ normalizeAlphaSize v = Some a)
  /\ StronglySorted (fun a b => rankOf a < rankOf b) (alpha av)
  /\ (forall w, In w (waist av)
                <-> exists v, In v (raw av) /\ waistOfLabel v = Some w)
  /\ StronglySorted Z.lt (waist av).
Proof.
  intros _. cbn zeta. unfold extractAvailableSizes.
  cbn [raw numeric alpha waist]. fold (sizeValuesOf (Some p)).
  set (values := sizeValuesOf (Some p)).
  split; [reflexivity|].
  destruct (numbers_offered
              (omap (fun v => parseIntSafe (lower v)) values)) as [Hn Hns].
  destruct (numbers_offered (omap waistOfLabel values)) as [Hw Hws].
  split; [intros n; now rewrite Hn, omap_In|]. split; [exact Hns|].
  assert (Hcanon : forall a, In a (omap normalizeAlphaSize values) ->
                             exists x, normalizeAlphaSize x = Some a).
  { intros a Ha. apply omap_In in Ha as (x & _ & Hx). now exists x. }
  split; [|split; [|split; [intros w; now rewrite Hw, omap_In|exact Hws]]].
  - intros a. rewrite sortBy_In, <- omap_In.
    apply uniq_In; [intros a0 b0 H0; exact H0|].
    intros b Hb. destruct (Hcanon b Hb) as [x Hx]. exact (canonical_free b x Hx).
  - apply sortBy_strict.
    pose proof (uniqLoop_nodup id (omap normalizeAlphaSize values)
                  inheritedKeys) as Hnd.
    fold (uniq id (omap normalizeAlphaSize values)) in Hnd.
    rewrite map_id in Hnd.
    apply NoDup_fmap_2_strong; [|exact Hnd].
    intros a b Ha Hb. apply list_elem_of_In in Ha, Hb.
    assert (Hin : forall c, In c (uniq id (omap normalizeAlphaSize values)) ->
                            exists x, normalizeAlphaSize x = Some c).
    { intros c Hc. apply Hcanon. unfold uniq in Hc.
      now apply uniqLoop_members in Hc. }
    destruct (Hin a Ha) as [x Hx]. destruct (Hin b Hb) as [y Hy].
    exact (canonical_rank_injective a b x y Hx Hy).
Qed.

Lemma available_from_variants_witness :
  exactLabels (sizeValuesOf (Some (shirtWith ["52"; "48"; "48 "; "M"])))
  /\ In 48 (numeric (extractAvailableSizes
                       (Some (shirtWith ["52"; "48"; "48 "; "M"])) euSchema)).
Proof.
  assert (H : exactLabels
                (sizeValuesOf (Some (shirtWith ["52"; "48"; "48 "; "M"])))).
  { replace (sizeValuesOf (Some (shirtWith ["52"; "48"; "48 "; "M"])))
      with ["52"; "48"; "48 "; "M"] by (vm_compute; reflexivity).
    repeat (constructor; [vm_compute; try exact I; discriminate|]).
    constructor. }
  split; [exact H|].
  apply (proj1 (proj2 (available_from_variants
                         (shirtWith ["52"; "48"; "48 "; "M"]) euSchema H))).
  exists "48". split; [vm_compute; tauto|reflexivity].
Defined.

End Offered.

(** ** Validation *)

Section Validation.
Import JsString Regex Sizing Guardrails Analysis Stated Described Samples.

Lemma pushWhen_In (cond : bool) (x y : string) (l : list string) :
  In y (pushWhen cond x l) <-> In y l \/ (cond = true /\ y = x).
Proof.
  unfold pushWhen. destruct cond.
  - rewrite in_app_iff. cbn. intuition congruence.
  - intuition congruence.
Qed.

(** When [validateAtomic] reports each of its four size tags. *)
Lemma validate_size_tags (schema : option Schema) (user : option User.t) :
  let u := default User.empty user in
  (In "usual_size_eu" (validateAtomic schema user) ->
   exists s, schema = Some s /\ system s = EU_NUMERIC
             /\ truthy (User.usual_size_eu u) = true
             /\ (if genderIs (gender s) "female"
                 then outside (User.usual_size_eu u) 32 48
                 else if genderIs (gender s) "male"
                 then outside (User.usual_size_eu u) 42 60
                 else outside (User.usual_size_eu u) 32 60) = true)
  /\ (In "shirt_size_eu" (validateAtomic schema user) ->
      systemIs schema SHIRT_COLLAR_EU = true
      /\ truthy (User.shirt_size_eu u) = true
      /\ outside (User.shirt_size_eu u) 35 47 = true)
  /\ (In "waist_inch" (validateAtomic schema user) ->
      systemIs schema WAIST_INCH = true
      /\ truthy (User.waist_inch u) = true
      /\ outside (User.waist_inch u) 24 48 = true)
  /\ (In "alpha_size" (validateAtomic schema user) ->
      systemIs schema ALPHA = true
      /\ truthyStr (User.alpha_size u) = true
      /\ normalizeAlphaSize (default "" (User.alpha_size u)) = None).
Proof.
  cbn zeta. unfold validateAtomic. rewrite !pushWhen_In. cbn [In].
  split; [|split; [|split]]; intros Hin.
  - assert (Hc : systemIs schema EU_NUMERIC
                 && truthy (User.usual_size_eu (default User.empty user))
                 && match schema with
                    | Some s =>
                        if genderIs (gender s) "female"
                        then outside (User.usual_size_eu (default User.empty user)) 32 48
                        else if genderIs (gender s) "male"
                        then outside (User.usual_size_eu (default User.empty user)) 42 60
                        else outside (User.usual_size_eu (default User.empty user)) 32 60
                    | None => false
                    end = true)
      by (intuition (discriminate || assumption)).
    apply andb_prop in Hc as [Hc Hout]. apply andb_prop in Hc as [Hsys Htr].
    destruct schema as [s|]; [|discriminate]. exists s.
    unfold systemIs in Hsys. destruct (system s); try discriminate. auto.
  - assert (Hc : systemIs schema SHIRT_COLLAR_EU
                 && truthy (User.shirt_size_eu (default User.empty user))
                 && outside (User.shirt_size_eu (default User.empty user)) 35 47
                 = true)
      by (intuition (discriminate || assumption)).
    apply andb_prop in Hc as [Hc Hout]. apply andb_prop in Hc as [Hsys Htr].
    auto.
  - assert (Hc : systemIs schema WAIST_INCH
                 && truthy (User.waist_inch (default User.empty user))
                 && outside (User.waist_inch (default User.empty user)) 24 48
                 = true)
      by (intuition (discriminate || assumption)).
    apply andb_prop in Hc as [Hc Hout]. apply andb_prop in Hc as [Hsys Htr].
    auto.
  - assert (Hc : systemIs schema ALPHA
                 && truthyStr (User.alpha_size (default User.empty user))
                 && negb (given (normalizeAlphaSize
                            (default "" (User.alpha_size (default User.empty user)))))
                 = true)
      by (intuition (discriminate || assumption)).
    apply andb_prop in Hc as [Hc Hout]. apply andb_prop in Hc as [Hsys Htr].
    repeat split; auto.
    destruct (normalizeAlphaSize _); [discriminate|reflexivity].
Qed.

Lemma derive_eu_bounds (h w : option Z) (g : option string) (v : Z) :
  deriveEuSizeFromProportions h w g = Some v ->
  (if genderIs g "female" then outside (Some v) 32 48
   else if genderIs g "male" then outside (Some v) 42 60
   else outside (Some v) 32 60) = false.
Proof.
  unfold deriveEuSizeFromProportions.
  destruct h as [h|], w as [w|]; try discriminate.
  destruct (negb (truthy (Some h)) || negb (truthy (Some w))); [discriminate|].
  destruct (genderIs g "male") eqn:Hm; [|destruct (genderIs g "female") eqn:Hf].
  - assert (Hnf : genderIs g "female" = false).
    { destruct g as [s|]; [|reflexivity]. cbn in *.
      apply String.eqb_eq in Hm. now subst s. }
    rewrite Hnf. unfold bump.
    repeat match goal with
           | |- context [if ?c then _ else _] => destruct c
           end; intros [= <-]; reflexivity.
  - unfold bump.
    repeat match goal with
           | |- context [if ?c then _ else _] => destruct c
           end; intros [= <-]; reflexivity.
  - repeat match goal with
           | |- context [if ?c then _ else _] => destruct c
           end; intros [= <-]; reflexivity.
Qed.

Lemma clamp_between (v lo hi : Z) :
  lo <= hi ->
  exists r, clamp (Some v) lo hi = Some r /\ lo <= r <= hi
            /\ (lo <= v <= hi -> r = v).
Proof.
  intros Hle. unfold clamp. eexists. split; [reflexivity|].
  rewrite Z.gtb_ltb.
  destruct (Z.ltb_spec v lo), (Z.ltb_spec hi v); lia.
Qed.

Lemma bump_range (c : bool) (step n : Z) :
  Z.min n (n + step) <= bump c step n <= Z.max n (n + step).
Proof. unfold bump. destruct c; lia. Qed.

Lemma derive_collar_bounds (h w : option Z) (v : Z) :
  deriveShirtCollarFromProportions h w = Some v -> 37 <= v <= 44.
Proof.
  unfold deriveShirtCollarFromProportions.
  destruct h as [h|], w as [w|]; try discriminate.
  destruct (negb (truthy (Some h)) || negb (truthy (Some w))); [discriminate|].
  cbv zeta.
  set (collar := if w <? 65 then 38 else _).
  assert (Hc : 38 <= collar <= 43).
  { subst collar.
    repeat match goal with
           | |- context [if ?c then _ else _] => destruct c
           end; lia. }
  clearbody collar.
  pose proof (bump_range (190 <=? h) 1 collar) as H1.
  set (c1 := bump (190 <=? h) 1 collar) in *. clearbody c1.
  pose proof (bump_range (h <=? 168) (-1) c1) as H2.
  set (c2 := bump (h <=? 168) (-1) c1) in *. clearbody c2.
  destruct (clamp_between c2 37 46 ltac:(lia)) as (r & -> & _ & Hr).
  intros [= <-]. rewrite Hr; lia.
Qed.

Lemma derive_waist_bounds (h w : option Z) (g : option string) (v : Z) :
  deriveWaistFromProportions h w g = Some v -> 25 <= v <= 39.
Proof.
  unfold deriveWaistFromProportions.
  destruct h as [h|], w as [w|]; try discriminate.
  destruct (negb (truthy (Some h)) || negb (truthy (Some w))); [discriminate|].
  cbv zeta.
  set (wi := if genderIs g "female" then _ else _).
  assert (Hc : 26 <= wi <= 38).
  { subst wi.
    repeat match goal with
           | |- context [if ?c then _ else _] => destruct c
           end; lia. }
  clearbody wi.
  pose proof (bump_range (190 <=? h) 1 wi) as H1.
  set (c1 := bump (190 <=? h) 1 wi) in *. clearbody c1.
  pose proof (bump_range (h <=? 168) (-1) c1) as H2.
  set (c2 := bump (h <=? 168) (-1) c1) in *. clearbody c2.
  destruct (clamp_between c2 24 48 ltac:(lia)) as (r & -> & _ & Hr).
  intros [= <-]. rewrite Hr; lia.
Qed.

Lemma derive_alpha_canonical (h w : option Z) (g : option string) (a : string) :
  deriveAlphaFromProportions h w g = Some a ->
  normalizeAlphaSize a = Some a.
Proof.
  unfold deriveAlphaFromProportions.
  destruct h as [h|], w as [w|]; try discriminate.
  destruct (negb (truthy (Some h)) || negb (truthy (Some w))); [discriminate|].
  repeat match goal with
         | |- context [if ?c then _ else _] => destruct c
         end; intros [= <-]; reflexivity.
Qed.

Lemma outside_within (v lo hi : Z) :
  lo <= v <= hi -> outside (Some v) lo hi = false.
Proof.
  intros H. unfold outside. rewrite Z.gtb_ltb.
  destruct (Z.ltb_spec v lo), (Z.ltb_spec hi v); (reflexivity || lia).
Qed.

(** X10. What the engine derives, the engine accepts: a user record
    whose usual size for the schema's system is the size the derivation
    gives for that record's own height and weight is never flagged by
    [validateAtomic] on that size.  The derived collar lies within 37-44
    and the derived waist within 25-39. *)
Theorem derived_sizes_pass_validation (s : Schema) (u : User.t) :
  (system s = EU_NUMERIC ->
   User.usual_size_eu u
   = deriveEuSizeFromProportions (User.height_cm u) (User.weight_kg u) (gender s) ->
   ~ In "usual_size_eu" (validateAtomic (Some s) (Some u)))
  /\ (system s = SHIRT_COLLAR_EU ->
      User.shirt_size_eu u
      = deriveShirtCollarFromProportions (User.height_cm u) (User.weight_kg u) ->
      ~ In "shirt_size_eu" (validateAtomic (Some s) (Some u))
      /\ forall v, User.shirt_size_eu u = Some v -> 37 <= v <= 44)
  /\ (system s = WAIST_INCH ->
      User.waist_inch u
      = deriveWaistFromProportions (User.height_cm u) (User.weight_kg u) (gender s) ->
      ~ In "waist_inch" (validateAtomic (Some s) (Some u))
      /\ forall v, User.waist_inch u = Some v -> 25 <= v <= 39)
  /\ (system s = ALPHA ->
      User.alpha_size u
      = deriveAlphaFromProportions (User.height_cm u) (User.weight_kg u) (gender s) ->
      ~ In "alpha_size" (validateAtomic (Some s) (Some u))).
Proof.
  destruct (validate_size_tags (Some s) (Some u)) as (He & Hc & Hw & Ha).
  cbn [default] in *. unfold id in *.
  split; [|split; [|split]].
  - intros _ Hd Hin. apply He in Hin as (s' & [= <-] & _ & Htr & Hout).
    destruct (User.usual_size_eu u) as [v|] eqn:Hv; [|discriminate].
    symmetry in Hd. apply derive_eu_bounds in Hd. congruence.
  - intros _ Hd.
    assert (Hb : forall v, User.shirt_size_eu u = Some v -> 37 <= v <= 44).
    { intros v Hv. rewrite Hv in Hd. symmetry in Hd.
      now apply derive_collar_bounds in Hd. }
    split; [|exact Hb]. intros Hin. apply Hc in Hin as (_ & _ & Hout).
    destruct (User.shirt_size_eu u) as [v|]; [|discriminate].
    rewrite outside_within in Hout; [discriminate|].
    specialize (Hb v eq_refl). lia.
  - intros _ Hd.
    assert (Hb : forall v, User.waist_inch u = Some v -> 25 <= v <= 39).
    { intros v Hv. rewrite Hv in Hd. symmetry in Hd.
      now apply derive_waist_bounds in Hd. }
    split; [|exact Hb]. intros Hin. apply Hw in Hin as (_ & _ & Hout).
    destruct (User.waist_inch u) as [v|]; [|discriminate].
    rewrite outside_within in Hout; [discriminate|].
    specialize (Hb v eq_refl). lia.
  - intros _ Hd Hin. apply Ha in Hin as (_ & Htr & Hnone).
    destruct (User.alpha_size u) as [a|] eqn:Hv; [|discriminate].
    symmetry in Hd. apply derive_alpha_canonical in Hd.
    cbn in Hnone. congruence.
Qed.

Lemma derived_sizes_pass_validation_witness :
  ~ In "shirt_size_eu"
      (validateAtomic (Some collarSchema)
         (Some {| User.height_cm := Some 178; User.weight_kg := Some 75;
                  User.usual_size_eu := None; User.shirt_size_eu := Some 40;
                  User.alpha_size := None; User.waist_inch := None |})).
Proof.
  exact (proj1 (proj1 (proj2 (derived_sizes_pass_validation collarSchema
                                {| User.height_cm := Some 178;
                                   User.weight_kg := Some 75;
                                   User.usual_size_eu := None;
                                   User.shirt_size_eu := Some 40;
                                   User.alpha_size := None;
                                   User.waist_inch := None |}))
                 eq_refl eq_refl)).
Defined.

End Validation.

(** ** What the product text decides *)

Section ProductText.
Import JsString Regex Sizing Guardrails Analysis Stated Described Samples.

Lemma append_assoc (a b c : string) : (a ++ b) ++ c = a ++ (b ++ c).
Proof.
  induction a as [|x a IH]; [reflexivity|].
  rewrite !app_cons. now rewrite IH.
Qed.

Lemma prefix_spec (n h : string) :
  String.prefix n h = true <-> exists post, h = n ++ post.
Proof.
  revert h. induction n as [|c n IH]; intros h.
  - split; [intros _; exists h; reflexivity|]. intros _. now destruct h.
  - destruct h as [|d h]; cbn [String.prefix].
    + split; [discriminate|]. intros [post H]. discriminate H.
    + destruct (Ascii.ascii_dec c d) as [->|Hne].
      * rewrite IH. split; intros [post H]; exists post.
        -- rewrite app_cons. now rewrite H.
        -- rewrite app_cons in H. now injection H.
      * split; [discriminate|]. intros [post H].
        rewrite app_cons in H. injection H as H1 _. congruence.
Qed.

(** [h.indexOf(n) !== -1]: [n] occurs somewhere in [h]. *)
Lemma includes_spec (n h : string) :
  includes n h = true <-> exists pre post, h = pre ++ n ++ post.
Proof.
  induction h as [|d h IH].
  - cbn [includes]. rewrite orb_false_r, prefix_spec. split.
    + intros [post H]. exists "", post. exact H.
    + intros (pre & post & H). destruct pre as [|x pre]; [|discriminate H].
      exists post. exact H.
  - cbn [includes]. rewrite orb_true_iff, prefix_spec, IH. split.
    + intros [[post H]|(pre & post & H)].
      * exists "", post. exact H.
      * exists (String d pre), post. rewrite app_cons. now rewrite H.
    + intros (pre & post & H). destruct pre as [|x pre].
      * left. exists post. exact H.
      * right. rewrite app_cons in H. injection H as _ H.
        exists pre, post. exact H.
Qed.

Lemma includes_trans (a b h : string) :
  includes a b = true -> includes b h = true -> includes a h = true.
Proof.
  rewrite !includes_spec. intros (p1 & q1 & ->) (p2 & q2 & ->).
  exists (p2 ++ p1), (q1 ++ q2). now rewrite !append_assoc.
Qed.

Lemma lowerChar_idem (c : ascii) : lowerChar (lowerChar c) = lowerChar c.
Proof.
  destruct c as [[|] [|] [|] [|] [|] [|] [|] [|]]; vm_compute; reflexivity.
Qed.

Lemma lower_idem (s : string) : lower (lower s) = lower s.
Proof.
  unfold lower, toLowerCase. induction s as [|c s IH]; [reflexivity|].
  cbn [mapChars]. now rewrite lowerChar_idem, IH.
Qed.

Lemma lower_app (a b : string) : lower (a ++ b) = lower a ++ lower b.
Proof.
  unfold lower, toLowerCase. induction a as [|c a IH]; [reflexivity|].
  rewrite app_cons. cbn [mapChars]. now rewrite IH.
Qed.

Lemma text_is_lower (product : option Product) :
  lower (getProductText product) = getProductText product.
Proof.
  destruct product as [p|]; [|reflexivity].
  unfold getProductText. apply lower_idem.
Qed.

(** Against a lower-case text, [containsAny] with one lower-case needle
    is [includes]. *)
Lemma containsAny_cons (t n : string) (rest : list string) :
  containsAny t (n :: rest)
  = includes (lower n) (lower t) || containsAny t rest.
Proof. cbn [containsAny]. now destruct (includes _ _). Qed.

(** X11. The category of a product is shirt exactly when its text holds
    the word part [shirt], and T-shirt exactly when it holds [tee] and
    not [shirt]: the tokens [t-shirt] and [tshirt] never decide, a
    product described as a T-shirt is classed as a shirt.  The category
    outerwear is never inferred. *)
Theorem category_by_shirt_token (product : option Product) :
  let t := getProductText product in
  (inferCategoryFromProduct product = SHIRT <-> includes "shirt" t = true)
  /\ (inferCategoryFromProduct product = TSHIRT
      <-> includes "shirt" t = false /\ includes "tee" t = true)
  /\ (includes "t-shirt" t = true \/ includes "tshirt" t = true ->
      inferCategoryFromProduct product = SHIRT)
  /\ inferCategoryFromProduct product <> OUTERWEAR.
Proof.
  cbn zeta. unfold inferCategoryFromProduct.
  rewrite !containsAny_cons, text_is_lower.
  set (t := getProductText product).
  change (lower "overshirt") with "overshirt".
  change (lower "shirt") with "shirt".
  change (lower "t-shirt") with "t-shirt".
  change (lower "tee") with "tee".
  change (lower "tshirt") with "tshirt".
  cbn [containsAny]. rewrite !orb_false_r.
  assert (Hover : includes "overshirt" t = true -> includes "shirt" t = true)
    by (apply includes_trans; reflexivity).
  assert (Hdash : includes "t-shirt" t = true -> includes "shirt" t = true)
    by (apply includes_trans; reflexivity).
  assert (Hts : includes "tshirt" t = true -> includes "shirt" t = true)
    by (apply includes_trans; reflexivity).
  assert (Hempty : (t =? "")%string = true -> includes "shirt" t = false
                                              /\ includes "tee" t = false).
  { intros H. apply String.eqb_eq in H. rewrite H. split; reflexivity. }
  destruct (t =? "")%string.
  { destruct (Hempty eq_refl) as [H1 H2]. rewrite H1, H2 in *.
    intuition congruence. }
  clear Hempty.
  destruct (includes "shirt" t) eqn:Hs.
  { destruct (includes "overshirt" t); intuition congruence. }
  destruct (includes "overshirt" t); [now specialize (Hover eq_refl)|].
  destruct (includes "t-shirt" t); [now specialize (Hdash eq_refl)|].
  destruct (includes "tshirt" t); [now specialize (Hts eq_refl)|].
  rewrite orb_false_l, orb_false_r.
  destruct (includes "tee" t); [intuition congruence|].
  repeat match goal with
         | |- context [if ?c then _ else _] => destruct c
         end; intuition congruence.
Qed.

Lemma join_holds (sep x : string) (before after : list string) :
  exists pre post, join sep (before ++ x :: after)%list = pre ++ x ++ post.
Proof.
  induction before as [|b before IH].
  - destruct after as [|a after].
    + exists "", "". cbn [join List.app]. rewrite app_empty.
      induction x as [|c x IHx]; [reflexivity|].
      rewrite app_cons. now rewrite <- IHx.
    + exists "", (sep ++ join sep (a :: after)). reflexivity.
  - destruct IH as (pre & post & IH).
    exists (b ++ sep ++ pre), post.
    change ((b :: before) ++ x :: after)%list
      with (b :: (before ++ x :: after))%list.
    destruct (before ++ x :: after)%list as [|y rest] eqn:Hl.
    { now destruct before. }
    change (join sep (b :: y :: rest)) with (b ++ sep ++ join sep (y :: rest)).
    rewrite IH. now rewrite !append_assoc.
Qed.

Lemma pushIf_app (o : option string) (parts : list string) :
  pushIf o parts = (parts ++ (if truthyStr o then [default "" o] else []))%list.
Proof. unfold pushIf. destruct (truthyStr o); [reflexivity|now rewrite app_nil_r]. Qed.

Lemma pushJoined_app (o : option (list string)) (parts : list string) :
  exists more, pushJoined o parts = (parts ++ more)%list.
Proof.
  destruct o as [l|]; [exists [join " " l]|exists []]; cbn [pushJoined];
    [reflexivity|now rewrite app_nil_r].
Qed.

(** A handle that is not empty is part of the product text. *)
Lemma handle_in_text (p : Product) :
  truthyStr (handle p) = true ->
  includes (lower (default "" (handle p))) (getProductText (Some p)) = true.
Proof.
  intros Hh. apply includes_spec. unfold getProductText.
  destruct (pushJoined_app (options p)
              (pushJoined (tags p)
                 (pushIf (vendor p) (pushIf (type p)
                    (pushIf (handle p) (pushIf (title p) []))))))
    as [m2 ->].
  destruct (pushJoined_app (tags p)
              (pushIf (vendor p) (pushIf (type p)
                 (pushIf (handle p) (pushIf (title p) [])))))
    as [m1 ->].
  rewrite !pushIf_app, Hh. cbn [List.app].
  set (before := if truthyStr (title p) then _ else _).
  set (l3 := if truthyStr (type p) then _ else _).
  set (l4 := if truthyStr (vendor p) then _ else _).
  replace (((((before ++ [default "" (handle p)]) ++ l3) ++ l4) ++ m1) ++ m2)%list
    with (before ++ default "" (handle p) :: (l3 ++ l4 ++ m1 ++ m2))%list
    by (rewrite <- !app_assoc; reflexivity).
  destruct (join_holds " " (default "" (handle p)) before (l3 ++ l4 ++ m1 ++ m2))
    as (pre & post & ->).
  exists (lower pre), (lower post). now rewrite !lower_app.
Qed.

Lemma startsWith_includes (a n h t : string) :
  includes n a = true ->
  startsWith a h = true -> includes h t = true -> includes n t = true.
Proof.
  intros Hn Ha Ht. apply (includes_trans n h t); [|exact Ht].
  apply (includes_trans n a h); [exact Hn|].
  apply includes_spec. apply prefix_spec in Ha as [post ->].
  exists "", post. reflexivity.
Qed.

(** X12. The gender of a product is read from its text alone: female
    when the text holds one of the women's tokens, otherwise male when
    it holds one of the men's tokens, otherwise none.  The handle
    convention (woman-, women-, man-, men-) never decides, since a
    handle is part of the text its tokens are searched in. *)
Theorem gender_from_text_alone (product : option Product) :
  let t := getProductText product in
  let womens := containsAny t ["women"; "woman"; "womenswear"; "ladies"; "female"] in
  let mens := containsAny t ["men"; "man"; "menswear"; "male"; "gentlemen"] in
  inferGenderFromProduct product
  = if womens then Some "female" else if mens then Some "male" else None.
Proof.
  cbn zeta. unfold inferGenderFromProduct.
  destruct (getProductText product =? "")%string eqn:He.
  { apply String.eqb_eq in He. rewrite He. reflexivity. }
  destruct (containsAny _ ["women"; _; _; _; _]) eqn:Hw; [reflexivity|].
  destruct (containsAny _ ["men"; _; _; _; _]) eqn:Hm; [reflexivity|].
  destruct product as [p|]; [|reflexivity].
  destruct (truthyStr (handle p)) eqn:Hh; [|reflexivity].
  pose proof (handle_in_text p Hh) as Hin.
  rewrite !containsAny_cons, text_is_lower in Hw, Hm.
  set (t := getProductText (Some p)) in *.
  set (h := lower (default "" (handle p))) in *.
  apply orb_false_elim in Hw as [Hwomen Hw].
  apply orb_false_elim in Hw as [Hwoman _].
  apply orb_false_elim in Hm as [Hmen Hm].
  apply orb_false_elim in Hm as [Hman _].
  change (lower "women") with "women" in Hwomen.
  change (lower "woman") with "woman" in Hwoman.
  change (lower "men") with "men" in Hmen.
  change (lower "man") with "man" in Hman.
  destruct (startsWith "woman-" h) eqn:H1.
  { rewrite (startsWith_includes "woman-" "woman" h t) in Hwoman;
      [discriminate|reflexivity|exact H1|exact Hin]. }
  destruct (startsWith "women-" h) eqn:H2.
  { rewrite (startsWith_includes "women-" "women" h t) in Hwomen;
      [discriminate|reflexivity|exact H2|exact Hin]. }
  destruct (startsWith "man-" h) eqn:H3.
  { rewrite (startsWith_includes "man-" "man" h t) in Hman;
      [discriminate|reflexivity|exact H3|exact Hin]. }
  destruct (startsWith "men-" h) eqn:H4.
  { rewrite (startsWith_includes "men-" "men" h t) in Hmen;
      [discriminate|reflexivity|exact H4|exact Hin]. }
  reflexivity.
Qed.

End ProductText.

(** ** Rounding keeps the order *)

Section DoubleFacts.
Import Double.
Local Open Scope Q_scope.

Lemma nearestEven_bounds (x : Q) :
  (Qfloor x <= nearestEven x <= Qfloor x + 1)%Z.
Proof.
  unfold nearestEven.
  destruct (Qcompare _ _); [destruct (Z.even _)| |]; lia.
Qed.

Lemma nearestEven_mono (x y : Q) :
  x <= y -> (nearestEven x <= nearestEven y)%Z.
Proof.
  intros Hxy. pose proof (Qfloor_resp_le x y Hxy) as Hq.
  pose proof (nearestEven_bounds x) as Hx.
  pose proof (nearestEven_bounds y) as Hy.
  destruct (Z.eq_dec (Qfloor x) (Qfloor y)) as [Heq|Hne]; [|lia].
  unfold nearestEven in *. rewrite <- Heq in *.
  set (q := Qfloor x) in *.
  destruct (Qcompare (x - inject_Z q) (1 # 2)) eqn:Hcx;
    destruct (Qcompare (y - inject_Z q) (1 # 2)) eqn:Hcy;
    try lia; try (destruct (Z.even q); lia); exfalso.
  - apply Qeq_alt in Hcx. apply Qlt_alt in Hcy. lra.
  - apply Qgt_alt in Hcx. apply Qeq_alt in Hcy. lra.
  - apply Qgt_alt in Hcx. apply Qlt_alt in Hcy. lra.
Qed.

Lemma two_pos (e : Z) : 0 < 2 ^ e.
Proof. apply Qpower_0_lt. reflexivity. Qed.

Lemma two_succ (e : Z) : 2 ^ (e + 1) == 2 * 2 ^ e.
Proof.
  rewrite Qpower_plus by discriminate. change (2 ^ 1) with 2. ring.
Qed.

Lemma exponent_spec (x : Q) :
  0 < x -> 2 ^ 52 <= x / 2 ^ exponent x /\ x / 2 ^ exponent x < 2 ^ 53.
Proof.
  intros Hx. unfold exponent.
  set (a := Z.log2 (Qnum x)). set (b := Z.log2 (Zpos (Qden x))).
  set (e := (a - b - 52)%Z).
  assert (Hn : (0 < Qnum x)%Z).
  { clear a b e. destruct x as [n d]. unfold Qlt in Hx. cbn in *. lia. }
  destruct (Z.log2_spec (Qnum x) Hn) as [Hn1 Hn2].
  destruct (Z.log2_spec (Zpos (Qden x)) eq_refl) as [Hd1 Hd2].
  fold a in Hn1, Hn2. fold b in Hd1, Hd2.
  assert (Ha : (0 <= a)%Z) by apply Z.log2_nonneg.
  assert (Hb : (0 <= b)%Z) by apply Z.log2_nonneg.
  assert (Hq1 : inject_Z (2 ^ a) <= inject_Z (Qnum x))
    by (rewrite <- Zle_Qle; exact Hn1).
  assert (Hq2 : inject_Z (Qnum x) < inject_Z (2 ^ Z.succ a))
    by (rewrite <- Zlt_Qlt; exact Hn2).
  assert (Hq3 : inject_Z (2 ^ b) <= inject_Z (Zpos (Qden x)))
    by (rewrite <- Zle_Qle; exact Hd1).
  assert (Hq4 : inject_Z (Zpos (Qden x)) < inject_Z (2 ^ Z.succ b))
    by (rewrite <- Zlt_Qlt; exact Hd2).
  rewrite Zpower_Qpower in Hq1, Hq2, Hq3, Hq4 by lia.
  change (inject_Z 2) with 2 in *.
  set (N := inject_Z (Qnum x)) in *. set (D := inject_Z (Zpos (Qden x))) in *.
  assert (HD : 0 < D) by (unfold D; rewrite <- (Zlt_Qlt 0); reflexivity).
  assert (Hx' : x * D == N).
  { unfold N, D. clear. destruct x as [n d]. cbn [Qnum Qden].
    unfold Qeq, Qmult, inject_Z. cbn. lia. }
  pose proof (two_pos e) as HP. pose proof (two_pos b) as HB.
  assert (Ea : 2 ^ a == 2 ^ e * 2 ^ b * 2 ^ 52).
  { rewrite <- !Qpower_plus by discriminate. unfold e.
    replace (a - b - 52 + b + 52)%Z with a by lia. reflexivity. }
  assert (Ea1 : 2 ^ Z.succ a == 2 * 2 ^ a).
  { unfold Z.succ. apply two_succ. }
  assert (Eb1 : 2 ^ Z.succ b == 2 * 2 ^ b).
  { unfold Z.succ. apply two_succ. }
  rewrite Ea1 in Hq2. rewrite Eb1 in Hq4. rewrite Ea in Hq1, Hq2.
  set (P := 2 ^ e) in *. set (B := 2 ^ b) in *.
  set (Y := x / P).
  assert (HY : Y * P == x).
  { unfold Y. field. intros H0. rewrite H0 in HP. discriminate HP. }
  assert (E53 : (2 : Q) ^ 53 == 2 * 2 ^ 52) by reflexivity.
  set (K := (2 : Q) ^ 52) in *.
  assert (HK : 0 < K) by reflexivity.
  assert (Hlow : K < 2 * Y).
  { apply (Qmult_lt_r _ _ (P * D)); [nra|].
    assert (E : 2 * Y * (P * D) == 2 * N).
    { rewrite <- Hx', <- HY. ring. }
    rewrite E. nra. }
  assert (Hhigh : Y < 2 * K).
  { apply (Qmult_lt_r _ _ (P * D)); [nra|].
    assert (E : Y * (P * D) == N).
    { rewrite <- Hx', <- HY. ring. }
    rewrite E. nra. }
  destruct (Qle_bool K Y) eqn:Hc.
  - apply Qle_bool_iff in Hc. fold P. fold Y. rewrite E53. split; [exact Hc|exact Hhigh].
  - assert (Hlt : Y < K).
    { apply Qnot_le_lt. intros Hle. apply Qle_bool_iff in Hle.
      rewrite Hle in Hc. discriminate Hc. }
    assert (Ee : 2 ^ e == 2 * 2 ^ (e - 1)).
    { rewrite <- two_succ. replace (e - 1 + 1)%Z with e by lia. reflexivity. }
    pose proof (two_pos (e - 1)) as HP'.
    fold P in Ee.
    assert (E2 : x / 2 ^ (e - 1) == 2 * Y).
    { unfold Y. rewrite Ee. field. intros H0. rewrite H0 in HP'. discriminate HP'. }
    rewrite E2, E53. split; lra.
Qed.

Lemma scaled (x : Q) (e : Z) : x / 2 ^ e * 2 ^ e == x.
Proof.
  field. intros H0. pose proof (two_pos e) as HP. rewrite H0 in HP.
  discriminate HP.
Qed.

Lemma mantissa_range (x : Q) :
  0 < x ->
  (2 ^ 52 <= nearestEven (x / 2 ^ exponent x) <= 2 ^ 53)%Z.
Proof.
  intros Hx. destruct (exponent_spec x Hx) as [Hlo Hhi].
  pose proof (nearestEven_bounds (x / 2 ^ exponent x)) as Hb.
  set (X := x / 2 ^ exponent x) in *.
  assert (H1 : (2 ^ 52 <= Qfloor X)%Z).
  { rewrite <- (Qfloor_Z (2 ^ 52)). apply Qfloor_resp_le. exact Hlo. }
  assert (H2 : (Qfloor X < 2 ^ 53)%Z).
  { rewrite Zlt_Qlt. apply (Qle_lt_trans _ X); [apply Qfloor_le|exact Hhi]. }
  lia.
Qed.

Lemma roundPositive_pos (x : Q) : 0 < x -> 0 < roundPositive x.
Proof.
  intros Hx. unfold roundPositive.
  pose proof (mantissa_range x Hx) as [Hm _].
  pose proof (two_pos (exponent x)) as HP.
  assert (Hq : 0 < inject_Z (nearestEven (x / 2 ^ exponent x))).
  { rewrite <- (Zlt_Qlt 0). lia. }
  nra.
Qed.

Lemma roundPositive_mono (x y : Q) :
  0 < x -> x <= y -> roundPositive x <= roundPositive y.
Proof.
  intros Hx Hxy. assert (Hy : 0 < y) by lra.
  destruct (exponent_spec x Hx) as [Hxl Hxh].
  destruct (exponent_spec y Hy) as [Hyl Hyh].
  pose proof (mantissa_range x Hx) as [Hmx1 Hmx2].
  pose proof (mantissa_range y Hy) as [Hmy1 Hmy2].
  unfold roundPositive.
  pose proof (scaled x (exponent x)) as Ex.
  pose proof (scaled y (exponent y)) as Ey.
  set (ex := exponent x) in *. set (ey := exponent y) in *.
  pose proof (two_pos ex) as HPx. pose proof (two_pos ey) as HPy.
  set (X := x / 2 ^ ex) in *. set (Y := y / 2 ^ ey) in *.
  assert (E53 : (2 : Q) ^ 53 == 2 * 2 ^ 52) by reflexivity.
  assert (HK : 0 < (2 : Q) ^ 52) by reflexivity.
  assert (Hq1 : inject_Z (nearestEven X) <= 2 * 2 ^ 52).
  { rewrite <- E53. change ((2 : Q) ^ 53) with (inject_Z (2 ^ 53)).
    rewrite <- Zle_Qle. exact Hmx2. }
  assert (Hq2 : 2 ^ 52 <= inject_Z (nearestEven Y)).
  { change ((2 : Q) ^ 52) with (inject_Z (2 ^ 52)).
    rewrite <- Zle_Qle. exact Hmy1. }
  set (K := (2 : Q) ^ 52) in *.
  destruct (Z.lt_trichotomy ex ey) as [Hlt|[Heq|Hgt]].
  - assert (Hp : 2 * 2 ^ ex <= 2 ^ ey).
    { rewrite <- two_succ. apply Qpower_le_compat_l; [lia|discriminate]. }
    set (Px := 2 ^ ex) in *. set (Py := 2 ^ ey) in *.
    apply (Qle_trans _ (2 * K * Px)); [nra|].
    apply (Qle_trans _ (K * Py)); nra.
  - subst ey. rewrite <- Heq in *. clear Heq.
    assert (HXY : X <= Y).
    { unfold X, Y. fold ex. apply Qmult_le_r with (z := 2 ^ ex); [exact HPx|].
      fold X. fold ex in Ey. rewrite Ex. unfold Y in Ey. rewrite Ey. exact Hxy. }
    pose proof (nearestEven_mono X Y HXY) as Hm.
    rewrite Zle_Qle in Hm. set (Px := 2 ^ ex) in *. nra.
  - exfalso.
    assert (Hp : 2 * 2 ^ ey <= 2 ^ ex).
    { rewrite <- two_succ. apply Qpower_le_compat_l; [lia|discriminate]. }
    set (Px := 2 ^ ex) in *. set (Py := 2 ^ ey) in *.
    rewrite E53 in Hyh.
    assert (H1 : K * Px <= x) by (rewrite <- Ex; nra).
    assert (H2 : y < 2 * K * Py) by (rewrite <- Ey; nra).
    nra.
Qed.

Lemma round_positive (x : Q) : 0 < x -> round x = roundPositive x.
Proof.
  intros Hx. unfold round. apply Qgt_alt in Hx. now rewrite Hx.
Qed.

Lemma div_pos (x y : Q) : 0 < x -> 0 < y -> 0 < div x y.
Proof.
  intros Hx Hy. unfold div.
  assert (H : 0 < x / y) by (apply Qlt_shift_div_l; [exact Hy|lra]).
  rewrite round_positive by exact H. now apply roundPositive_pos.
Qed.

Lemma div_mono (x y d : Q) :
  0 < d -> 0 < x -> x <= y -> div x d <= div y d.
Proof.
  intros Hd Hx Hxy. unfold div.
  assert (H1 : 0 < x / d) by (apply Qlt_shift_div_l; [exact Hd|lra]).
  assert (H2 : x / d <= y / d).
  { apply Qmult_le_r with (z := d); [exact Hd|].
    assert (E1 : x / d * d == x) by (field; lra).
    assert (E2 : y / d * d == y) by (field; lra).
    rewrite E1, E2. exact Hxy. }
  assert (H3 : 0 < y / d) by lra.
  rewrite !round_positive by assumption.
  now apply roundPositive_mono.
Qed.
End DoubleFacts.

(** ** Heavier never means smaller *)

Section Monotone.
Import JsString Regex Sizing Guardrails Analysis Stated Described Samples.

(** At a fixed height the frame index does not decrease with the weight,
    so a threshold the heavier customer is below, the lighter is below. *)
Lemma frame_monotone (h w1 w2 : Z) :
  0 < h -> 0 < w1 <= w2 -> (frameIndex h w1 <= frameIndex h w2)%Q.
Proof.
  intros Hh Hw. unfold frameIndex.
  assert (H0 : (0 < inject_Z 100)%Q) by reflexivity.
  assert (Hq : (0 < inject_Z h)%Q) by (now rewrite <- (Zlt_Qlt 0)).
  apply div_mono.
  - now apply div_pos.
  - rewrite <- (Zlt_Qlt 0). lia.
  - rewrite <- Zle_Qle. lia.
Qed.

Lemma below_lighter (h w1 w2 b : Z) :
  0 < h -> 0 < w1 <= w2 ->
  below (frameIndex h w2) b = true -> below (frameIndex h w1) b = true.
Proof.
  intros Hh Hw. pose proof (frame_monotone h w1 w2 Hh Hw) as Hm.
  unfold below. rewrite !negb_true_iff. intros H2.
  apply not_true_is_false. intros H1. apply Qle_bool_iff in H1.
  assert (H3 : Qle_bool (inject_Z b) (frameIndex h w2) = true).
  { apply Qle_bool_iff. apply (Qle_trans _ _ _ H1 Hm). }
  rewrite H3 in H2. discriminate H2.
Qed.

Lemma clamp_mono (a b lo hi : Z) :
  a <= b ->
  exists x y, clamp (Some a) lo hi = Some x /\ clamp (Some b) lo hi = Some y
              /\ (lo <= hi -> x <= y).
Proof.
  intros Hab. unfold clamp. do 2 eexists. split; [reflexivity|].
  split; [reflexivity|]. rewrite !Z.gtb_ltb. intros Hlh.
  destruct (Z.ltb_spec a lo), (Z.ltb_spec b lo), (Z.ltb_spec hi a),
    (Z.ltb_spec hi b); lia.
Qed.

Lemma bump_mono (c1 c2 : bool) (step a b : Z) :
  a <= b -> 0 <= step -> (c1 = true -> c2 = true) ->
  bump c1 step a <= bump c2 step b.
Proof.
  intros Hab Hs Hc. unfold bump. destruct c1, c2; lia.
Qed.

Lemma bump_down_mono (c1 c2 : bool) (step a b : Z) :
  a <= b -> step <= 0 -> (c2 = true -> c1 = true) ->
  bump c1 step a <= bump c2 step b.
Proof.
  intros Hab Hs Hc. unfold bump. destruct c1, c2; lia.
Qed.

Ltac by_thresholds :=
  repeat match goal with
         | |- context [?a <? ?b] => destruct (Z.ltb_spec a b)
         end; try lia.

(** The same for the thresholds on the frame index: of the two customers
    the lighter is below every threshold the heavier is below. *)
Ltac by_frame h w1 w2 Hh Hw :=
  repeat match goal with
         | |- context [below (frameIndex h w2) ?b] =>
             let H2 := fresh "H2" in
             let H1 := fresh "H1" in
             destruct (below (frameIndex h w2) b) eqn:H2;
             [pose proof (below_lighter h w1 w2 b Hh Hw H2) as H1;
              rewrite ?H1|]
         end;
  repeat match goal with
         | |- context [below (frameIndex h w1) ?b] =>
             destruct (below (frameIndex h w1) b)
         end.

Lemma truthy_positive (n : Z) : 0 < n -> truthy (Some n) = true.
Proof. intros H. cbn. destruct (Z.eqb_spec n 0); [lia|reflexivity]. Qed.

(** Splits a goal about two clamped values into the order of the values
    before the clamp and the order after it. *)
Ltac clamp_both lo hi :=
  match goal with
  | |- exists a b, clamp (Some ?x) lo hi = Some a
                   /\ clamp (Some ?y) lo hi = Some b /\ a <= b =>
      let a := fresh "a" in
      let b := fresh "b" in
      let Hab := fresh "Hab" in
      destruct (clamp_mono x y lo hi) as (a & b & -> & -> & Hab);
      [|exists a, b; split; [reflexivity|split; [reflexivity|lia]]]
  end.

Lemma eu_monotone (h w1 w2 : Z) (g : option string) :
  0 < h -> 0 < w1 <= w2 ->
  exists a b, deriveEuSizeFromProportions (Some h) (Some w1) g = Some a
              /\ deriveEuSizeFromProportions (Some h) (Some w2) g = Some b
              /\ a <= b.
Proof.
  intros Hh Hw. unfold deriveEuSizeFromProportions.
  rewrite !truthy_positive by lia. cbn [negb orb]. cbv zeta.
  destruct (genderIs g "male"); [|destruct (genderIs g "female")].
  - clamp_both 44 60.
    apply bump_mono; [|lia|auto]. apply bump_mono; [|lia|auto].
    by_frame h w1 w2 Hh Hw; lia.
  - clamp_both 32 48.
    apply bump_mono; [|lia|auto]. apply bump_mono; [|lia|auto].
    by_frame h w1 w2 Hh Hw; lia.
  - clamp_both 34 58. by_frame h w1 w2 Hh Hw; lia.
Qed.

Lemma collar_monotone (h1 h2 w1 w2 : Z) :
  0 < h1 <= h2 -> 0 < w1 <= w2 ->
  exists a b, deriveShirtCollarFromProportions (Some h1) (Some w1) = Some a
              /\ deriveShirtCollarFromProportions (Some h2) (Some w2) = Some b
              /\ a <= b.
Proof.
  intros Hh Hw. unfold deriveShirtCollarFromProportions.
  rewrite !truthy_positive by lia. cbn [negb orb]. cbv zeta.
  clamp_both 37 46.
  apply bump_down_mono; [|lia|lia]. apply bump_mono; [|lia|lia]. by_thresholds.
Qed.

Lemma waist_monotone (h1 h2 w1 w2 : Z) (g : option string) :
  0 < h1 <= h2 -> 0 < w1 <= w2 ->
  exists a b, deriveWaistFromProportions (Some h1) (Some w1) g = Some a
              /\ deriveWaistFromProportions (Some h2) (Some w2) g = Some b
              /\ a <= b.
Proof.
  intros Hh Hw. unfold deriveWaistFromProportions.
  rewrite !truthy_positive by lia. cbn [negb orb]. cbv zeta.
  clamp_both 24 48.
  apply bump_down_mono; [|lia|lia]. apply bump_mono; [|lia|lia].
  destruct (genderIs g "female"); by_thresholds.
Qed.

Lemma alpha_monotone (h w1 w2 : Z) (g : option string) :
  0 < h -> 0 < w1 <= w2 ->
  exists a b, deriveAlphaFromProportions (Some h) (Some w1) g = Some a
              /\ deriveAlphaFromProportions (Some h) (Some w2) g = Some b
              /\ rankOf a <= rankOf b.
Proof.
  intros Hh Hw. unfold deriveAlphaFromProportions.
  rewrite !truthy_positive by lia. cbn [negb orb]. cbv zeta.
  do 2 eexists. split; [reflexivity|]. split; [reflexivity|].
  destruct (genderIs g "female");
    by_frame h w1 w2 Hh Hw; vm_compute; discriminate.
Qed.

(** X13. A heavier customer is never given a smaller size.  At a fixed
    height the derived EU size and the rank of the derived size letter
    do not decrease with the weight; the derived shirt collar and waist
    do not decrease with the weight nor with the height.  Each derivation
    gives a size for every positive height and weight.  The heights and
    weights are integers a number holds exactly, and the frame index is
    the rounded quotient the program computes: at 136 cm and 68 kg it
    falls just below 50, where the exact quotient is 50. *)
Theorem heavier_never_smaller (h1 h2 w1 w2 : Z) (g : option string) :
  0 < h1 <= h2 -> 0 < w1 <= w2 -> exactInteger h2 -> exactInteger w2 ->
  (exists a b, deriveEuSizeFromProportions (Some h1) (Some w1) g = Some a
               /\ deriveEuSizeFromProportions (Some h1) (Some w2) g = Some b
               /\ a <= b)
  /\ (exists a b, deriveAlphaFromProportions (Some h1) (Some w1) g = Some a
                  /\ deriveAlphaFromProportions (Some h1) (Some w2) g = Some b
                  /\ rankOf a <= rankOf b)
  /\ (exists a b, deriveShirtCollarFromProportions (Some h1) (Some w1) = Some a
                  /\ deriveShirtCollarFromProportions (Some h2) (Some w2) = Some b
                  /\ a <= b)
  /\ (exists a b, deriveWaistFromProportions (Some h1) (Some w1) g = Some a
                  /\ deriveWaistFromProportions (Some h2) (Some w2) g = Some b
                  /\ a <= b)
  /\ (frameIndex h1 w1 <= frameIndex h1 w2)%Q
  /\ below (frameIndex 136 68) 50 = true
  /\ deriveEuSizeFromProportions (Some 136) (Some 68) None = Some 44
  /\ deriveAlphaFromProportions (Some 220) (Some 66) (Some "female")
     = Some "XS".
Proof.
  intros Hh Hw _ _. split; [|split; [|split; [|split; [|split]]]].
  - apply eu_monotone; lia.
  - apply alpha_monotone; lia.
  - now apply collar_monotone.
  - now apply waist_monotone.
  - apply frame_monotone; lia.
  - split; [vm_compute; reflexivity|].
    split; vm_compute; reflexivity.
Qed.

Lemma heavier_never_smaller_witness :
  exists a b, deriveEuSizeFromProportions (Some 180) (Some 70) (Some "male") = Some a
              /\ deriveEuSizeFromProportions (Some 180) (Some 95) (Some "male") = Some b
              /\ a <= b.
Proof.
  apply (proj1 (heavier_never_smaller 180 185 70 95 (Some "male")
                  ltac:(lia) ltac:(lia)
                  ltac:(vm_compute; discriminate)
                  ltac:(vm_compute; discriminate))).
Defined.

End Monotone.

(** ** The loop over the bare numbers *)

Section Bands.
Import JsString Regex Sizing Guardrails Analysis Stated Described Samples.

Lemma within_band (lo hi n : Z) : within lo hi n = true -> lo <= n <= hi.
Proof. unfold within. intros H. apply andb_prop in H as [H1 H2]. lia. Qed.

Lemma fill_slot (explicit current : option Z) (directed : bool) (lo hi n : Z) :
  0 < lo ->
  keptOrFilled explicit current directed lo hi ->
  directed && (negb (truthy current) && within lo hi n) = true ->
  keptOrFilled explicit (Some n) directed lo hi.
Proof.
  intros Hlo Hk Hc. apply andb_prop in Hc as [Hd Hc].
  apply andb_prop in Hc as [Hu Hw]. apply within_band in Hw.
  apply negb_true_iff in Hu. right. split; [|split; [exact Hd|eauto]].
  destruct Hk as [->|(_ & _ & m & -> & Hm)]; [exact Hu|].
  cbn in Hu. destruct (Z.eqb_spec m 0); [lia|discriminate].
Qed.

Lemma assignBare_within (schema : option Schema) (e : Out.t)
    (st : Out.t * gmap Z nat) (token : string) :
  filledWithinBands schema e (fst st) ->
  filledWithinBands schema e (fst (assignBare schema st token)).
Proof.
  destruct st as [out used]. cbn [fst]. intros (Hh & Hw & Hu & Hs & Hwa).
  unfold assignBare. destruct (parseIntSafe token) as [n|];
    [|repeat split; assumption].
  destruct (negb (usedCount used n =? 0)%nat); [repeat split; assumption|].
  destruct (negb (truthy (Out.height_cm out)) && within 140 210 n) eqn:C1.
  { cbn [fst]. repeat split; try assumption.
    apply (fill_slot _ (Out.height_cm out)); [lia|exact Hh|exact C1]. }
  destruct (systemIs schema SHIRT_COLLAR_EU && _) eqn:C2.
  { cbn [fst]. repeat split; try assumption.
    apply (fill_slot _ (Out.shirt_size_eu out)); [lia|exact Hs|exact C2]. }
  destruct (systemIs schema WAIST_INCH && _) eqn:C3.
  { cbn [fst]. repeat split; try assumption.
    apply (fill_slot _ (Out.waist_inch out)); [lia|exact Hwa|exact C3]. }
  destruct (systemIs schema EU_NUMERIC && _) eqn:C4.
  { cbn [fst]. repeat split; try assumption.
    apply (fill_slot _ (Out.usual_size_eu out)); [lia|exact Hu|exact C4]. }
  destruct (negb (truthy (Out.weight_kg out)) && within 40 180 n) eqn:C5.
  { cbn [fst]. repeat split; try assumption.
    apply (fill_slot _ (Out.weight_kg out)); [lia|exact Hw|exact C5]. }
  repeat split; assumption.
Qed.

Lemma loop_within (schema : option Schema) (e : Out.t) (tokens : list string) :
  forall st,
    filledWithinBands schema e (fst st) ->
    filledWithinBands schema e (fst (fold_left (assignBare schema) tokens st)).
Proof.
  induction tokens as [|tok rest IH]; intros st H; cbn [fold_left]; [exact H|].
  apply IH. now apply assignBare_within.
Qed.

Lemma kept_undirected (explicit final : option Z) (lo hi : Z) :
  keptOrFilled explicit final false lo hi -> final = explicit.
Proof. intros [H|(_ & H & _)]; [exact H|discriminate H]. Qed.

(** X14. The loop over the bare numbers only fills empty slots, and only
    from the slot's band: after it, a slot holds what the explicit
    patterns gave it or, when they gave nothing, a number within 140-210
    (height), 40-180 (weight), 34-60 (usual size, EU-numeric schema),
    37-46 (shirt size, collar schema) or 24-48 (waist, waist schema).
    The size letter is the explicit one.  Without a schema no bare number
    ever becomes a size. *)
Theorem bare_numbers_fill_bands (text : JsValue) (schema : option Schema) :
  let t := lower (toStr text) in
  let e := parseExplicit t in
  filledWithinBands schema e (parseBeforeReconcile t schema)
  /\ Out.alpha_size (parseUserInput text schema) = Out.alpha_size e
  /\ (let out := parseUserInput text None in
      Out.usual_size_eu out = Out.usual_size_eu e
      /\ Out.shirt_size_eu out = Out.shirt_size_eu e
      /\ Out.waist_inch out = Out.waist_inch e).
Proof.
  cbn zeta.
  assert (Hloop : forall sch,
             filledWithinBands sch (parseExplicit (lower (toStr text)))
               (parseBeforeReconcile (lower (toStr text)) sch)).
  { intros sch. unfold parseBeforeReconcile. apply loop_within. cbn [fst].
    repeat split; left; reflexivity. }
  split; [apply Hloop|]. split.
  - unfold parseUserInput.
    destruct (String.eqb_spec (lower (toStr text)) "") as [->|_];
      [reflexivity|].
    rewrite reconcile_alpha. unfold parseBeforeReconcile. apply loop_alpha.
  - unfold parseUserInput.
    destruct (String.eqb_spec (lower (toStr text)) "") as [->|_];
      [repeat split|].
    destruct (Hloop None) as (_ & _ & Hu & Hs & Hw).
    apply kept_undirected in Hu, Hs, Hw. unfold reconcile. cbn [systemIs andb].
    auto.
Qed.

End Bands.

(** ** The core module *)

Section CoreLength.
Import JsString Regex Sizing Guardrails Analysis Stated Described Samples Core.

Lemma toInt_number (n : Z) (fallback : option number) :
  Z.abs n < overflowThreshold ->
  toInt (JsNumber n) fallback = Some (Finite n).
Proof.
  intros Hn. unfold toInt. cbn [stringOf toStr].
  now rewrite (parseInt_ofZ n Hn).
Qed.

(** X15. The height fallback of the core and the length of the engine
    agree, up to the capital letter, on every height but these: 0, where
    the core gives no label and the engine gives standard; 181-185 for
    an unknown gender; 166-169 and 185 for men; 162-165 and 173-185 for
    women. *)
Theorem fallback_length_agreement (h : Z) (g : option string) :
  Z.abs h < 10 ^ 21 ->
  toLowerCase (lengthLabelFromHeight (JsNumber h)) = resolveLength (Some h) g
  <-> h <> 0
      /\ (if genderIs g "male" then ~ 166 <= h <= 169 /\ h <> 185
          else if genderIs g "female" then ~ 162 <= h <= 165 /\ ~ 173 <= h <= 185
          else ~ 181 <= h <= 185).
Proof.
  intros Hh. unfold lengthLabelFromHeight.
  rewrite toInt_number by (unfold overflowThreshold; lia).
  unfold resolveLength, falsy, numberBelow, numberAbove, truthy, lessThan, atMost.
  rewrite Z.gtb_ltb.
  destruct (Z.eqb_spec h 0) as [->|Hne].
  { cbn. split; [discriminate|]. intros [H _]. contradiction. }
  cbn [negb].
  destruct (genderIs g "male"); [|destruct (genderIs g "female")];
    repeat match goal with
           | |- context [?a <? ?b] => destruct (Z.ltb_spec a b)
           | |- context [?a <=? ?b] => destruct (Z.leb_spec a b)
           end; try lia;
    (split; [intros Hsame; first [discriminate Hsame | lia]
            |intros Hout; first [reflexivity | lia]]).
Qed.

Lemma fallback_length_agreement_witness :
  toLowerCase (lengthLabelFromHeight (JsNumber 178))
  = resolveLength (Some 178) (Some "male").
Proof.
  apply (proj2 (fallback_length_agreement 178 (Some "male") ltac:(lia))).
  cbn. lia.
Defined.

End CoreLength.

Section CoreEscape.
Import JsString Regex Sizing Guardrails Analysis Stated Described Samples Core.

Lemma lacks_app (P : ascii -> bool) (a b : string) :
  lacks P (a ++ b) = lacks P a && lacks P b.
Proof.
  induction a as [|c a IH]; [reflexivity|].
  rewrite app_cons. cbn [lacks]. now rewrite IH, andb_assoc.
Qed.

(** Replacing keeps a text free of [P] when the replacement is free of
    it; and it makes the text free of [P] when [P] holds of the replaced
    character at most. *)
Lemma replaceEach_keeps (P : ascii -> bool) (c : ascii) (by_ s : string) :
  lacks P by_ = true -> lacks P s = true ->
  lacks P (replaceEach c by_ s) = true.
Proof.
  intros Hby. induction s as [|d s IH]; [reflexivity|].
  cbn [lacks replaceEach]. intros H. apply andb_prop in H as [Hd Hs].
  destruct (Ascii.eqb d c).
  - rewrite lacks_app, Hby. now apply IH.
  - cbn [lacks]. rewrite Hd. now apply IH.
Qed.

Lemma replaceEach_removes (c : ascii) (by_ s : string) :
  lacks (Ascii.eqb c) by_ = true ->
  lacks (Ascii.eqb c) (replaceEach c by_ s) = true.
Proof.
  intros Hby. induction s as [|d s IH]; [reflexivity|].
  cbn [replaceEach]. destruct (Ascii.eqb d c) eqn:Hd.
  - now rewrite lacks_app, Hby.
  - cbn [lacks]. rewrite IH, Ascii.eqb_sym, Hd. reflexivity.
Qed.

Lemma replaceEach_absent (c : ascii) (by_ s : string) :
  lacks (Ascii.eqb c) s = true -> replaceEach c by_ s = s.
Proof.
  induction s as [|d s IH]; [reflexivity|].
  cbn [lacks replaceEach]. intros H. apply andb_prop in H as [Hd Hs].
  rewrite Ascii.eqb_sym. apply negb_true_iff in Hd. now rewrite Hd, IH.
Qed.

Lemma lacks_any (cs : list ascii) (s : string) :
  Forall (fun c => lacks (Ascii.eqb c) s = true) cs ->
  lacks (fun d => existsb (Ascii.eqb d) cs) s = true.
Proof.
  intros Hall. induction s as [|d s IH]; [reflexivity|].
  cbn [lacks]. rewrite IH.
  - rewrite andb_true_r. apply negb_true_iff. apply not_true_is_false.
    intros Hex. apply existsb_exists in Hex as (c & Hc & Heq).
    rewrite Forall_forall in Hall. apply list_elem_of_In in Hc.
    specialize (Hall c Hc). cbn in Hall.
    apply Ascii.eqb_eq in Heq. subst c. rewrite Ascii.eqb_refl in Hall.
    discriminate Hall.
  - eapply Forall_impl; [exact Hall|]. cbn. intros c H.
    apply andb_prop in H as [_ H]. exact H.
Qed.

(** X16. Escaped text holds no markup character: whatever the value,
    the result of [escapeText] has no [<], no [>], no double quote and
    no apostrophe; and a text with none of these and no [&] is returned
    as it is. *)
Theorem escaped_text_is_inert (text : JsValue) :
  lacks (fun d => existsb (Ascii.eqb d) ["<"; ">"; doubleQuote; "'"]%char)
    (escapeText text) = true
  /\ (lacks (fun d => existsb (Ascii.eqb d) ["&"; "<"; ">"; doubleQuote; "'"]%char)
        (toStr text) = true ->
      escapeText text = toStr text).
Proof.
  split.
  - apply lacks_any. unfold escapeText.
    repeat apply Forall_cons_2; [| | | |apply Forall_nil_2].
    + do 3 (apply replaceEach_keeps; [reflexivity|]).
      now apply replaceEach_removes.
    + do 2 (apply replaceEach_keeps; [reflexivity|]).
      now apply replaceEach_removes.
    + apply replaceEach_keeps; [reflexivity|].
      now apply replaceEach_removes.
    + now apply replaceEach_removes.
  - intros Hl. unfold escapeText.
    assert (Hone : forall c, In c ["&"; "<"; ">"; doubleQuote; "'"]%char ->
                             lacks (Ascii.eqb c) (toStr text) = true).
    { intros c Hc. revert Hl. generalize (toStr text) as s.
      induction s as [|d s IH]; [reflexivity|]. cbn [lacks].
      intros H. apply andb_prop in H as [Hd Hs]. rewrite (IH Hs), andb_true_r.
      apply negb_true_iff in Hd. apply negb_true_iff.
      apply not_true_is_false. intros Heq. apply Ascii.eqb_eq in Heq. subst d.
      assert (Hex : existsb (Ascii.eqb c) ["&"; "<"; ">"; doubleQuote; "'"]%char
                    = true).
      { apply existsb_exists. exists c. split; [exact Hc|apply Ascii.eqb_refl]. }
      congruence. }
    rewrite (replaceEach_absent "&") by (apply Hone; cbn; tauto).
    rewrite (replaceEach_absent "<") by (apply Hone; cbn; tauto).
    rewrite (replaceEach_absent ">") by (apply Hone; cbn; tauto).
    rewrite (replaceEach_absent doubleQuote) by (apply Hone; cbn; tauto).
    rewrite (replaceEach_absent "'") by (apply Hone; cbn; tauto).
    reflexivity.
Qed.

Lemma escaped_text_is_inert_witness :
  escapeText (JsText "EU 48") = "EU 48".
Proof.
  apply (proj2 (escaped_text_is_inert (JsText "EU 48"))). reflexivity.
Defined.

End CoreEscape.

Section CoreIntake.
Import JsString Regex Sizing Guardrails Analysis Stated Described Samples Core.

Lemma uint_digits (d : Decimal.uint) :
  allOf isDigit (NilEmpty.string_of_uint d) = true.
Proof. induction d; cbn [NilEmpty.string_of_uint allOf]; auto. Qed.

Lemma ofZ_digits (n : Z) : 0 <= n -> allOf isDigit (ofZ n) = true.
Proof.
  intros Hn. unfold ofZ. destruct n as [|p|p]; [reflexivity| |lia].
  cbn [Z.to_int NilZero.string_of_int]. unfold NilZero.string_of_uint.
  destruct (Pos.to_uint p) eqn:Hp; [reflexivity|..]; rewrite <- Hp;
    apply uint_digits.
Qed.

Lemma trimEnd_empty (s : string) : trimEnd s = "" -> allOf isSpace s = true.
Proof.
  induction s as [|c tl IH]; [reflexivity|]. cbn [trimEnd allOf].
  destruct (trimEnd tl) eqn:Ht; [|discriminate].
  destruct (isSpace c); [|discriminate]. intros _. now apply IH.
Qed.

Lemma trimStart_spaces (s : string) :
  allOf isSpace (trimStart s) = true -> allOf isSpace s = true.
Proof.
  induction s as [|c tl IH]; [reflexivity|]. cbn [trimStart].
  destruct (isSpace c) eqn:Hc; cbn [allOf]; rewrite Hc; [exact IH|auto].
Qed.

Lemma blank_has_no_digit (s : string) :
  allOf isSpace s = true -> filterChars isDigit s = "".
Proof.
  induction s as [|c tl IH]; [reflexivity|]. cbn [allOf filterChars].
  intros H. apply andb_prop in H as [Hc Htl].
  destruct (isDigit c) eqn:Hd; [|now apply IH].
  rewrite (proj1 (proj2 (digit_facts c Hd))) in Hc. discriminate Hc.
Qed.

Lemma digits_survive_trim (s : string) :
  digitsOf (trim s) = digitsOf s.
Proof.
  unfold digitsOf, trim.
  assert (Hend : forall t, filterChars isDigit (trimEnd t) = filterChars isDigit t).
  { induction t as [|c tl IH]; [reflexivity|]. cbn [trimEnd].
    destruct (trimEnd tl) eqn:Ht.
    - apply trimEnd_empty in Ht. apply blank_has_no_digit in Ht.
      cbn [filterChars]. rewrite Ht.
      destruct (isSpace c) eqn:Hc; [|reflexivity].
      destruct (isDigit c) eqn:Hd; [|reflexivity].
      rewrite (proj1 (proj2 (digit_facts c Hd))) in Hc. discriminate Hc.
    - cbn [filterChars]. cbn [filterChars] in IH. now rewrite IH. }
  rewrite Hend. induction s as [|c tl IH]; [reflexivity|].
  cbn [trimStart]. destruct (isSpace c) eqn:Hc; [|reflexivity].
  cbn [filterChars]. destruct (isDigit c) eqn:Hd; [|exact IH].
  rewrite (proj1 (proj2 (digit_facts c Hd))) in Hc. discriminate Hc.
Qed.

(** What [toInt] makes of a run of digits that spells [n]. *)
Lemma toInt_digits (n : Z) :
  0 <= n ->
  toInt (JsText (ofZ n)) None
  = Some (if overflowThreshold <=? n then Infinite false else Finite n).
Proof.
  intros Hn. unfold toInt. cbn [stringOf toStr].
  rewrite parseInt_printed, (Z.abs_eq n Hn).
  destruct (overflowThreshold <=? n); [|reflexivity].
  unfold negativeText. destruct (ofZ_head n) as (c & tl & Hs & Hc).
  pose proof (ofZ_digits n Hn) as Hd. rewrite Hs in *. cbn [allOf] in Hd.
  apply andb_prop in Hd as [Hd _].
  cbn [trimStart]. rewrite (proj1 (proj2 (digit_facts c Hd))).
  apply digit_cases in Hd. cbn in Hd.
  repeat destruct Hd as [<-|Hd]; try contradiction; reflexivity.
Qed.

(** The range test of the intake, on a run of digits that spells [n]. *)
Lemma intake_range (n lo hi : Z) :
  0 < n -> 0 < lo -> hi < overflowThreshold ->
  let v := toInt (JsText (ofZ n)) None in
  (falsy v || numberBelow v lo || numberAbove v hi = false <-> lo <= n <= hi)
  /\ (lo <= n <= hi -> finite v = Some n).
Proof.
  intros Hn Hlo Hhi. cbn zeta. rewrite toInt_digits by lia.
  destruct (Z.leb_spec overflowThreshold n) as [Hbig|Hsmall];
    cbn [falsy numberBelow numberAbove finite negb orb].
  - split; [split; [discriminate|lia]|lia].
  - rewrite Z.gtb_ltb.
    destruct (Z.eqb_spec n 0); [lia|].
    destruct (Z.ltb_spec n lo), (Z.ltb_spec hi n); cbn;
      (split; [split; [first [discriminate|lia]|first [reflexivity|lia]]
              |first [reflexivity|lia]]).
Qed.

Lemma spelled_text (text : string) (n : Z) :
  digitsOf text = ofZ n ->
  String.eqb (trim (toStr (orEmpty (JsText text)))) "" = false
  /\ digitsOf (trim (toStr (orEmpty (JsText text)))) = ofZ n.
Proof.
  intros Hd. cbn [orEmpty toStr]. rewrite digits_survive_trim. split; [|exact Hd].
  destruct (String.eqb_spec (trim text) "") as [He|]; [|reflexivity].
  pose proof (digits_survive_trim text) as Ht. rewrite He, Hd in Ht.
  destruct (ofZ_head n) as (c & tl & Hs & _). rewrite Hs in Ht.
  discriminate Ht.
Qed.

Lemma validate_measure_tags (schema : option Schema) (user : option User.t) :
  let u := default User.empty user in
  (In "height_cm" (validateAtomic schema user)
   <-> truthy (User.height_cm u) && outside (User.height_cm u) 145 205 = true)
  /\ (In "weight_kg" (validateAtomic schema user)
      <-> truthy (User.weight_kg u) && outside (User.weight_kg u) 40 180 = true).
Proof.
  cbn zeta. unfold validateAtomic. rewrite !pushWhen_In. cbn [In].
  split; (split; [intuition (discriminate || assumption)|]); intros H; tauto.
Qed.

(** X17. The sizing intake reads all the digits of a message as one
    number and stores it exactly when it lies in the range of the slot
    it is asking for: 120-220 for the height, asked first, and 35-200 for
    the weight, asked once a height is there.  A height or weight that
    [validateAtomic] does not flag lies in that range, so it can always
    be entered. *)
Theorem intake_accepts_in_range (text : string) (n : Z) (st : Flow.t) :
  0 < n -> digitsOf text = ofZ n ->
  let st' := fst (globalSizingHandleText (JsText text) st) in
  (truthy (Flow.height_cm st) = false ->
   (Flow.height_cm st' = Some n <-> 120 <= n <= 220)
   /\ Flow.weight_kg st' = Flow.weight_kg st)
  /\ (truthy (Flow.height_cm st) = true -> truthy (Flow.weight_kg st) = false ->
      (Flow.weight_kg st' = Some n <-> 35 <= n <= 200)
      /\ Flow.height_cm st' = Flow.height_cm st)
  /\ (forall schema u,
        (User.height_cm u = Some n ->
         ~ In "height_cm" (validateAtomic schema (Some u)) -> 120 <= n <= 220)
        /\ (User.weight_kg u = Some n ->
            ~ In "weight_kg" (validateAtomic schema (Some u)) -> 35 <= n <= 200)).
Proof.
  intros Hn Hd. cbn zeta.
  destruct (spelled_text text n Hd) as [Hne Hdigits].
  unfold globalSizingHandleText. rewrite Hne, Hdigits.
  split; [|split].
  - intros Hh. rewrite Hh. cbn [negb].
    destruct (intake_range n 120 220 Hn) as [Hiff Hfin];
      [lia|unfold overflowThreshold; lia|].
    destruct (falsy _ || _ || _) eqn:Hrej; cbn [fst].
    + split; [|reflexivity]. split.
      * intros Hsame. rewrite Hsame in Hh. cbn in Hh.
        destruct (Z.eqb_spec n 0); [lia|discriminate].
      * intros Hr. apply Hiff in Hr. discriminate Hr.
    + cbn. split; [|reflexivity]. split; [intros _; now apply Hiff|].
      intros Hr. now rewrite Hfin.
  - intros Hh Hw. rewrite Hh, Hw. cbn [negb].
    destruct (intake_range n 35 200 Hn) as [Hiff Hfin];
      [lia|unfold overflowThreshold; lia|].
    destruct (falsy _ || _ || _) eqn:Hrej; cbn [fst].
    + split; [|reflexivity]. split.
      * intros Hsame. rewrite Hsame in Hw. cbn in Hw.
        destruct (Z.eqb_spec n 0); [lia|discriminate].
      * intros Hr. apply Hiff in Hr. discriminate Hr.
    + cbn. split; [|reflexivity]. split; [intros _; now apply Hiff|].
      intros Hr. now rewrite Hfin.
  - intros schema u.
    destruct (validate_measure_tags schema (Some u)) as [Hvh Hvw].
    cbn [default] in Hvh, Hvw. unfold id in *.
    split; intros Hu Hnot.
    + rewrite Hvh, Hu in Hnot. cbn in Hnot. rewrite Z.gtb_ltb in Hnot.
      destruct (Z.eqb_spec n 0); [lia|].
      destruct (Z.ltb_spec n 145), (Z.ltb_spec 205 n); cbn in Hnot;
        try lia; exfalso; apply Hnot; reflexivity.
    + rewrite Hvw, Hu in Hnot. cbn in Hnot. rewrite Z.gtb_ltb in Hnot.
      destruct (Z.eqb_spec n 0); [lia|].
      destruct (Z.ltb_spec n 40), (Z.ltb_spec 180 n); cbn in Hnot;
        try lia; exfalso; apply Hnot; reflexivity.
Qed.

Lemma intake_accepts_in_range_witness :
  Flow.height_cm
    (fst (globalSizingHandleText (JsText "1.78 m")
            {| Flow.height_cm := None; Flow.weight_kg := None;
               Flow.step := "global_collect_body"; Flow.usual_size_eu := None |}))
  = Some 178.
Proof.
  apply (proj1 (intake_accepts_in_range "1.78 m" 178
                  {| Flow.height_cm := None; Flow.weight_kg := None;
                     Flow.step := "global_collect_body"; Flow.usual_size_eu := None |}
                  ltac:(lia) eq_refl));
    [reflexivity|lia].
Defined.

End CoreIntake.

Section CoreCollections.
Import JsString Regex Sizing Guardrails Analysis Stated Described Samples Core.

Ltac split_ifs :=
  repeat match goal with
         | |- context [if ?c then _ else _] => destruct c eqn:?
         end.

(** A match of the women's handle pattern holds a match of the men's
    handle pattern, two characters further on. *)
Lemma women_handle_holds_men (prev : option ascii) (text : string) :
  given (matchAt true womenHandlePattern prev text) = true ->
  exists c1 c2 rest,
    text = String c1 (String c2 rest)
    /\ given (matchAt true menHandlePattern (Some c2) rest) = true.
Proof.
  destruct text as [|c1 [|c2 [|c3 [|c4 [|c5 rest]]]]];
    try (cbn; split_ifs; discriminate).
  intros H. exists c1, c2, (String c3 (String c4 (String c5 rest))).
  split; [reflexivity|]. revert H.
  destruct rest as [|c6 rest]; [|destruct rest as [|c7 rest]];
    unfold matchAt, womenHandlePattern, menHandlePattern;
    cbn -[atomAccepts isWordChar consumed]; unfold wordBefore, wordAhead;
    cbn -[atomAccepts isWordChar consumed];
    split_ifs; cbn -[atomAccepts isWordChar consumed]; try discriminate;
    try reflexivity; congruence.
Qed.

Lemma women_title_holds_men (prev : option ascii) (text : string) :
  given (matchAt true womenTitlePattern prev text) = true ->
  exists c1 c2 rest,
    text = String c1 (String c2 rest)
    /\ given (matchAt true menTitlePattern (Some c2) rest) = true.
Proof.
  destruct text as [|c1 [|c2 [|c3 [|c4 [|c5 rest]]]]];
    try (cbn; split_ifs; discriminate).
  intros H. exists c1, c2, (String c3 (String c4 (String c5 rest))).
  split; [reflexivity|]. revert H.
  destruct rest as [|c6 rest]; [|destruct rest as [|c7 rest]];
    unfold matchAt, womenTitlePattern, menTitlePattern;
    cbn -[atomAccepts isWordChar consumed]; unfold wordBefore, wordAhead;
    cbn -[atomAccepts isWordChar consumed];
    split_ifs; cbn -[atomAccepts isWordChar consumed]; try discriminate;
    try reflexivity; congruence.
Qed.

Lemma searchFrom_later (r : regex) (prev : option ascii) (c : ascii)
    (tl : string) :
  given (searchFrom true r (Some c) tl) = true ->
  given (searchFrom true r prev (String c tl)) = true.
Proof.
  intros H. cbn [searchFrom]. now destruct (matchAt true r prev (String c tl)).
Qed.

Lemma searchFrom_at (r : regex) (prev : option ascii) (text : string) :
  given (matchAt true r prev text) = true ->
  given (searchFrom true r prev text) = true.
Proof.
  intros H. destruct (matchAt true r prev text) as [res|] eqn:Hm;
    [|discriminate H].
  now rewrite (searchFrom_hit _ _ _ _ _ Hm).
Qed.

(** A pattern whose every match holds a match of another pattern two
    characters further on is found only where the other is found. *)
Lemma search_shifted (r1 r2 : regex) :
  (forall prev text,
      given (matchAt true r1 prev text) = true ->
      exists c1 c2 rest,
        text = String c1 (String c2 rest)
        /\ given (matchAt true r2 (Some c2) rest) = true) ->
  forall text prev,
    given (searchFrom true r1 prev text) = true ->
    given (searchFrom true r2 prev text) = true.
Proof.
  intros Hshift. induction text as [|c tl IH]; intros prev H.
  - cbn [searchFrom] in H.
    destruct (matchAt true r1 prev "") eqn:Hm; [|discriminate H].
    destruct (Hshift prev "") as (c1 & c2 & rest & Habs & _);
      [now rewrite Hm|discriminate Habs].
  - cbn [searchFrom] in H.
    destruct (matchAt true r1 prev (String c tl)) eqn:Hm.
    + destruct (Hshift prev (String c tl)) as (c1 & c2 & rest & Heq & Hhit);
        [now rewrite Hm|].
      injection Heq as -> ->.
      apply searchFrom_later, searchFrom_later, searchFrom_at. exact Hhit.
    + apply searchFrom_later. now apply IH.
Qed.

Lemma test_given (r : regex) (text : string) :
  test true r text = given (searchFrom true r None text).
Proof. unfold test. now destruct (searchFrom true r None text). Qed.

Lemma women_kept_for_men (c : Collection.t) :
  keptFor "women" c = true -> keptFor "men" c = true.
Proof.
  unfold keptFor. cbv zeta.
  change (String.eqb "women" "men") with false.
  change (String.eqb "men" "men") with true. cbv iota.
  repeat match goal with
         | |- context [if ?b then false else _] => destruct b; [discriminate|]
         end.
  intros H. apply orb_true_iff in H. apply orb_true_iff.
  rewrite !test_given in *. destruct H as [H|H]; [left|right].
  - revert H. apply search_shifted. exact women_handle_holds_men.
  - revert H. apply search_shifted. exact women_title_holds_men.
Qed.

Lemma insertByTitle_In (x c : Collection.t) (l : list Collection.t) :
  In c (insertByTitle x l) <-> c = x \/ In c l.
Proof.
  induction l as [|y rest IH]; cbn [insertByTitle].
  - cbn. intuition.
  - destruct (String.ltb _ _); cbn [In]; [intuition|]. rewrite IH. intuition.
Qed.

Lemma sortByTitle_In (c : Collection.t) (l : list Collection.t) :
  In c (sortByTitle l) <-> In c l.
Proof.
  unfold sortByTitle.
  assert (Hgen : forall acc,
             In c (fold_left (fun a x => insertByTitle x a) l acc)
             <-> In c acc \/ In c l).
  { induction l as [|x rest IH]; intros acc; cbn [fold_left In]; [tauto|].
    rewrite IH, insertByTitle_In. intuition. }
  rewrite Hgen. cbn. tauto.
Qed.

(** X18. The men's list of collections takes in the women's.  A
    collection kept for women is kept for men too, because a handle or
    title that holds [women], [womens] or [woman] as the end of a word
    holds [men], [mens] or [man] there as well.  So when some collection
    is kept for women, every collection offered for women is also
    offered for men.  What is offered is always drawn from the given
    collections. *)
Theorem women_collections_offered_to_men (collections : list Collection.t) :
  (forall c, keptFor "women" c = true -> keptFor "men" c = true)
  /\ ((exists c0, In c0 collections /\ keptFor "women" c0 = true) ->
      forall c other,
        other <> Some "women" ->
        In c (filterCollectionsForGender collections (Some "women")) ->
        In c (filterCollectionsForGender collections other))
  /\ (forall gender c,
        In c (filterCollectionsForGender collections gender) ->
        In c collections).
Proof.
  split; [exact women_kept_for_men|]. split.
  - intros (c0 & Hin0 & Hk0) c other Hother.
    unfold filterCollectionsForGender, normalizeGenderForCollectionFilter.
    assert (Hg : genderIs other "women" = false).
    { destruct other as [g|]; [|reflexivity]. cbn.
      destruct (String.eqb_spec g "women"); [congruence|reflexivity]. }
    rewrite Hg. change (genderIs (Some "women") "women") with true. cbv iota zeta.
    rewrite !sortByTitle_In.
    assert (Hw : In c0 (filter (fun c => keptFor "women" c = true) collections)).
    { apply list_elem_of_In, list_elem_of_filter. split; [exact Hk0|].
      now apply list_elem_of_In. }
    assert (Hm : In c0 (filter (fun c => keptFor "men" c = true) collections)).
    { apply list_elem_of_In, list_elem_of_filter.
      split; [now apply women_kept_for_men|now apply list_elem_of_In]. }
    destruct (filter (fun c => keptFor "women" c = true) collections)
      as [|w ws] eqn:Hfw; [contradiction|].
    destruct (filter (fun c => keptFor "men" c = true) collections)
      as [|m ms] eqn:Hfm; [contradiction|].
    rewrite <- Hfw, <- Hfm. intros Hc.
    apply list_elem_of_In, list_elem_of_filter in Hc as [Hk Hc].
    apply list_elem_of_In, list_elem_of_filter.
    split; [now apply women_kept_for_men|exact Hc].
  - intros gender c. unfold filterCollectionsForGender.
    rewrite sortByTitle_In.
    destruct (filter _ collections) as [|x xs] eqn:Hf; [tauto|].
    rewrite <- Hf. intros Hc.
    apply list_elem_of_In, list_elem_of_filter in Hc as [_ Hc].
    now apply list_elem_of_In.
Qed.

Lemma women_collections_offered_to_men_witness :
  In {| Collection.handle := Some "women-shirts";
        Collection.title := Some "Women Shirts" |}
    (filterCollectionsForGender
       [ {| Collection.handle := Some "men-shirts";
            Collection.title := Some "Men Shirts" |};
         {| Collection.handle := Some "women-shirts";
            Collection.title := Some "Women Shirts" |} ]
       (Some "men")).
Proof.
  apply (proj1 (proj2 (women_collections_offered_to_men _))).
  - eexists. split; [right; left; reflexivity|reflexivity].
  - discriminate.
  - vm_compute. tauto.
Defined.

End CoreCollections.

(** ** The entry point *)

Section EntryPoint.
Import JsString Regex Sizing Guardrails Analysis Stated Described Samples.

Lemma orNull_truthy (o : option Z) : truthy (orNull o) = truthy o.
Proof. unfold orNull. destruct (truthy o) eqn:H; [exact H|reflexivity]. Qed.

Lemma orNull_kept (o : option Z) : truthy o = true -> orNull o = o.
Proof. unfold orNull. now intros ->. Qed.

Lemma orNullStr_truthy (o : option string) :
  truthyStr (orNullStr o) = truthyStr o.
Proof. unfold orNullStr. destruct (truthyStr o) eqn:H; [exact H|reflexivity]. Qed.

Lemma orNullStr_kept (o : option string) :
  truthyStr o = true -> orNullStr o = o.
Proof. unfold orNullStr. now intros ->. Qed.

Lemma resolveLength_orNull (h : option Z) (g : option string) :
  resolveLength (orNull h) g = resolveLength h g.
Proof.
  unfold resolveLength. rewrite orNull_truthy.
  destruct (truthy h) eqn:Hh; [|reflexivity]. now rewrite (orNull_kept h Hh).
Qed.

Ltac both_measures h w :=
  unfold orNull, truthy;
  destruct h as [h|], w as [w|];
  try destruct (h =? 0) eqn:?; try destruct (w =? 0) eqn:?;
  cbn [negb orb];
  repeat match goal with
         | H : (_ =? 0) = _ |- _ => rewrite ?H; clear H
         end;
  reflexivity.

Lemma deriveEu_orNull (h w : option Z) (g : option string) :
  deriveEuSizeFromProportions (orNull h) (orNull w) g
  = deriveEuSizeFromProportions h w g.
Proof. unfold deriveEuSizeFromProportions. both_measures h w. Qed.

Lemma deriveShirt_orNull (h w : option Z) :
  deriveShirtCollarFromProportions (orNull h) (orNull w)
  = deriveShirtCollarFromProportions h w.
Proof. unfold deriveShirtCollarFromProportions. both_measures h w. Qed.

Lemma deriveAlpha_orNull (h w : option Z) (g : option string) :
  deriveAlphaFromProportions (orNull h) (orNull w) g
  = deriveAlphaFromProportions h w g.
Proof. unfold deriveAlphaFromProportions. both_measures h w. Qed.

Lemma deriveWaist_orNull (h w : option Z) (g : option string) :
  deriveWaistFromProportions (orNull h) (orNull w) g
  = deriveWaistFromProportions h w g.
Proof. unfold deriveWaistFromProportions. both_measures h w. Qed.

(** The engine does not tell a zero or an empty text from a missing
    value. *)
Lemma recommend_normalized (schema : option Schema) (u : User.t) :
  recommend schema (Some (normalizedUser u)) = recommend schema (Some u).
Proof.
  destruct u as [h w usual shirt letter waist].
  unfold recommend, normalizedUser.
  cbn -[resolveLength deriveEuSizeFromProportions deriveAlphaFromProportions
        deriveShirtCollarFromProportions deriveWaistFromProportions
        clampRecommendationToProduct orNull orNullStr truthy truthyStr
        normalizeAlphaSize schemaForGeneral].
  rewrite resolveLength_orNull, !orNull_truthy, orNullStr_truthy,
    deriveEu_orNull, deriveShirt_orNull, deriveAlpha_orNull, deriveWaist_orNull.
  f_equal. destruct (system _).
  - destruct (truthy usual) eqn:H; [|reflexivity].
    now rewrite (orNull_kept _ H).
  - destruct (truthy shirt) eqn:H; [|reflexivity].
    now rewrite (orNull_kept _ H).
  - destruct (truthyStr letter) eqn:H; [|reflexivity].
    now rewrite (orNullStr_kept _ H).
  - destruct (truthy waist) eqn:H; [|reflexivity].
    now rewrite (orNull_kept _ H).
Qed.

Lemma clamp_keeps_length (s : option Schema) (rec : Rec.t) :
  Rec.length (clampRecommendationToProduct s rec) = Rec.length rec.
Proof.
  unfold clampRecommendationToProduct.
  destruct (s ≫= _) as [[s' avail]|]; [|reflexivity].
  destruct (system s');
    match goal with |- context [if ?c then _ else _] => destruct c end;
    reflexivity.
Qed.

Lemma recommend_length (schema : option Schema) (user : option User.t) :
  Rec.length (recommend schema user)
  = resolveLength (User.height_cm (default User.empty user))
      (gender (default (schemaForGeneral UNKNOWN None) schema)).
Proof.
  unfold recommend. rewrite clamp_keeps_length.
  now destruct (system _);
    match goal with |- context [if ?c then _ else _] => destruct c end.
Qed.

Lemma length_never_defaulted (schema : option Schema) (user : option User.t) :
  (if String.eqb (Rec.length (recommend schema user)) "" then "standard"
   else Rec.length (recommend schema user))
  = Rec.length (recommend schema user).
Proof.
  rewrite recommend_length.
  pose proof (resolveLength_labels
                (User.height_cm (default User.empty user))
                (gender (default (schemaForGeneral UNKNOWN None) schema))) as Hl.
  cbn [In] in Hl. destruct Hl as [<-|[<-|[<-|[]]]]; reflexivity.
Qed.

(** X19. The entry point is the engine behind a detected schema:
    [recommendForProduct] returns the recommendation of [recommend] for
    the user as given (a zero or empty field counts as missing either
    way), under the schema detected from the product or, without a
    product, the general schema of the context's gender; a size of 0 is
    reported as null.  The length is the engine's, never the default.
    With a product, the gender of the context plays no part. *)
Theorem entry_point_composes (c : Ctx.t) (u : User.t) :
  Ctx.user c = Some u ->
  let schema :=
    match Ctx.product c with
    | Some p => detectSizeSchemaFromProduct (Some p)
    | None => Some (schemaForGeneral UNKNOWN (orNullStr (Ctx.gender c)))
    end in
  recommendForProduct (Some c) = Some (flattened (recommend schema (Some u)))
  /\ (forall g, Ctx.product c <> None ->
        recommendForProduct
          (Some {| Ctx.product := Ctx.product c; Ctx.user := Some u;
                   Ctx.gender := g |})
        = recommendForProduct (Some c)).
Proof.
  intros Hu. destruct c as [product u0 g0].
  cbn [Ctx.user Ctx.product Ctx.gender] in *. subst u0.
  assert (Hmain : forall g,
    recommendForProduct
      (Some {| Ctx.product := product; Ctx.user := Some u; Ctx.gender := g |})
    = Some (flattened
              (recommend
                 match product with
                 | Some p => detectSizeSchemaFromProduct (Some p)
                 | None => Some (schemaForGeneral UNKNOWN (orNullStr g))
                 end (Some u)))).
  { intros g. unfold recommendForProduct.
    cbn [Ctx.user Ctx.product Ctx.gender].
    destruct product as [p|].
    - change (detectSizeSchemaFromProduct (Some p))
        with (Some (default (schemaForGeneral UNKNOWN None)
                      (detectSizeSchemaFromProduct (Some p)))).
      set (s := default _ (detectSizeSchemaFromProduct (Some p))).
      cbv beta iota zeta. fold (normalizedUser u).
      rewrite recommend_normalized, length_never_defaulted. reflexivity.
    - change (inferCategoryFromProduct None) with UNKNOWN.
      change (inferGenderFromProduct None) with (@None string).
      replace (if truthyStr g then g else None) with (orNullStr g)
        by reflexivity.
      set (s := schemaForGeneral UNKNOWN (orNullStr g)).
      cbv beta iota zeta. fold (normalizedUser u).
      rewrite recommend_normalized, length_never_defaulted. reflexivity. }
  split; [exact (Hmain g0)|].
  intros g Hp. rewrite (Hmain g), (Hmain g0).
  destruct product; [reflexivity|contradiction].
Qed.

Lemma entry_point_composes_witness :
  recommendForProduct
    (Some {| Ctx.product := None; Ctx.user := Some User.empty;
             Ctx.gender := Some "male" |})
  = Some (flattened
            (recommend (Some (schemaForGeneral UNKNOWN (Some "male")))
               (Some User.empty))).
Proof.
  apply (proj1 (entry_point_composes
                  {| Ctx.product := None; Ctx.user := Some User.empty;
                     Ctx.gender := Some "male" |} User.empty eq_refl)).
Defined.

End EntryPoint.

(** ** The two classifiers of products *)

Section Classifiers.
Import JsString Regex Sizing Guardrails Analysis Stated Described Samples Catalog.

Lemma prefix_spaceless (n a b : string) :
  lacks isSpace n = true ->
  String.prefix n (a ++ String " " b) = true -> String.prefix n a = true.
Proof.
  revert a. induction n as [|x n IH]; intros a Hn; [now destruct a|].
  cbn [lacks] in Hn. apply andb_prop in Hn as [Hx Hn].
  destruct a as [|c a].
  - rewrite app_empty. cbn [String.prefix].
    destruct (Ascii.ascii_dec x " ") as [->|Hne]; [discriminate Hx|discriminate].
  - rewrite app_cons. cbn [String.prefix].
    destruct (Ascii.ascii_dec x c); [|discriminate]. now apply IH.
Qed.

(** A word without a blank that occurs in two texts joined by a blank
    occurs in one of them. *)
Lemma includes_spaceless (n a b : string) :
  lacks isSpace n = true -> n <> "" ->
  includes n (a ++ String " " b) = true ->
  includes n a = true \/ includes n b = true.
Proof.
  intros Hn Hne. induction a as [|c a IH].
  - rewrite app_empty. cbn [includes]. intros H.
    apply orb_prop in H as [H|H]; [|now right].
    destruct n as [|x n]; [contradiction|]. cbn [String.prefix lacks] in *.
    apply andb_prop in Hn as [Hx _].
    destruct (Ascii.ascii_dec x " ") as [->|]; [discriminate Hx|discriminate H].
  - rewrite app_cons. cbn [includes]. intros H.
    apply orb_prop in H as [H|H].
    + left. apply orb_true_iff. left.
      change (String c (a ++ String " " b)) with (String c a ++ String " " b) in H.
      now apply (prefix_spaceless n (String c a) b).
    + destruct (IH H) as [Ha|Hb]; [left|now right].
      apply orb_true_iff. now right.
Qed.

Lemma includes_empty (n : string) : n <> "" -> includes n "" = false.
Proof. intros Hn. destruct n; [contradiction|reflexivity]. Qed.

Lemma join_includes (n x : string) (parts : list string) :
  In x parts -> includes n (lower x) = true ->
  includes n (lower (join " " parts)) = true.
Proof.
  intros Hin Hn. apply in_split in Hin as (before & after & ->).
  destruct (join_holds " " x before after) as (pre & post & ->).
  rewrite !lower_app. apply (includes_trans n (lower x)); [exact Hn|].
  apply includes_spec. eauto.
Qed.

Lemma pushIf_In (o : option string) (parts : list string) (x : string) :
  In x (pushIf o parts) <-> In x parts \/ (truthyStr o = true /\ x = default "" o).
Proof.
  rewrite pushIf_app, in_app_iff. destruct (truthyStr o); cbn; intuition congruence.
Qed.

Lemma pushJoined_In (o : option (list string)) (parts : list string) (x : string) :
  In x parts -> In x (pushJoined o parts).
Proof.
  intros H. destruct o; cbn [pushJoined]; [|exact H]. apply in_app_iff. now left.
Qed.

(** What the text of the sizing module holds of a product: the title,
    the handle, the type and the tags. *)
Lemma text_holds (p : Product) (n : string) :
  n <> "" ->
  (includes n (lower (default "" (title p))) = true
   \/ includes n (lower (default "" (handle p))) = true
   \/ includes n (lower (default "" (orNullStr (type p)))) = true
   \/ (exists tg, tags p = Some tg /\ includes n (lower (join " " tg)) = true)) ->
  includes n (getProductText (Some p)) = true.
Proof.
  intros Hne H. unfold getProductText. cbv zeta.
  assert (Hfield : forall o, includes n (lower (default "" o)) = true ->
                             truthyStr o = true).
  { assert (Hnone : includes n (lower "") = false)
      by (change (lower "") with ""; now apply includes_empty).
    intros [s|] Hs; [|cbn [default] in Hs; congruence].
    change (default "" (Some s)) with s in Hs. cbn [truthyStr].
    destruct (String.eqb_spec s "") as [->|]; [congruence|reflexivity]. }
  destruct H as [H|[H|[H|(tg & Htg & H)]]].
  - apply (join_includes n (default "" (title p))); [|exact H].
    do 2 apply pushJoined_In. do 3 (apply pushIf_In; left).
    apply pushIf_In. right. split; [now apply Hfield|reflexivity].
  - apply (join_includes n (default "" (handle p))); [|exact H].
    do 2 apply pushJoined_In. do 2 (apply pushIf_In; left).
    apply pushIf_In. right. split; [now apply Hfield|reflexivity].
  - assert (Ht : truthyStr (type p) = true).
    { unfold orNullStr in H. destruct (truthyStr (type p)); [reflexivity|].
      change (includes n "" = true) in H.
      rewrite includes_empty in H by exact Hne. discriminate H. }
    rewrite (orNullStr_kept _ Ht) in H.
    apply (join_includes n (default "" (type p))); [|exact H].
    do 2 apply pushJoined_In. apply pushIf_In; left.
    apply pushIf_In. right. split; [exact Ht|reflexivity].
  - apply (join_includes n (join " " tg)); [|exact H].
    apply pushJoined_In. rewrite Htg. cbn [pushJoined]. apply in_app_iff.
    right. now left.
Qed.

Lemma three_parts (n a b c : string) :
  lacks isSpace n = true -> n <> "" ->
  includes n (lower (a ++ " " ++ b ++ " " ++ c)) = true ->
  includes n (lower a) = true \/ includes n (lower b) = true
  \/ includes n (lower c) = true.
Proof.
  intros Hn Hne. rewrite !lower_app.
  change (lower " ") with " ". change (" " ++ ?x) with (String " " x).
  intros H. apply includes_spaceless in H as [H|H]; [now left| |exact Hn|exact Hne].
  change (" " ++ lower c) with (String " " (lower c)) in H.
  apply includes_spaceless in H as [H|H]; auto.
Qed.

Lemma text_not_empty (product : option Product) (n : string) :
  n <> "" -> includes n (getProductText product) = true ->
  String.eqb (getProductText product) "" = false.
Proof.
  intros Hne H. destruct (String.eqb_spec (getProductText product) "") as [He|];
    [|reflexivity].
  rewrite He, includes_empty in H; [discriminate H|exact Hne].
Qed.

Lemma shirt_by_token (product : option Product) :
  includes "shirt" (getProductText product) = true ->
  inferCategoryFromProduct product = SHIRT.
Proof.
  intros H. unfold inferCategoryFromProduct.
  rewrite (text_not_empty product "shirt") by (discriminate || exact H).
  rewrite !containsAny_cons, text_is_lower.
  change (lower "shirt") with "shirt". rewrite H.
  now destruct (includes (lower "overshirt") _ || _).
Qed.

Lemma female_by_token (product : option Product) :
  includes "women" (getProductText product) = true
  \/ includes "woman" (getProductText product) = true ->
  inferGenderFromProduct product = Some "female".
Proof.
  intros H. unfold inferGenderFromProduct.
  assert (He : String.eqb (getProductText product) "" = false).
  { destruct H as [H|H]; [apply (text_not_empty _ "women")
                         |apply (text_not_empty _ "woman")];
      (discriminate || exact H). }
  rewrite He, !containsAny_cons, text_is_lower.
  change (lower "women") with "women". change (lower "woman") with "woman".
  destruct H as [-> | ->]; [reflexivity|]. now rewrite orb_true_r.
Qed.

Lemma gendered_by_token (product : option Product) :
  includes "men" (getProductText product) = true
  \/ includes "man" (getProductText product) = true ->
  inferGenderFromProduct product <> None.
Proof.
  intros H. unfold inferGenderFromProduct.
  assert (He : String.eqb (getProductText product) "" = false).
  { destruct H as [H|H]; [apply (text_not_empty _ "men")
                         |apply (text_not_empty _ "man")];
      (discriminate || exact H). }
  rewrite He. destruct (containsAny _ ["women"; _; _; _; _]); [discriminate|].
  rewrite !containsAny_cons, text_is_lower.
  change (lower "men") with "men". change (lower "man") with "man".
  destruct H as [-> | ->]; [discriminate|]. rewrite orb_true_r. discriminate.
Qed.

(** X20. The product resolver and the sizing module class a product
    alike where the resolver is sure.  For a product served with a title,
    a handle, a type and tags: when the resolver infers female, so does
    the sizing module; when the resolver infers male, the sizing module
    infers a gender; and when the resolver's category is shirt, the
    sizing module's is shirt. *)
Theorem classifiers_agree (raw : Raw.t) (p : Product) :
  title p = Some (Raw.title raw) ->
  handle p = Some (Raw.handle raw) ->
  type p = Raw.type raw ->
  tags p = Some (Raw.tags raw) ->
  (Catalog.inferGender raw = Some "female" ->
   inferGenderFromProduct (Some p) = Some "female")
  /\ (Catalog.inferGender raw = Some "male" ->
      inferGenderFromProduct (Some p) <> None)
  /\ (Catalog.inferCategory raw = "shirt" ->
      inferCategoryFromProduct (Some p) = SHIRT).
Proof.
  intros Hti Hha Hty Hta.
  assert (Hgender : forall n,
             lacks isSpace n = true -> n <> "" ->
             includes n (toLowerCase
                           (Raw.title raw ++ " " ++ Raw.handle raw ++ " "
                            ++ join " " (Raw.tags raw))) = true ->
             includes n (getProductText (Some p)) = true).
  { intros n Hn Hne H. apply text_holds; [exact Hne|].
    apply (three_parts n _ _ _ Hn Hne) in H. rewrite Hti, Hha.
    destruct H as [H|[H|H]]; [now left|now right; left|].
    right. right. right. exists (Raw.tags raw). auto. }
  assert (Hcat : forall n,
             lacks isSpace n = true -> n <> "" ->
             includes n (toLowerCase (default "" (orNullStr (Raw.type raw)))
                         ++ " " ++ toLowerCase (Raw.handle raw) ++ " "
                         ++ toLowerCase (join " " (Raw.tags raw))) = true ->
             includes n (getProductText (Some p)) = true).
  { intros n Hn Hne H. apply text_holds; [exact Hne|].
    change (" " ++ ?x) with (String " " x) in H.
    apply includes_spaceless in H as [H|H]; [| |exact Hn|exact Hne].
    - right. right. left. rewrite Hty. exact H.
    - change (" " ++ ?x) with (String " " x) in H.
      apply includes_spaceless in H as [H|H]; [| |exact Hn|exact Hne].
      + right. left. rewrite Hha. exact H.
      + right. right. right. exists (Raw.tags raw). auto. }
  unfold Catalog.inferGender, Catalog.inferCategory. cbv zeta.
  split; [|split].
  - destruct (includes "women" (toLowerCase _)) eqn:H1.
    { intros _. apply female_by_token. left.
      exact (Hgender "women" eq_refl ltac:(discriminate) H1). }
    destruct (includes "woman" (toLowerCase _)) eqn:H2.
    { intros _. apply female_by_token. right.
      exact (Hgender "woman" eq_refl ltac:(discriminate) H2). }
    cbn [orb]. destruct (includes "men" _ || includes "man" _); discriminate.
  - destruct (includes "women" (toLowerCase _) || includes "woman" (toLowerCase _));
      [discriminate|].
    destruct (includes "men" (toLowerCase _)) eqn:H1.
    { intros _. apply gendered_by_token. left.
      exact (Hgender "men" eq_refl ltac:(discriminate) H1). }
    destruct (includes "man" (toLowerCase _)) eqn:H2; [|discriminate].
    intros _. apply gendered_by_token. right.
    exact (Hgender "man" eq_refl ltac:(discriminate) H2).
  - destruct (includes "shirt" (_ ++ _)) eqn:H1.
    + intros _. apply shirt_by_token.
      exact (Hcat "shirt" eq_refl ltac:(discriminate) H1).
    + repeat match goal with
             | |- context [if ?c then _ else _] => destruct c
             end; discriminate.
Qed.

Lemma classifiers_agree_witness :
  inferCategoryFromProduct
    (Some {| title := Some "Oxford"; handle := Some "man-oxford-shirt";
             type := Some "Tops"; vendor := None; tags := Some ["cotton"];
             options := None; variants := None |}) = SHIRT.
Proof.
  apply (proj2 (proj2 (classifiers_agree
                         {| Raw.title := "Oxford"; Raw.handle := "man-oxford-shirt";
                            Raw.type := Some "Tops"; Raw.tags := ["cotton"] |}
                         {| title := Some "Oxford"; handle := Some "man-oxford-shirt";
                            type := Some "Tops"; vendor := None;
                            tags := Some ["cotton"];
                            options := None; variants := None |}
                         eq_refl eq_refl eq_refl eq_refl))).
  reflexivity.
Defined.

End Classifiers.

(** ** The identifier hash *)

Section Hash.
Import JsString Regex Sizing Guardrails Analysis Stated Described Samples Core Journal.

Lemma toInt32_range (x : Z) : - 2 ^ 31 <= toInt32 x < 2 ^ 31.
Proof.
  unfold toInt32. pose proof (Z.mod_pos_bound x (2 ^ 32) ltac:(lia)) as Hm.
  cbv zeta. destruct (Z.ltb_spec (x mod 2 ^ 32) (2 ^ 31)); lia.
Qed.

Lemma toInt32_mod (x : Z) : toInt32 x mod 2 ^ 32 = x mod 2 ^ 32.
Proof.
  unfold toInt32. cbv zeta.
  destruct (Z.ltb_spec (x mod 2 ^ 32) (2 ^ 31)).
  - apply Z.mod_mod. lia.
  - rewrite <- (Z.mod_add _ 1) by lia.
    replace (x mod 2 ^ 32 - 2 ^ 32 + 1 * 2 ^ 32) with (x mod 2 ^ 32) by lia.
    apply Z.mod_mod. lia.
Qed.

Lemma toInt32_congruent (x y : Z) :
  x mod 2 ^ 32 = y mod 2 ^ 32 -> toInt32 x = toInt32 y.
Proof. intros H. unfold toInt32. now rewrite H. Qed.

Lemma toInt32_fixed (x : Z) : - 2 ^ 31 <= x < 2 ^ 31 -> toInt32 x = x.
Proof.
  intros Hx. unfold toInt32. cbv zeta.
  destruct (Z.ltb_spec (x mod 2 ^ 32) (2 ^ 31)) as [Hlt|Hge].
  - destruct (Z.le_gt_cases 0 x).
    + apply Z.mod_small. lia.
    + rewrite <- (Z.mod_add _ 1) in Hlt by lia.
      rewrite Z.mod_small in Hlt by lia. lia.
  - destruct (Z.le_gt_cases 0 x).
    + rewrite Z.mod_small in Hge by lia. lia.
    + rewrite <- (Z.mod_add _ 1) by lia. rewrite Z.mod_small by lia. lia.
Qed.

Lemma bitOr_zero (h : Z) : bitOr h 0 = toInt32 h.
Proof.
  unfold bitOr. change (toInt32 0) with 0. rewrite Z.lor_0_r.
  apply toInt32_fixed, toInt32_range.
Qed.

(** The shift and the subtraction of the loop multiply by 31. *)
Lemma hashStep_times31 (h : Z) (c : ascii) :
  hashStep h c = toInt32 (31 * h + Z.of_N (code c)).
Proof.
  unfold hashStep. cbv zeta. rewrite bitOr_zero. apply toInt32_congruent.
  unfold shiftLeft. rewrite Z.shiftl_mul_pow2 by lia.
  rewrite <- Z.add_mod_idemp_l, <- Zminus_mod_idemp_l, toInt32_mod by lia.
  rewrite <- Z.mul_mod_idemp_l, toInt32_mod, Z.mul_mod_idemp_l by lia.
  rewrite Zminus_mod_idemp_l, Z.add_mod_idemp_l by lia.
  f_equal. lia.
Qed.

Lemma hashLoop_from (l : list ascii) (h p : Z) :
  h = toInt32 p ->
  fold_left hashStep l h
  = toInt32 (fold_left (fun acc c => 31 * acc + Z.of_N (code c)) l p).
Proof.
  revert h p. induction l as [|c l IH]; intros h p Hh; cbn [fold_left];
    [exact Hh|].
  apply IH. rewrite hashStep_times31, Hh. apply toInt32_congruent.
  rewrite <- Z.add_mod_idemp_l, <- Z.mul_mod_idemp_r, toInt32_mod by lia.
  rewrite Z.mul_mod_idemp_r, Z.add_mod_idemp_l by lia. reflexivity.
Qed.

(** X21. The identifier hash is the text read in base 31, wrapped to 32
    bits: the shift-and-subtract loop of [hashString] computes
    [31 * h + c] modulo 2^32 at each character.  The identifier is
    [dljo_] followed by the magnitude of that number, which is at most
    2^31; so two texts get the same identifier exactly when their
    wrapped values are equal or opposite. *)
Theorem hash_is_base31 (a b : string) :
  hashLoop a = toInt32 (base31 a)
  /\ hashString (JsText a) = "dljo_" ++ ofZ (Z.abs (toInt32 (base31 a)))
  /\ 0 <= Z.abs (hashLoop a) <= 2 ^ 31
  /\ (hashString (JsText a) = hashString (JsText b)
      <-> toInt32 (base31 a) = toInt32 (base31 b)
          \/ toInt32 (base31 a) = - toInt32 (base31 b)).
Proof.
  assert (Hloop : forall s, hashLoop s = toInt32 (base31 s)).
  { intros s. unfold hashLoop, base31. now apply hashLoop_from. }
  assert (Hid : forall s, hashString (JsText s)
                          = "dljo_" ++ ofZ (Z.abs (toInt32 (base31 s)))).
  { intros s. unfold hashString. cbv zeta. rewrite <- Hloop.
    destruct s; reflexivity. }
  split; [apply Hloop|]. split; [apply Hid|]. split.
  - rewrite Hloop. pose proof (toInt32_range (base31 a)). lia.
  - rewrite !Hid. split.
    + intros H. injection H as H. apply ofZ_injective in H. lia.
    + intros [H|H]; rewrite H; [reflexivity|]. now rewrite Z.abs_opp.
Qed.

End Hash.

(** ** The general flow of the core *)

Section GeneralFlow.
Import JsString Regex Sizing Guardrails Analysis Stated Described Samples Core.

Lemma general_schema_unknown (c : Category) (g : option string) :
  g <> Some "male" -> g <> Some "female" ->
  schemaForGeneral c g = schemaForGeneral c None.
Proof.
  intros Hm Hf. unfold schemaForGeneral.
  assert (Hgm : genderIs g "male" = false).
  { destruct g as [s|]; [|reflexivity]. cbn.
    destruct (String.eqb_spec s "male"); [congruence|reflexivity]. }
  assert (Hgf : genderIs g "female" = false).
  { destruct g as [s|]; [|reflexivity]. cbn.
    destruct (String.eqb_spec s "female"); [congruence|reflexivity]. }
  now rewrite Hgm, Hgf.
Qed.

Lemma recommend_length_given (schema : option Schema) (user : option User.t) :
  String.eqb (Rec.length (recommend schema user)) "" = false.
Proof.
  rewrite recommend_length.
  pose proof (resolveLength_labels
                (User.height_cm (default User.empty user))
                (gender (default (schemaForGeneral UNKNOWN None) schema))) as Hl.
  cbn [In] in Hl. destruct Hl as [<-|[<-|[<-|[]]]]; reflexivity.
Qed.

(** X22. The general flow of the core never tells the engine the gender
    the customer chose.  The core keeps the gender as [men] or [women],
    the engine knows [male] and [female]: for every gender text other
    than these two the schema is the one for an unknown gender, so the
    outcome is the same as with no gender at all.  With a usual size
    given, the size shown is that usual size and the length is the one
    for an unknown gender (short under 166, long over 180); the height
    fallback of the core is not used. *)
Theorem general_flow_ignores_gender (st : Flow.t)
    (flowGender savedGender catHandle : option string) :
  let gender := if truthyStr flowGender then flowGender else savedGender in
  gender <> Some "male" -> gender <> Some "female" ->
  globalSizingComputeGeneralRecommendation true st flowGender savedGender catHandle
  = globalSizingComputeGeneralRecommendation true st None None catHandle
  /\ (truthy (Flow.usual_size_eu st) = true ->
      globalSizingComputeGeneralRecommendation true st flowGender savedGender
        catHandle
      = Some (Flow.usual_size_eu st, resolveLength (Flow.height_cm st) None)).
Proof.
  cbn zeta. intros Hm Hf.
  unfold globalSizingComputeGeneralRecommendation. cbn [negb]. cbv zeta.
  rewrite (general_schema_unknown _ _ Hm Hf).
  change (if truthyStr None then None else None) with (@None string).
  split; [reflexivity|]. intros Hu.
  set (c := categoryOfHandle _).
  rewrite recommend_length_given, recommend_length.
  unfold recommend, schemaForGeneral.
  cbn -[truthy deriveEuSizeFromProportions resolveLength].
  rewrite Hu. cbn -[resolveLength].
  destruct (Flow.usual_size_eu st); [reflexivity|discriminate Hu].
Qed.

Lemma general_flow_ignores_gender_witness :
  globalSizingComputeGeneralRecommendation true
    {| Flow.height_cm := Some 183; Flow.weight_kg := Some 80;
       Flow.step := "global_usual_size"; Flow.usual_size_eu := Some 50 |}
    (Some "men") (Some "men") (Some "mens-jackets")
  = Some (Some 50, "long").
Proof.
  apply (proj2 (general_flow_ignores_gender
                  {| Flow.height_cm := Some 183; Flow.weight_kg := Some 80;
                     Flow.step := "global_usual_size";
                     Flow.usual_size_eu := Some 50 |}
                  (Some "men") (Some "men") (Some "mens-jackets")
                  ltac:(discriminate) ltac:(discriminate))).
  reflexivity.
Defined.

End GeneralFlow.

(** ** Lists without repeats *)

Section CoreDedupe.
Import JsString Regex Sizing Guardrails Analysis Stated Described Samples Core.

Context {A : Type} (keyFn : A -> option string).

Lemma dedupeLoop_uniqLoop (items : list (option A)) :
  forall seen,
    dedupeLoop keyFn seen items
    = uniqLoop (dedupeKey keyFn) seen
        (filter (fun it => dedupeKey keyFn it <> "") (omap id items)).
Proof.
  induction items as [|[it|] rest IH]; intros seen; cbn [dedupeLoop];
    [reflexivity| |apply IH].
  change (omap id (Some it :: rest)) with (it :: omap id rest).
  rewrite filter_cons. cbv zeta.
  destruct (String.eqb_spec (dedupeKey keyFn it) "") as [He|Hne].
  - destruct (decide (dedupeKey keyFn it <> "")); [contradiction|apply IH].
  - destruct (decide (dedupeKey keyFn it <> "")); [|contradiction].
    cbn [uniqLoop]. destruct (decide (dedupeKey keyFn it ∈ seen)); [apply IH|].
    f_equal. apply IH.
Qed.

Lemma present_item (items : list (option A)) (it : A) :
  In it (omap id items) <-> In (Some it) items.
Proof.
  rewrite <- !list_elem_of_In, list_elem_of_omap. split.
  - intros (o & Ho & Heq). cbn in Heq. now subst o.
  - intros H. exists (Some it). auto.
Qed.

(** X23. [dedupeByKey] is the loop of [uniq] on the key in lower case
    and trimmed, over the items that are present and whose key is not
    empty.  So the kept items have pairwise distinct keys, none empty;
    each comes from the list; and every key of the list that is not
    empty is kept once, by its first item, unless it names a property
    that every object inherits (a title such as Constructor). *)
Theorem dedupe_is_uniq (items : list (option A)) :
  let key := dedupeKey keyFn in
  let kept := dedupeByKey (Some items) keyFn in
  kept = uniq key (filter (fun it => key it <> "") (omap id items))
  /\ NoDup (map key kept)
  /\ (forall it, In it kept ->
        In (Some it) items /\ key it <> "" /\ key it ∉ inheritedKeys)
  /\ (forall it, In (Some it) items -> key it <> "" ->
        key it ∉ inheritedKeys -> In (key it) (map key kept)).
Proof.
  cbn zeta. unfold dedupeByKey, uniq. cbn [default].
  change (from_option id [] (Some items)) with items.
  rewrite dedupeLoop_uniqLoop. split; [reflexivity|]. split; [|split].
  - apply uniqLoop_nodup.
  - intros it Hin. apply uniqLoop_members in Hin as [Hin Hk].
    apply list_elem_of_In, list_elem_of_filter in Hin as [Hne Hin].
    apply list_elem_of_In, present_item in Hin. auto.
  - intros it Hin Hne Hk. apply uniqLoop_covers; [|exact Hk].
    apply list_elem_of_In, list_elem_of_filter. split; [exact Hne|].
    now apply list_elem_of_In, present_item.
Qed.

End CoreDedupe.

Section CoreDedupeExamples.
Import JsString Regex Sizing Core.

Lemma dedupe_is_uniq_witness :
  In "shirts" (map (dedupeKey Some)
                 (dedupeByKey (Some [Some "Shirts"; None; Some " SHIRTS "; Some ""])
                    Some)).
Proof.
  apply (proj2 (proj2 (proj2 (dedupe_is_uniq Some
           [Some "Shirts"; None; Some " SHIRTS "; Some ""]))) "Shirts").
  - now left.
  - discriminate.
  - vm_compute. set_solver.
Defined.

End CoreDedupeExamples.

(** ** Context tags *)

Section ContextTags.
Import JsString Regex Sizing Guardrails Analysis Stated Described Samples Styling.

Lemma hyphenate_no_blank (s : string) :
  forall inRun, lacks isSpace (hyphenate inRun s) = true.
Proof.
  induction s as [|c tl IH]; intros inRun; cbn [hyphenate]; [reflexivity|].
  destruct (isSpace c) eqn:Hc.
  - destruct inRun; [apply IH|]. cbn [lacks]. now rewrite IH.
  - cbn [lacks]. now rewrite Hc, IH.
Qed.

Lemma hyphenate_plain (s : string) :
  forall inRun, lacks isSpace s = true -> hyphenate inRun s = s.
Proof.
  induction s as [|c tl IH]; intros inRun; cbn [hyphenate lacks];
    [reflexivity|].
  intros H. apply andb_prop in H as [Hc Htl]. apply negb_true_iff in Hc.
  now rewrite Hc, IH.
Qed.

(** A text with a blank gets a hyphen. *)
Lemma hyphenate_marks (s : string) :
  forall inRun,
    lacks isSpace s = false ->
    inRun = false \/ lacks (Ascii.eqb "-") s = true ->
    lacks (Ascii.eqb "-") (hyphenate inRun s) = false
    \/ (inRun = true /\ lacks (Ascii.eqb "-") s = true).
Proof.
  induction s as [|c tl IH]; intros inRun Hs Hcase; [discriminate Hs|].
  cbn [hyphenate lacks] in *. destruct (isSpace c) eqn:Hc.
  - destruct inRun.
    + destruct Hcase as [Hcase|Hcase]; [discriminate Hcase|]. now right.
    + left. reflexivity.
  - cbn [negb andb] in Hs. cbn [lacks].
    destruct (Ascii.eqb "-" c) eqn:Hd; [now left|]. cbn [negb andb] in *.
    destruct (IH false Hs (or_introl eq_refl)) as [H|[H _]];
      [now left|discriminate H].
Qed.

Lemma hyphenate_not_empty (s : string) :
  s <> "" -> lacks isSpace s = false -> hyphenate false s <> "".
Proof.
  intros _ Hs Hempty.
  destruct (hyphenate_marks s false Hs (or_introl eq_refl)) as [H|[H _]];
    [|discriminate H].
  rewrite Hempty in H. discriminate H.
Qed.

Lemma lower_no_blank (s : string) :
  lacks isSpace (toLowerCase s) = lacks isSpace s.
Proof.
  unfold toLowerCase. induction s as [|c tl IH]; [reflexivity|].
  cbn [mapChars lacks]. rewrite IH. f_equal. f_equal.
  destruct c as [[] [] [] [] [] [] [] []]; reflexivity.
Qed.

Lemma lower_hyphenate (s : string) :
  forall inRun,
    toLowerCase (hyphenate inRun s) = hyphenate inRun (toLowerCase s).
Proof.
  unfold toLowerCase. induction s as [|c tl IH]; intros inRun; [reflexivity|].
  cbn [hyphenate mapChars].
  assert (Hsp : isSpace (lowerChar c) = isSpace c)
    by (destruct c as [[] [] [] [] [] [] [] []]; reflexivity).
  rewrite Hsp. destruct (isSpace c).
  - destruct inRun; [apply IH|]. cbn [mapChars]. now rewrite IH.
  - cbn [mapChars]. now rewrite IH.
Qed.

Lemma trim_plain (s : string) : lacks isSpace s = true -> trim s = s.
Proof.
  intros H. apply (allOf_trim (fun c => negb (isSpace c))).
  - intros c Hc. now apply negb_true_iff.
  - clear -H. induction s as [|c tl IH]; [reflexivity|].
    cbn [lacks allOf] in *. apply andb_prop in H as [Hc Htl].
    now rewrite Hc, IH.
Qed.

Lemma ownValue_slugs (key v : string) :
  ownValue contextMap key = Some v ->
  In v ["everyday"; "work"; "social-evening"; "sunday-stroll"; "smart-casual"].
Proof.
  unfold contextMap. cbn [ownValue].
  repeat match goal with
         | |- context [if ?c then _ else _] => destruct c
         end; intros [= <-] || discriminate; cbn; tauto.
Qed.

Lemma ownValue_plain (key : string) :
  lacks (Ascii.eqb "-") key = false -> ownValue contextMap key = None.
Proof.
  intros H. unfold contextMap. cbn [ownValue].
  repeat match goal with
         | |- context [String.eqb ?k key] =>
             destruct (String.eqb_spec k key) as [<-|_]; [discriminate H|]
         end.
  reflexivity.
Qed.

Lemma inherited_plain (key : string) :
  key ∈ inheritedKeys -> lacks (Ascii.eqb "-") key = true
                         /\ lacks isSpace key = true.
Proof.
  unfold inheritedKeys. rewrite elem_of_list_to_set, list_elem_of_In. cbn.
  intros H. repeat destruct H as [<-|H]; try contradiction; split; reflexivity.
Qed.

(** X24. A context tag is normalised once and for all.  When
    [normalizeContextTag] returns a text, that text is not empty, holds
    no blank, and is returned as it is when normalised again; the texts
    the map gives are the five slugs.  The result is null exactly for a
    value that is no text or a blank text.  For a key that the object
    literal inherits, such as constructor, the result is not a text. *)
Theorem context_tag_settles (ctx : JsValue) :
  (forall s, normalizeContextTag ctx = Some (Slug s) ->
     s <> "" /\ lacks isSpace s = true
     /\ normalizeContextTag (JsText s) = Some (Slug s))
  /\ (normalizeContextTag ctx = None <-> trim (safeString ctx) = "")
  /\ (forall name, normalizeContextTag ctx = Some (Member name) ->
        name ∈ inheritedKeys)
  /\ normalizeContextTag (JsText "constructor") = Some (Member "constructor").
Proof.
  assert (Hfixed : forall s,
             s <> "" -> lacks isSpace s = true -> toLowerCase s = s ->
             ownValue contextMap s = None -> s ∉ inheritedKeys ->
             normalizeContextTag (JsText s) = Some (Slug s)).
  { intros s Hne Hsp Hlow Hown Hinh. unfold normalizeContextTag.
    cbn [safeString]. cbv zeta. rewrite (trim_plain s Hsp).
    destruct (String.eqb_spec s "") as [|_]; [contradiction|].
    rewrite Hlow, Hown. destruct (decide (s ∈ inheritedKeys)); [contradiction|].
    now rewrite hyphenate_plain. }
  split; [|split; [|split]].
  - intros s. unfold normalizeContextTag. cbv zeta.
    destruct (String.eqb_spec (trim (safeString ctx)) "") as [|Hne];
      [discriminate|].
    set (t := trim (safeString ctx)) in *.
    destruct (ownValue contextMap (toLowerCase t)) as [v|] eqn:Hown.
    + intros [= <-]. apply ownValue_slugs in Hown. cbn in Hown.
      repeat destruct Hown as [<-|Hown]; try contradiction;
        (split; [discriminate|split; reflexivity]).
    + destruct (decide (toLowerCase t ∈ inheritedKeys)) as [|Hinh];
        [discriminate|].
      intros [= <-].
      assert (Hkey : toLowerCase t <> "") by (now destruct t).
      destruct (lacks isSpace (toLowerCase t)) eqn:Hsp.
      * rewrite hyphenate_plain by exact Hsp.
        split; [exact Hkey|]. split; [exact Hsp|].
        apply Hfixed; auto. apply lower_idem.
      * split; [now apply hyphenate_not_empty|].
        split; [apply hyphenate_no_blank|].
        destruct (hyphenate_marks _ false Hsp (or_introl eq_refl))
          as [Hmark|[Habs _]]; [|discriminate Habs].
        apply Hfixed.
        -- now apply hyphenate_not_empty.
        -- apply hyphenate_no_blank.
        -- rewrite lower_hyphenate. f_equal. apply lower_idem.
        -- now apply ownValue_plain.
        -- intros Hin. apply inherited_plain in Hin as [Hin _]. congruence.
  - unfold normalizeContextTag. cbv zeta.
    destruct (String.eqb_spec (trim (safeString ctx)) "") as [He|Hne].
    + tauto.
    + split; [|contradiction].
      destruct (ownValue _ _); [discriminate|].
      destruct (decide _); discriminate.
  - intros name. unfold normalizeContextTag. cbv zeta.
    destruct (String.eqb _ ""); [discriminate|].
    destruct (ownValue _ _); [discriminate|].
    destruct (decide _) as [Hin|]; [|discriminate]. now intros [= <-].
  - reflexivity.
Qed.

Lemma context_tag_settles_witness :
  normalizeContextTag (JsText "garden-party") = Some (Slug "garden-party").
Proof.
  apply (proj1 (context_tag_settles (JsText " Garden  Party ")) "garden-party").
  vm_compute. reflexivity.
Defined.

End ContextTags.
